(** * Semantic tensor memory: a shallow embedding of
    [src/agents/semantic-tensor-memory.js] and the properties of its
    multi-index store.

    Conventions of the embedding.
    - A JavaScript [Map] is an association list in insertion order
      ([JsMap]); a [Set] is a duplicate-free list in insertion order
      ([JsSet]).  Both orders are observable in the source ([Array.from],
      [for ... of], the stable [sort]).
    - A JavaScript number that carries an embedding, a confidence or a
      similarity is an IEEE binary64 value ([PrimFloat.float]).
    - The identifiers and the clock that the source draws from [Date.now()]
      and [Math.random()] are explicit arguments.
    - A string is a [string] of 8-bit characters; [toLowerCase] and the
      white space of [split] are those of ASCII.
    - A timestamp is a number of milliseconds or a date-time string, the
      two forms that the callers of [storeMemory] pass ([JsTimestamp]).
    - [Date] and [URL] belong to the platform ([Platform]); the properties
      hold for every platform, the examples run on universal time.
    - A [throw] is the [Throw] constructor of [Outcome]; [try]/[catch] is a
      match on it.
    - An object or a property that a result may lack is an [option]; a
      read with [?.] of an absent one gives [None], a plain read of a
      property of an absent object throws the [TypeError] of the engine. *)

From Stdlib Require Import List String Ascii ZArith Lia Bool Floats Uint63.
From Stdlib Require Import DecimalString Permutation Sorted.
Import ListNotations.

Set Warnings "-inexact-float".
Local Open Scope string_scope.
Local Open Scope list_scope.

(** ** JavaScript [Map] with string keys *)

Module JsMap.
Section Ops.
Context {V : Type}.

Definition t := list (string * V).

Definition keys (m : t) : list string := map fst m.

Fixpoint get (k : string) (m : t) : option V :=
  match m with
  | [] => None
  | (k', v) :: m' => if String.eqb k k' then Some v else get k m'
  end.

Definition has (k : string) (m : t) : bool :=
  match get k m with Some _ => true | None => false end.

(** [m.set(k, v)]: an existing key keeps its position. *)
Fixpoint set (k : string) (v : V) (m : t) : t :=
  match m with
  | [] => [(k, v)]
  | (k', v') :: m' =>
      if String.eqb k k' then (k', v) :: m' else (k', v') :: set k v m'
  end.

Definition delete (k : string) (m : t) : t :=
  filter (fun kv => negb (String.eqb k (fst kv))) m.

(** [m.forEach(v => mutate v)] on values that are objects. *)
Definition mapValues (f : V -> V) (m : t) : t :=
  map (fun kv => (fst kv, f (snd kv))) m.
End Ops.
Arguments t : clear implicits.
End JsMap.

(** ** JavaScript [Set] of strings *)

Module JsSet.
Definition t := list string.

Definition has (x : string) (s : t) : bool :=
  existsb (String.eqb x) s.

Definition add (x : string) (s : t) : t :=
  if has x s then s else s ++ [x].

Definition delete (x : string) (s : t) : t :=
  filter (fun y => negb (String.eqb x y)) s.

(** [[...new Set(l)]] *)
Definition ofList (l : list string) : t :=
  fold_left (fun s x => add x s) l [].
End JsSet.

(** ** Arrays *)

(** [l.slice(0, n)] for an integral [n]: a negative end counts from the
    end of the array. *)
Definition slice0 {A : Type} (n : Z) (l : list A) : list A :=
  if (n <? 0)%Z
  then firstn (Z.to_nat (Z.of_nat (List.length l) + n)) l
  else firstn (Z.to_nat n) l.

(** [Array.prototype.sort] is stable.  [after y x] says that the
    comparator puts [y] strictly after [x] (it returned a positive number
    on [(y, x)]); a zero or [NaN] result leaves the two in their order.
    The sort is written as an insertion sort.  Where the comparator orders
    the elements this is the one result that a stable sort can give; where
    it does not, the result of the engine depends on its algorithm, and
    only what holds of every rearrangement of the list carries over. *)
Section Sort.
Context {A : Type} (after : A -> A -> bool).

Fixpoint sortInsert (x : A) (l : list A) : list A :=
  match l with
  | [] => [x]
  | y :: l' => if after y x then x :: y :: l' else y :: sortInsert x l'
  end.

Definition stableSort (l : list A) : list A :=
  fold_left (fun acc x => sortInsert x acc) l [].
End Sort.

(** [l.findIndex(p)] followed by [l.splice(index, 1)] when an index was
    found: the first match is removed, later ones stay. *)
Fixpoint spliceFirst {A : Type} (p : A -> bool) (l : list A) : list A :=
  match l with
  | [] => []
  | x :: l' => if p x then l' else x :: spliceFirst p l'
  end.

(** ** Outcomes of code that may throw *)

Inductive Outcome (A : Type) : Type :=
| Ok (a : A)
| Throw (message : string).
Arguments Ok {A} a.
Arguments Throw {A} message.

(** ** Arithmetic of the similarity loop

    [calculateCosineSimilarity] only adds, multiplies, divides, takes a
    square root and tests against zero.  The loop is written over this
    interface and runs on binary64 numbers, with their rounding, their
    infinities and [NaN]. *)

Class Arith (N : Type) := {
  nzero : N;
  nadd : N -> N -> N;
  nmul : N -> N -> N;
  ndiv : N -> N -> N;
  nsqrt : N -> N;
  (** [x === y] *)
  neqb : N -> N -> bool
}.

#[export] Instance floatArith : Arith float := {
  nzero := 0%float;
  nadd := PrimFloat.add;
  nmul := PrimFloat.mul;
  ndiv := PrimFloat.div;
  nsqrt := PrimFloat.sqrt;
  neqb := PrimFloat.eqb
}.

Section Cosine.
Context {N : Type} `{Arith N}.

(** One iteration of the [for] loop: the three accumulators
    [dotProduct], [normA], [normB]. *)
Definition cosineStep (acc : N * N * N) (xy : N * N) : N * N * N :=
  let '(dotProduct, normA, normB) := acc in
  let '(x, y) := xy in
  (nadd dotProduct (nmul x y), nadd normA (nmul x x), nadd normB (nmul y y)).

Definition calculateCosineSimilarity (vecA vecB : option (list N)) : N :=
  match vecA, vecB with
  | Some a, Some b =>
      if negb (Nat.eqb (List.length a) (List.length b)) then nzero
      else
        let '(dotProduct, normA, normB) :=
          fold_left cosineStep (combine a b) (nzero, nzero, nzero) in
        let denominator := nmul (nsqrt normA) (nsqrt normB) in
        if neqb denominator nzero then nzero else ndiv dotProduct denominator
  | _, _ => nzero
  end.

(** The quantities of the specification's formula, each as its own sum. *)
Definition dot (a b : list N) : N :=
  fold_left (fun acc xy => nadd acc (nmul (fst xy) (snd xy))) (combine a b) nzero.

Definition sumSquares (a : list N) : N :=
  fold_left (fun acc x => nadd acc (nmul x x)) a nzero.

Definition norm (a : list N) : N := nsqrt (sumSquares a).

Definition scale (s : N) (a : list N) : list N := map (nmul s) a.
End Cosine.

(** ** Strings *)

Infix "+++" := String.append (at level 60, right associativity).

Definition showZ (z : Z) : string := NilZero.string_of_int (Z.to_int z).

(** A number inside a template literal; [None] is [NaN]. *)
Definition showNum (n : option Z) : string :=
  match n with Some z => showZ z | None => "NaN" end.

(** [s.toLowerCase()] on the ASCII letters. *)
Definition lowerAscii (c : ascii) : ascii :=
  let n := nat_of_ascii c in
  if (Nat.leb 65 n && Nat.leb n 90)%bool then ascii_of_nat (n + 32) else c.

Fixpoint toLowerCase (s : string) : string :=
  match s with
  | EmptyString => EmptyString
  | String c s' => String (lowerAscii c) (toLowerCase s')
  end.

(** The ASCII characters matched by the regular expression class [\s]. *)
Definition isSpace (c : ascii) : bool :=
  let n := nat_of_ascii c in
  (Nat.leb 9 n && Nat.leb n 13)%bool || Nat.eqb n 32.

(** [s.split(/\s+/)]: a run of white space separates two fields; white
    space at either end leaves an empty field there. *)
Fixpoint splitSpaces (s : string) (field : string) (inRun : bool) : list string :=
  match s with
  | EmptyString => [field]
  | String c s' =>
      if isSpace c
      then if inRun then splitSpaces s' field true
           else field :: splitSpaces s' EmptyString true
      else splitSpaces s' (field +++ String c EmptyString) false
  end.

Definition split (s : string) : list string := splitSpaces s EmptyString false.

(** A string in a condition: the empty string is falsy. *)
Definition truthy (s : option string) : option string :=
  match s with
  | Some EmptyString => None
  | other => other
  end.

(** [x || 0] on an optional number: [undefined], [0] and [NaN] give [0]. *)
Definition orZero (x : option float) : float :=
  match x with
  | Some c => if (PrimFloat.eqb c 0 || PrimFloat.is_nan c)%bool then 0%float else c
  | None => 0%float
  end.

(** ** The platform: [Date] and [URL]

    [Date] reads the local time zone of the engine and [URL] is the WHATWG
    parser; both are taken as given. *)

Class Platform := {
  (** [Date.parse(s)]; [None] is an invalid date. *)
  dateParse : string -> option Z;
  (** The local-time fields of a time value. *)
  localFullYear : Z -> Z;
  localMonth : Z -> Z;
  localDate : Z -> Z;
  localHours : Z -> Z;
  localDay : Z -> Z;
  (** The time value of [new Date(year, 0, 1)]. *)
  localYearStart : Z -> Z;
  (** [new URL(url).hostname]; [None] when the constructor throws. *)
  urlHostname : string -> option string
}.

(** A record's [timestamp] as the callers in this repository produce it:
    [Date.now()] (orchestrator-agent.js), a whole number of milliseconds,
    or [new Date().toISOString()] (the background script), a date-time
    string [YYYY-MM-DDTHH:mm:ss.sssZ].  Such a string is not a numeric
    literal: [ToNumber] of it is [NaN]. *)
Inductive JsTimestamp : Type :=
| TsNumber (ms : Z)
| TsIso (text : string).

(** The largest time value of a [Date], in milliseconds either side of
    the epoch. *)
Definition maxTimeValue : Z := 8640000000000000.

Section Dates.
Context `{Platform}.

(** [new Date(timestamp)]: the time value, [None] for an invalid date.
    A number beyond the range of time values gives an invalid date. *)
Definition newDate (ts : JsTimestamp) : option Z :=
  match ts with
  | TsNumber ms => if (Z.abs ms <=? maxTimeValue)%Z then Some ms else None
  | TsIso text => dateParse text
  end.

Definition getFullYear (d : option Z) : option Z := option_map localFullYear d.
Definition getMonth (d : option Z) : option Z := option_map localMonth d.
Definition getDate (d : option Z) : option Z := option_map localDate d.
Definition getHours (d : option Z) : option Z := option_map localHours d.
Definition getDay (d : option Z) : option Z := option_map localDay d.

Definition msPerDay : Z := 86400000.

(** [Math.ceil((pastDaysOfYear + firstDayOfYear.getDay() + 1) / 7)] with
    [pastDaysOfYear = (date - firstDayOfYear) / 86400000]; the quotient
    is taken exactly, in milliseconds. *)
Definition getWeekNumber (d : option Z) : option Z :=
  match d with
  | None => None
  | Some t =>
      let firstDayOfYear := localYearStart (localFullYear t) in
      let numerator := (t - firstDayOfYear + (localDay firstDayOfYear + 1) * msPerDay)%Z in
      Some (- ((- numerator) / (7 * msPerDay)))%Z
  end.

Definition getSeason (d : option Z) : string :=
  match getMonth d with
  | Some month =>
      if ((2 <=? month) && (month <=? 4))%Z%bool then "spring"
      else if ((5 <=? month) && (month <=? 7))%Z%bool then "summer"
      else if ((8 <=? month) && (month <=? 10))%Z%bool then "fall"
      else "winter"
  | None => "winter"
  end.

Definition hourKey (d : option Z) : string :=
  showNum (getFullYear d) +++ "-" +++ showNum (getMonth d) +++ "-" +++
  showNum (getDate d) +++ "-" +++ showNum (getHours d).

Definition dayKey (d : option Z) : string :=
  showNum (getFullYear d) +++ "-" +++ showNum (getMonth d) +++ "-" +++
  showNum (getDate d).

Definition weekKey (d : option Z) : string :=
  showNum (getFullYear d) +++ "-" +++ showNum (getWeekNumber d).

Definition monthKey (d : option Z) : string :=
  showNum (getFullYear d) +++ "-" +++ showNum (getMonth d).

Definition extractDomain (url : string) : string :=
  match urlHostname url with
  | Some hostname => hostname
  | None => "unknown"
  end.
End Dates.

(** ** The raw analysis result ([orchestrationResult]) *)

Definition Embedding := list float.

(** A free-form object kept for audit, as key/value pairs. *)
Definition Bag := list (string * string).

Record Metadata := {
  md_contentType : option string;
  md_pageType : option string
}.

Record TextAnalysis := {
  ta_summary : option string;
  ta_metadata : option Metadata
}.

Record TextAgentResult := {
  tr_textAnalysis : option TextAnalysis;
  tr_confidence : option float;
  tr_agentId : option string;
  tr_reasoning : option Bag
}.

Record VisualFeatures := {
  vf_designStyle : option string;
  vf_userExperience : option string
}.

Record VisionAnalysis := {
  va_synthesis : option string;
  va_visualFeatures : option VisualFeatures
}.

Record VisionAgentResult := {
  vr_visionAnalysis : option VisionAnalysis;
  vr_confidence : option float;
  vr_agentId : option string;
  vr_reasoning : option Bag
}.

Record AgentResults := {
  ar_text : option TextAgentResult;
  ar_vision : option VisionAgentResult
}.

Record OrchestratorSynthesis := {
  os_unifiedAnalysis : option string;
  os_confidence : option float;
  os_agentAgreement : option float;
  os_decisionRationale : option string
}.

Record QualityMetrics := {
  qm_overallScore : option float
}.

Record OrchestrationMetadata := {
  om_processingTime : option float;
  om_synthesisApproach : option string
}.

(** The argument of [storeMemory].  Each of the four objects may be
    missing ([None] is [undefined]): [createErrorOrchestration] of
    orchestrator-agent.js, for one, builds a result without
    [orchestrationMetadata]. *)
Record OrchestrationResult := {
  or_timestamp : JsTimestamp;
  or_url : string;
  or_agentResults : option AgentResults;
  or_orchestratorSynthesis : option OrchestratorSynthesis;
  or_qualityMetrics : option QualityMetrics;
  or_orchestrationMetadata : option OrchestrationMetadata;
  or_agentId : option string
}.

(** ** The memory record ([memoryEntry]) *)

Record AgentOutput := {
  ao_text : string;
  ao_confidence : float
}.

Record AgentOutputs := {
  out_text : AgentOutput;
  out_vision : AgentOutput;
  out_orchestrator : AgentOutput
}.

Record EmbeddingsTensor := {
  unified : option Embedding;
  et_text : option Embedding;
  et_vision : option Embedding;
  et_dimension : Z
}.

Record SemanticFeatures := {
  sf_contentType : string;
  sf_pageType : string;
  sf_topics : list string;
  sf_categories : list string;
  sf_quality : option float;
  sf_confidence : option float
}.

Record TemporalFeatures := {
  tf_hour : option Z;
  tf_dayOfWeek : option Z;
  tf_month : option Z;
  tf_season : string
}.

Record Provenance := {
  pv_textAgent : option string;
  pv_visionAgent : option string;
  pv_orchestratorAgent : option string;
  pv_processingTime : option float;
  pv_synthesisApproach : option string;
  pv_qualityMetrics : QualityMetrics;
  pv_agentAgreement : option float
}.

Record ConversationTrace := {
  ct_textReasoning : Bag;
  ct_visionReasoning : Bag;
  ct_orchestrationReasoning : option string
}.

Record MemoryEntry := {
  memoryId : string;
  timestamp : JsTimestamp;
  url : string;
  domain : string;
  agentOutputs : AgentOutputs;
  embeddingsTensor : EmbeddingsTensor;
  semanticFeatures : SemanticFeatures;
  temporalFeatures : TemporalFeatures;
  provenance : Provenance;
  conversationTrace : ConversationTrace
}.

(** ** Record builder ([createMemoryEntry] and its helpers) *)

(** [orchestrationResult.agentResults.text?.textAnalysis?.summary] and its
    siblings.  These chains, and the four [extract...] helpers built on
    them, read nothing of [orchestrationResult] but its [agentResults];
    [r] is that object, which [createMemoryEntry] has read at line 93
    before it calls any of them. *)
Definition textAnalysisOf (r : AgentResults) : option TextAnalysis :=
  match ar_text r with
  | Some text => tr_textAnalysis text
  | None => None
  end.

Definition textSummaryOf (r : AgentResults) : option string :=
  match textAnalysisOf r with
  | Some analysis => ta_summary analysis
  | None => None
  end.

Definition textMetadataOf (r : AgentResults) : option Metadata :=
  match textAnalysisOf r with
  | Some analysis => ta_metadata analysis
  | None => None
  end.

Definition visionAnalysisOf (r : AgentResults) : option VisionAnalysis :=
  match ar_vision r with
  | Some vision => vr_visionAnalysis vision
  | None => None
  end.

Definition visionSynthesisOf (r : AgentResults) : option string :=
  match visionAnalysisOf r with
  | Some analysis => va_synthesis analysis
  | None => None
  end.

Definition visualFeaturesOf (r : AgentResults) : option VisualFeatures :=
  match visionAnalysisOf r with
  | Some analysis => va_visualFeatures analysis
  | None => None
  end.

(** [const t = s?.substring(0, 200); t ? `${t}...` : ''] *)
Definition withEllipsis (s : option string) : string :=
  match truthy (option_map (String.substring 0 200) s) with
  | Some t => t +++ "..."
  | None => ""
  end.

(** [s || fallback] *)
Definition orElse (s : option string) (fallback : string) : string :=
  match truthy s with
  | Some t => t
  | None => fallback
  end.

Definition extractContentType (r : AgentResults) : string :=
  orElse (match textMetadataOf r with Some m => md_contentType m | None => None end)
         "general".

Definition extractPageType (r : AgentResults) : string :=
  orElse (match textMetadataOf r with Some m => md_pageType m | None => None end)
         "page".

Definition commonWords : list string :=
  ["the"; "and"; "or"; "but"; "in"; "on"; "at"; "to"; "for"; "of"; "with"; "by"].

Definition isTopicWord (word : string) : bool :=
  (Nat.ltb 3 (String.length word) && negb (JsSet.has word commonWords))%bool.

Definition extractTopicsFromText (text : string) : list string :=
  slice0 5 (filter isTopicWord (split (toLowerCase text))).

Definition extractTopics (r : AgentResults) : list string :=
  let textSummary := orElse (textSummaryOf r) "" in
  let topics := extractTopicsFromText textSummary in
  let visionSynthesis := orElse (visionSynthesisOf r) "" in
  let topics := topics ++ extractTopicsFromText visionSynthesis in
  slice0 10 (JsSet.ofList topics).

(** [if (x) categories.push(x)] *)
Definition pushIf (x : option string) (categories : list string) : list string :=
  match truthy x with
  | Some c => categories ++ [c]
  | None => categories
  end.

Definition extractCategories (r : AgentResults) : list string :=
  let textMetadata := textMetadataOf r in
  let categories := [] in
  let categories :=
    pushIf (match textMetadata with Some m => md_contentType m | None => None end) categories in
  let categories :=
    pushIf (match textMetadata with Some m => md_pageType m | None => None end) categories in
  let visualFeatures := visualFeaturesOf r in
  let categories :=
    pushIf (match visualFeatures with Some f => vf_designStyle f | None => None end) categories in
  let categories :=
    pushIf (match visualFeatures with Some f => vf_userExperience f | None => None end) categories in
  JsSet.ofList categories.

(** The message of the [TypeError] that V8 raises on a plain read of
    [property] from [undefined]. *)
Definition typeErrorReading (property : string) : string :=
  "Cannot read properties of undefined (reading '" +++ property +++ "')".

Definition typeErrorMessage : string :=
  "Cannot read properties of undefined (reading 'confidence')".

(** The result carries the four objects that [createMemoryEntry] reads
    with a plain [.]. *)
Definition complete (r : OrchestrationResult) : Prop :=
  or_agentResults r <> None /\ or_qualityMetrics r <> None /\
  or_orchestratorSynthesis r <> None /\ or_orchestrationMetadata r <> None.

Section Builder.
Context `{Platform}.

(** [createMemoryEntry].  The statements and the object literal are
    evaluated top to bottom; the plain reads that throw on a missing
    object are, in that order, [agentResults.text] (line 93),
    [qualityMetrics.overallScore] (line 137),
    [orchestratorSynthesis.confidence] (line 138) and
    [orchestrationMetadata.processingTime] (line 160).  Nothing is written
    before the literal is complete, so the first missing object decides
    the outcome. *)
Definition createMemoryEntry (memoryId : string) (r : OrchestrationResult)
  : Outcome MemoryEntry :=
  match or_agentResults r with
  | None => Throw (typeErrorReading "text")
  | Some agentResults =>
  match or_qualityMetrics r with
  | None => Throw (typeErrorReading "overallScore")
  | Some qualityMetrics =>
  match or_orchestratorSynthesis r with
  | None => Throw typeErrorMessage
  | Some synthesis =>
  match or_orchestrationMetadata r with
  | None => Throw (typeErrorReading "processingTime")
  | Some metadata =>
      let text := ar_text agentResults in
      let vision := ar_vision agentResults in
      let textSummaryWithEllipsis := withEllipsis (textSummaryOf agentResults) in
      let visionSynthesisWithEllipsis := withEllipsis (visionSynthesisOf agentResults) in
      let orchestratorAnalysisWithEllipsis :=
        withEllipsis (os_unifiedAnalysis synthesis) in
      let date := newDate (or_timestamp r) in
      Ok {|
        memoryId := memoryId;
        timestamp := or_timestamp r;
        url := or_url r;
        domain := extractDomain (or_url r);
        agentOutputs := {|
          out_text := {|
            ao_text := textSummaryWithEllipsis;
            ao_confidence :=
              orZero (match text with Some t => tr_confidence t | None => None end) |};
          out_vision := {|
            ao_text := visionSynthesisWithEllipsis;
            ao_confidence :=
              orZero (match vision with Some v => vr_confidence v | None => None end) |};
          out_orchestrator := {|
            ao_text := orchestratorAnalysisWithEllipsis;
            ao_confidence := orZero (os_confidence synthesis) |}
        |};
        embeddingsTensor := {|
          unified := None;
          et_text := None;
          et_vision := None;
          et_dimension := 0
        |};
        semanticFeatures := {|
          sf_contentType := extractContentType agentResults;
          sf_pageType := extractPageType agentResults;
          sf_topics := extractTopics agentResults;
          sf_categories := extractCategories agentResults;
          sf_quality := qm_overallScore qualityMetrics;
          sf_confidence := os_confidence synthesis
        |};
        temporalFeatures := {|
          tf_hour := getHours date;
          tf_dayOfWeek := getDay date;
          tf_month := getMonth date;
          tf_season := getSeason date
        |};
        provenance := {|
          pv_textAgent := match text with Some t => truthy (tr_agentId t) | None => None end;
          pv_visionAgent := match vision with Some v => truthy (vr_agentId v) | None => None end;
          pv_orchestratorAgent := or_agentId r;
          pv_processingTime := om_processingTime metadata;
          pv_synthesisApproach := om_synthesisApproach metadata;
          pv_qualityMetrics := qualityMetrics;
          pv_agentAgreement := os_agentAgreement synthesis
        |};
        conversationTrace := {|
          ct_textReasoning :=
            match text with
            | Some t => match tr_reasoning t with Some b => b | None => [] end
            | None => []
            end;
          ct_visionReasoning :=
            match vision with
            | Some v => match vr_reasoning v with Some b => b | None => [] end
            | None => []
            end;
          ct_orchestrationReasoning := os_decisionRationale synthesis
        |}
      |}
  end end end end.
End Builder.

(** ** The multi-index store *)

Record Relationship := {
  rel_type : string;
  targetId : string;
  strength : float
}.

Record Cluster := {
  cl_id : string;
  centroid : Embedding;
  members : JsSet.t;
  concept : string;
  lastUpdated : Z
}.

Record TemporalBuckets := {
  hour : JsMap.t JsSet.t;
  day : JsMap.t JsSet.t;
  week : JsMap.t JsSet.t;
  month : JsMap.t JsSet.t
}.

(** The fields of [SemanticTensorMemory] that the operations read or write.
    [embeddingBuckets] is created by the first [indexEmbeddings]. *)
Record Store := {
  maxMemories : Z;
  memoryStore : JsMap.t MemoryEntry;
  embeddingIndex : JsMap.t EmbeddingsTensor;
  conceptClusters : JsMap.t Cluster;
  relationshipGraph : JsMap.t (list Relationship);
  temporalBuckets : TemporalBuckets;
  semanticCategories : JsMap.t JsSet.t;
  domainClusters : JsMap.t JsSet.t;
  embeddingBuckets : option (JsMap.t JsSet.t)
}.

(** [new SemanticTensorMemory(maxMemories)] *)
Definition newStore (maxMemories : Z) : Store := {|
  maxMemories := maxMemories;
  memoryStore := [];
  embeddingIndex := [];
  conceptClusters := [];
  relationshipGraph := [];
  temporalBuckets := {| hour := []; day := []; week := []; month := [] |};
  semanticCategories := [];
  domainClusters := [];
  embeddingBuckets := None
|}.

Definition defaultMaxMemories : Z := 100.

(** Field updates ([this.field = ...] and in-place mutation of a field). *)
Definition withMemoryStore (m : JsMap.t MemoryEntry) (st : Store) : Store :=
  {| maxMemories := maxMemories st; memoryStore := m;
     embeddingIndex := embeddingIndex st; conceptClusters := conceptClusters st;
     relationshipGraph := relationshipGraph st; temporalBuckets := temporalBuckets st;
     semanticCategories := semanticCategories st; domainClusters := domainClusters st;
     embeddingBuckets := embeddingBuckets st |}.

Definition withEmbeddingIndex (m : JsMap.t EmbeddingsTensor) (st : Store) : Store :=
  {| maxMemories := maxMemories st; memoryStore := memoryStore st;
     embeddingIndex := m; conceptClusters := conceptClusters st;
     relationshipGraph := relationshipGraph st; temporalBuckets := temporalBuckets st;
     semanticCategories := semanticCategories st; domainClusters := domainClusters st;
     embeddingBuckets := embeddingBuckets st |}.

Definition withConceptClusters (m : JsMap.t Cluster) (st : Store) : Store :=
  {| maxMemories := maxMemories st; memoryStore := memoryStore st;
     embeddingIndex := embeddingIndex st; conceptClusters := m;
     relationshipGraph := relationshipGraph st; temporalBuckets := temporalBuckets st;
     semanticCategories := semanticCategories st; domainClusters := domainClusters st;
     embeddingBuckets := embeddingBuckets st |}.

Definition withRelationshipGraph (m : JsMap.t (list Relationship)) (st : Store) : Store :=
  {| maxMemories := maxMemories st; memoryStore := memoryStore st;
     embeddingIndex := embeddingIndex st; conceptClusters := conceptClusters st;
     relationshipGraph := m; temporalBuckets := temporalBuckets st;
     semanticCategories := semanticCategories st; domainClusters := domainClusters st;
     embeddingBuckets := embeddingBuckets st |}.

Definition withTemporalBuckets (b : TemporalBuckets) (st : Store) : Store :=
  {| maxMemories := maxMemories st; memoryStore := memoryStore st;
     embeddingIndex := embeddingIndex st; conceptClusters := conceptClusters st;
     relationshipGraph := relationshipGraph st; temporalBuckets := b;
     semanticCategories := semanticCategories st; domainClusters := domainClusters st;
     embeddingBuckets := embeddingBuckets st |}.

Definition withSemanticCategories (m : JsMap.t JsSet.t) (st : Store) : Store :=
  {| maxMemories := maxMemories st; memoryStore := memoryStore st;
     embeddingIndex := embeddingIndex st; conceptClusters := conceptClusters st;
     relationshipGraph := relationshipGraph st; temporalBuckets := temporalBuckets st;
     semanticCategories := m; domainClusters := domainClusters st;
     embeddingBuckets := embeddingBuckets st |}.

Definition withDomainClusters (m : JsMap.t JsSet.t) (st : Store) : Store :=
  {| maxMemories := maxMemories st; memoryStore := memoryStore st;
     embeddingIndex := embeddingIndex st; conceptClusters := conceptClusters st;
     relationshipGraph := relationshipGraph st; temporalBuckets := temporalBuckets st;
     semanticCategories := semanticCategories st; domainClusters := m;
     embeddingBuckets := embeddingBuckets st |}.

Definition withEmbeddingBuckets (m : option (JsMap.t JsSet.t)) (st : Store) : Store :=
  {| maxMemories := maxMemories st; memoryStore := memoryStore st;
     embeddingIndex := embeddingIndex st; conceptClusters := conceptClusters st;
     relationshipGraph := relationshipGraph st; temporalBuckets := temporalBuckets st;
     semanticCategories := semanticCategories st; domainClusters := domainClusters st;
     embeddingBuckets := m |}.

(** [if (!m.has(key)) m.set(key, new Set()); m.get(key).add(id)] *)
Definition addToSetMap (key id : string) (m : JsMap.t JsSet.t) : JsMap.t JsSet.t :=
  let m := if JsMap.has key m then m else JsMap.set key [] m in
  match JsMap.get key m with
  | Some s => JsMap.set key (JsSet.add id s) m
  | None => m
  end.

(** [m.get(key) || new Set()] *)
Definition getSet (key : string) (m : JsMap.t JsSet.t) : JsSet.t :=
  match JsMap.get key m with Some s => s | None => [] end.

(** *** Embedding index *)

(** [Math.floor] of a binary64 number as an integer; [None] for an
    infinity or [NaN]. *)
Definition floorZ (x : float) : option Z :=
  match Prim2SF x with
  | S754_zero _ => Some 0%Z
  | S754_finite negative m e =>
      let signed := if negative then Z.neg m else Z.pos m in
      if (0 <=? e)%Z then Some (signed * 2 ^ e)%Z
      else Some (signed / 2 ^ (- e))%Z
  | _ => None
  end.

Definition calculateEmbeddingBucket (embedding : option Embedding) : string :=
  match embedding with
  | None => "default"
  | Some e =>
      let sum := fold_left (fun acc val => acc + val)%float e 0%float in
      let bucket := option_map (fun f => Z.rem f 100) (floorZ (sum * 100)%float) in
      showNum bucket
  end.

Definition indexEmbeddings (memoryId : string) (memoryEntry : MemoryEntry) (st : Store)
  : Store :=
  let embeddings := embeddingsTensor memoryEntry in
  let st :=
    match unified embeddings with
    | Some _ => withEmbeddingIndex (JsMap.set memoryId embeddings (embeddingIndex st)) st
    | None => st
    end in
  let bucketKey := calculateEmbeddingBucket (unified embeddings) in
  let buckets := match embeddingBuckets st with Some b => b | None => [] end in
  withEmbeddingBuckets (Some (addToSetMap bucketKey memoryId buckets)) st.

(** *** Temporal, category and domain indices *)

Inductive Granularity : Type := Hour | Day | Week | Month.

Definition bucketOf (g : Granularity) (b : TemporalBuckets) : JsMap.t JsSet.t :=
  match g with
  | Hour => hour b
  | Day => day b
  | Week => week b
  | Month => month b
  end.

Definition addToTemporalBucket (bucketType : Granularity) (key memoryId : string)
    (st : Store) : Store :=
  let b := temporalBuckets st in
  let b' :=
    match bucketType with
    | Hour => {| hour := addToSetMap key memoryId (hour b); day := day b;
                 week := week b; month := month b |}
    | Day => {| hour := hour b; day := addToSetMap key memoryId (day b);
                week := week b; month := month b |}
    | Week => {| hour := hour b; day := day b;
                 week := addToSetMap key memoryId (week b); month := month b |}
    | Month => {| hour := hour b; day := day b; week := week b;
                  month := addToSetMap key memoryId (month b) |}
    end in
  withTemporalBuckets b' st.

Section Indices.
Context `{Platform}.

(** The key of a timestamp at each granularity. *)
Definition temporalKey (g : Granularity) (ts : JsTimestamp) : string :=
  let date := newDate ts in
  match g with
  | Hour => hourKey date
  | Day => dayKey date
  | Week => weekKey date
  | Month => monthKey date
  end.

Definition updateTemporalIndices (memoryId : string) (memoryEntry : MemoryEntry)
    (st : Store) : Store :=
  let ts := timestamp memoryEntry in
  let st := addToTemporalBucket Hour (temporalKey Hour ts) memoryId st in
  let st := addToTemporalBucket Day (temporalKey Day ts) memoryId st in
  let st := addToTemporalBucket Week (temporalKey Week ts) memoryId st in
  addToTemporalBucket Month (temporalKey Month ts) memoryId st.
End Indices.

Definition updateSemanticCategories (memoryId : string) (memoryEntry : MemoryEntry)
    (st : Store) : Store :=
  let categories := sf_categories (semanticFeatures memoryEntry) in
  withSemanticCategories
    (fold_left (fun m category => addToSetMap category memoryId m) categories
       (semanticCategories st))
    st.

Definition updateDomainClusters (memoryId : string) (memoryEntry : MemoryEntry)
    (st : Store) : Store :=
  withDomainClusters (addToSetMap (domain memoryEntry) memoryId (domainClusters st)) st.

(** *** Relationship discovery *)

Definition similarity (a b : option Embedding) : float :=
  calculateCosineSimilarity a b.

Definition findDomainRelatedMemories (domain excludeId : string) (st : Store)
  : list string :=
  let domainMemories := getSet domain (domainClusters st) in
  slice0 5 (filter (fun id => negb (String.eqb id excludeId)) domainMemories).

(** The comparator [(a, b) => b.strength - a.strength]: [y] goes after [x]
    when [x.strength - y.strength] is positive. *)
Definition weakerThan (y x : Relationship) : bool :=
  (0 <? strength x - strength y)%float.

Definition findSemanticallySimilarMemories (memoryEntry : MemoryEntry)
    (excludeId : string) (st : Store) : list Relationship :=
  match unified (embeddingsTensor memoryEntry) with
  | None => []
  | Some targetEmbedding =>
      let similarities :=
        flat_map
          (fun kv : string * EmbeddingsTensor =>
             let (memoryId, embeddings) := kv in
             if String.eqb memoryId excludeId then []
             else match unified embeddings with
                  | Some other =>
                      let s := similarity (Some targetEmbedding) (Some other) in
                      if (0.7 <? s)%float
                      then [{| rel_type := "semantic-similar"; targetId := memoryId;
                               strength := s |}]
                      else []
                  | None => []
                  end)
          (embeddingIndex st) in
      slice0 5 (stableSort weakerThan similarities)
  end.

Definition findVisuallySimilarMemories (memoryEntry : MemoryEntry)
    (excludeId : string) (st : Store) : list Relationship :=
  match et_vision (embeddingsTensor memoryEntry) with
  | None => []
  | Some targetVisionEmbedding =>
      let similarities :=
        flat_map
          (fun kv : string * EmbeddingsTensor =>
             let (memoryId, embeddings) := kv in
             if String.eqb memoryId excludeId then []
             else match et_vision embeddings with
                  | Some other =>
                      let s := similarity (Some targetVisionEmbedding) (Some other) in
                      if (0.8 <? s)%float
                      then [{| rel_type := "visual-similar"; targetId := memoryId;
                               strength := s |}]
                      else []
                  | None => []
                  end)
          (embeddingIndex st) in
      slice0 3 (stableSort weakerThan similarities)
  end.

(** The [forEach] that updates the reverse relationships, one edge. *)
Definition pushReverse (memoryId : string)
    (graph : JsMap.t (list Relationship)) (rel : Relationship)
  : JsMap.t (list Relationship) :=
  let graph :=
    if JsMap.has (targetId rel) graph then graph
    else JsMap.set (targetId rel) [] graph in
  match JsMap.get (targetId rel) graph with
  | Some edges =>
      JsMap.set (targetId rel)
        (edges ++ [{| rel_type := rel_type rel +++ "-reverse";
                      targetId := memoryId;
                      strength := strength rel |}])
        graph
  | None => graph
  end.

Section Discovery.
Context `{Platform}.

Definition findTemporallyRelatedMemories (ts : JsTimestamp) (excludeId : string)
    (st : Store) : list string :=
  let sameDay := getSet (dayKey (newDate ts)) (day (temporalBuckets st)) in
  slice0 3 (filter (fun id => negb (String.eqb id excludeId)) sameDay).

(** The edges that [discoverRelationships] collects for the new record. *)
Definition discoveredRelationships (memoryId : string) (memoryEntry : MemoryEntry)
    (st : Store) : list Relationship :=
  let relationships :=
    map (fun id => {| rel_type := "domain-related"; targetId := id; strength := 0.7 |})
        (findDomainRelatedMemories (domain memoryEntry) memoryId st) in
  let relationships :=
    relationships ++ findSemanticallySimilarMemories memoryEntry memoryId st in
  let relationships :=
    relationships ++
    map (fun id => {| rel_type := "temporal-related"; targetId := id; strength := 0.5 |})
        (findTemporallyRelatedMemories (timestamp memoryEntry) memoryId st) in
  match et_vision (embeddingsTensor memoryEntry) with
  | Some _ => relationships ++ findVisuallySimilarMemories memoryEntry memoryId st
  | None => relationships
  end.

Definition discoverRelationships (memoryId : string) (memoryEntry : MemoryEntry)
    (st : Store) : Store :=
  let relationships := discoveredRelationships memoryId memoryEntry st in
  let graph := JsMap.set memoryId relationships (relationshipGraph st) in
  withRelationshipGraph (fold_left (pushReverse memoryId) relationships graph) st.
End Discovery.

(** *** Concept clusters *)

Definition clusterThreshold : float := 0.85%float.

(** [findOrCreateConceptCluster]: the loop returns at the first cluster, in
    insertion order, whose centroid is similar enough; [fresh] stands for
    the identifier built from the clock and the random suffix. *)
Fixpoint findOrCreateConceptCluster (embedding : Embedding)
    (clusters : JsMap.t Cluster) (fresh : string) : string :=
  match clusters with
  | [] => fresh
  | (clusterId, cluster) :: rest =>
      if (clusterThreshold <? similarity (Some embedding) (Some (centroid cluster)))%float
      then clusterId
      else findOrCreateConceptCluster embedding rest fresh
  end.

Definition inferConceptFromFeatures (f : SemanticFeatures) : string :=
  sf_contentType f +++ ": " +++ String.concat ", " (slice0 3 (sf_topics f)).

(** [centroid[index] += value]; past the end of the array the slot is
    [undefined] and the sum is [NaN]. *)
Fixpoint addAt (c : list float) (index : nat) (value : float) : list float :=
  match c, index with
  | [], _ => [nan]
  | x :: c', O => (x + value)%float :: c'
  | x :: c', S i => x :: addAt c' i value
  end.

(** [embedding.forEach((value, index) => { centroid[index] += value })] *)
Fixpoint accumulate (c : list float) (index : nat) (embedding : Embedding) : list float :=
  match embedding with
  | [] => c
  | value :: rest => accumulate (addAt c index value) (S index) rest
  end.

Definition floatOfNat (n : nat) : float :=
  PrimFloat.of_uint63 (Uint63.of_Z (Z.of_nat n)).

(** The centroid that [updateClusterCentroid] computes from the embeddings
    it collected ([embeddings] is not empty there). *)
Definition centroidOf (embeddings : list Embedding) : Embedding :=
  let dimension := List.length (hd [] embeddings) in
  let sums := fold_left (fun c e => accumulate c 0 e) embeddings (repeat 0%float dimension) in
  map (fun value => value / floatOfNat (List.length embeddings))%float sums.

(** The embeddings of the members that the embedding index knows. *)
Definition memberEmbeddings (cluster : Cluster) (st : Store) : list Embedding :=
  flat_map
    (fun memoryId =>
       match JsMap.get memoryId (embeddingIndex st) with
       | Some e => match unified e with Some u => [u] | None => [] end
       | None => []
       end)
    (members cluster).

Definition updateClusterCentroid (clusterId : string) (now : Z) (st : Store) : Store :=
  match JsMap.get clusterId (conceptClusters st) with
  | None => st
  | Some cluster =>
      match members cluster with
      | [] => st
      | _ :: _ =>
          match memberEmbeddings cluster st with
          | [] => st
          | embeddings =>
              withConceptClusters
                (JsMap.set clusterId
                   {| cl_id := cl_id cluster; centroid := centroidOf embeddings;
                      members := members cluster; concept := concept cluster;
                      lastUpdated := now |}
                   (conceptClusters st))
                st
          end
      end
  end.

Definition updateConceptClusters (memoryId fresh : string) (now : Z)
    (memoryEntry : MemoryEntry) (st : Store) : Store :=
  match unified (embeddingsTensor memoryEntry) with
  | None => st
  | Some embedding =>
      let clusterId := findOrCreateConceptCluster embedding (conceptClusters st) fresh in
      let clusters :=
        if JsMap.has clusterId (conceptClusters st) then conceptClusters st
        else JsMap.set clusterId
               {| cl_id := clusterId; centroid := embedding; members := [];
                  concept := inferConceptFromFeatures (semanticFeatures memoryEntry);
                  lastUpdated := now |}
               (conceptClusters st) in
      match JsMap.get clusterId clusters with
      | None => st
      | Some cluster =>
          let clusters :=
            JsMap.set clusterId
              {| cl_id := cl_id cluster; centroid := centroid cluster;
                 members := JsSet.add memoryId (members cluster);
                 concept := concept cluster; lastUpdated := lastUpdated cluster |}
              clusters in
          updateClusterCentroid clusterId now (withConceptClusters clusters st)
      end
  end.

Definition getMemoryClusters (memoryId : string) (st : Store) : list (string * Cluster) :=
  filter (fun kv => JsSet.has memoryId (members (snd kv))) (conceptClusters st).

(** *** Eviction *)

Definition dropMember (memoryId : string) (cluster : Cluster) : Cluster :=
  {| cl_id := cl_id cluster; centroid := centroid cluster;
     members := JsSet.delete memoryId (members cluster);
     concept := concept cluster; lastUpdated := lastUpdated cluster |}.

Definition removeMemory (memoryId : string) (st : Store) : Store :=
  let b := temporalBuckets st in
  let forget := JsMap.mapValues (JsSet.delete memoryId) in
  {| maxMemories := maxMemories st;
     memoryStore := JsMap.delete memoryId (memoryStore st);
     embeddingIndex := JsMap.delete memoryId (embeddingIndex st);
     conceptClusters := JsMap.mapValues (dropMember memoryId) (conceptClusters st);
     relationshipGraph :=
       JsMap.mapValues
         (spliceFirst (fun rel => String.eqb (targetId rel) memoryId))
         (JsMap.delete memoryId (relationshipGraph st));
     temporalBuckets :=
       {| hour := forget (hour b); day := forget (day b);
          week := forget (week b); month := forget (month b) |};
     semanticCategories := forget (semanticCategories st);
     domainClusters := forget (domainClusters st);
     embeddingBuckets := embeddingBuckets st |}.

(** The comparator [(a, b) => a[1].timestamp - b[1].timestamp]: the
    difference of two date-time strings, or of a number and a date-time
    string, is [NaN], which [sort] reads as "equal".  It orders a table
    whose timestamps are all numbers or all date-time strings, and no
    other. *)
Definition timestampAfter (y x : string * MemoryEntry) : bool :=
  match timestamp (snd y), timestamp (snd x) with
  | TsNumber a, TsNumber b => (0 <? a - b)%Z
  | _, _ => false
  end.

(** The records that [maintainMemoryLimits] hands to [removeMemory]. *)
Definition toRemove (st : Store) : list (string * MemoryEntry) :=
  let size := Z.of_nat (List.length (memoryStore st)) in
  if (size <=? maxMemories st)%Z then []
  else slice0 (size - maxMemories st) (stableSort timestampAfter (memoryStore st)).

Definition maintainMemoryLimits (st : Store) : Store :=
  fold_left (fun st kv => removeMemory (fst kv) st) (toRemove st) st.

(** *** [storeMemory] *)

Inductive StoreResult : Type :=
| Stored (memoryId : string) (relationships clusters : nat)
| NotStored (error : string).

Section StoreMemory.
Context `{Platform}.

(** The body of the [try] block after the record is built: the write
    path, before the capacity check. *)
Definition fanOut (memoryId fresh : string) (now : Z) (memoryEntry : MemoryEntry)
    (st : Store) : Store :=
  let st := withMemoryStore (JsMap.set memoryId memoryEntry (memoryStore st)) st in
  let st := indexEmbeddings memoryId memoryEntry st in
  let st := updateTemporalIndices memoryId memoryEntry st in
  let st := updateSemanticCategories memoryId memoryEntry st in
  let st := updateDomainClusters memoryId memoryEntry st in
  let st := discoverRelationships memoryId memoryEntry st in
  updateConceptClusters memoryId fresh now memoryEntry st.

(** The write path and the capacity check. *)
Definition insertEntry (memoryId fresh : string) (now : Z) (memoryEntry : MemoryEntry)
    (st : Store) : Store :=
  maintainMemoryLimits (fanOut memoryId fresh now memoryEntry st).

Definition storeMemory (memoryId fresh : string) (now : Z)
    (orchestrationResult : OrchestrationResult) (st : Store) : Store * StoreResult :=
  match createMemoryEntry memoryId orchestrationResult with
  | Throw message => (st, NotStored message)
  | Ok memoryEntry =>
      let st := insertEntry memoryId fresh now memoryEntry st in
      (st,
       Stored memoryId
         (match JsMap.get memoryId (relationshipGraph st) with
          | Some edges => List.length edges
          | None => 0
          end)
         (List.length (getMemoryClusters memoryId st)))
  end.
End StoreMemory.

(** ** Query engine ([searchMemories]) *)

Record TemporalFilter := {
  tf_start : JsTimestamp;
  tf_end : JsTimestamp
}.

Record SearchOptions := {
  limit : Z;
  threshold : float;
  includeRelationships : bool;
  temporalFilter : option TemporalFilter;
  domainFilter : option string;
  categoryFilter : option string
}.

Definition defaultOptions : SearchOptions := {|
  limit := 10;
  threshold := 0.7%float;
  includeRelationships := true;
  temporalFilter := None;
  domainFilter := None;
  categoryFilter := None
|}.

Record RelatedMemory := {
  rm_type : string;
  rm_strength : float;
  rm_memory : MemoryEntry
}.

Record SearchHit := {
  hit_memoryId : string;
  hit_similarity : float;
  hit_memory : MemoryEntry;
  hit_url : string;
  hit_timestamp : JsTimestamp;
  hit_summary : string;
  hit_relationships : option (list RelatedMemory)
}.

Record SearchMetrics := {
  queryEmbeddingGenerated : bool;
  memoryStoreSize : nat;
  averageSimilarity : float
}.

(** The object that [searchMemories] returns: the [try] branch sets
    [searchMetrics] and no [error]; the [catch] branch sets [error] and no
    [searchMetrics]. *)
Record SearchResult := {
  sr_query : string;
  results : list SearchHit;
  totalFound : nat;
  searchMetrics : option SearchMetrics;
  error : option string
}.

(** What the request to the embedding provider does. *)
Inductive FetchOutcome : Type :=
| FetchThrows
| ResponseNotOk
| ResponseOk (embedding : option Embedding).

(** [generateQueryEmbedding]: every failure ends in [return null]. *)
Definition generateQueryEmbedding (provider : FetchOutcome) : option Embedding :=
  match provider with
  | ResponseOk embedding => embedding
  | ResponseNotOk => None
  | FetchThrows => None
  end.

(** The stored [agentOutputs.text] and [agentOutputs.vision] have no
    [textAnalysis] or [visionAnalysis] property, so the first two summaries
    are always empty. *)
Definition generateMemorySummary (memory : MemoryEntry) : string :=
  let textSummary := "" in
  let visionSummary := "" in
  let unifiedSummary :=
    String.substring 0 200 (ao_text (out_orchestrator (agentOutputs memory))) in
  match truthy (Some unifiedSummary) with
  | Some u => u +++ "..."
  | None =>
      match truthy (Some textSummary), truthy (Some visionSummary) with
      | Some t, Some v => t +++ "... | " +++ v +++ "..."
      | _, _ => orElse (Some textSummary) (orElse (Some visionSummary) "No summary available")
      end
  end.

Definition missingMemoryMessage : string :=
  "Cannot read properties of undefined (reading 'url')".

(** The loop of [findSimilarMemories] over the embedding index; reading
    [memory.url] throws when the canonical table has no such record. *)
Fixpoint scanIndex (queryEmbedding : Embedding) (threshold : float)
    (index : JsMap.t EmbeddingsTensor) (table : JsMap.t MemoryEntry)
  : Outcome (list SearchHit) :=
  match index with
  | [] => Ok []
  | (memoryId, embeddings) :: rest =>
      let continue := scanIndex queryEmbedding threshold rest table in
      match unified embeddings with
      | None => continue
      | Some u =>
          let s := similarity (Some queryEmbedding) (Some u) in
          if (threshold <=? s)%float
          then match JsMap.get memoryId table with
               | None => Throw missingMemoryMessage
               | Some memory =>
                   match continue with
                   | Throw message => Throw message
                   | Ok hits =>
                       Ok ({| hit_memoryId := memoryId; hit_similarity := s;
                              hit_memory := memory; hit_url := url memory;
                              hit_timestamp := timestamp memory;
                              hit_summary := generateMemorySummary memory;
                              hit_relationships := None |} :: hits)
                   end
               end
          else continue
      end
  end.

Definition findSimilarMemories (queryEmbedding : option Embedding) (threshold : float)
    (st : Store) : Outcome (list SearchHit) :=
  match queryEmbedding with
  | None => Ok []
  | Some q => scanIndex q threshold (embeddingIndex st) (memoryStore st)
  end.

(** [a >= b] on timestamps: numbers compare as numbers, strings as
    strings, and a mixed pair compares through [NaN]. *)
Definition tsGeb (a b : JsTimestamp) : bool :=
  match a, b with
  | TsNumber x, TsNumber y => (y <=? x)%Z
  | TsIso s, TsIso t => String.leb t s
  | _, _ => false
  end.

Definition applyFilters (hits : list SearchHit) (o : SearchOptions) : list SearchHit :=
  let filtered := hits in
  let filtered :=
    match truthy (domainFilter o) with
    | Some d => filter (fun r => String.eqb (domain (hit_memory r)) d) filtered
    | None => filtered
    end in
  let filtered :=
    match truthy (categoryFilter o) with
    | Some c =>
        filter (fun r => JsSet.has c (sf_categories (semanticFeatures (hit_memory r))))
               filtered
    | None => filtered
    end in
  match temporalFilter o with
  | Some f =>
      filter (fun r => (tsGeb (timestamp (hit_memory r)) (tf_start f)
                        && tsGeb (tf_end f) (timestamp (hit_memory r)))%bool)
             filtered
  | None => filtered
  end.

(** The comparator [(a, b) => b.similarity - a.similarity]. *)
Definition lessSimilar (y x : SearchHit) : bool :=
  (0 <? hit_similarity x - hit_similarity y)%float.

Definition enhanceWithRelationships (hits : list SearchHit) (st : Store) : list SearchHit :=
  map (fun result =>
         let relationships :=
           match JsMap.get (hit_memoryId result) (relationshipGraph st) with
           | Some edges => edges
           | None => []
           end in
         let relatedMemories :=
           flat_map (fun rel =>
                       match JsMap.get (targetId rel) (memoryStore st) with
                       | Some memory =>
                           [{| rm_type := rel_type rel; rm_strength := strength rel;
                               rm_memory := memory |}]
                       | None => []
                       end)
                    relationships in
         {| hit_memoryId := hit_memoryId result; hit_similarity := hit_similarity result;
            hit_memory := hit_memory result; hit_url := hit_url result;
            hit_timestamp := hit_timestamp result; hit_summary := hit_summary result;
            hit_relationships := Some relatedMemories |})
      hits.

(** [filteredResults.reduce((sum, r) => sum + r.similarity, 0) /
    filteredResults.length] *)
Definition meanSimilarity (hits : list SearchHit) : float :=
  (fold_left (fun sum r => sum + hit_similarity r) hits 0 / floatOfNat (List.length hits))%float.

Definition searchMemories (query : string) (o : SearchOptions) (provider : FetchOutcome)
    (st : Store) : SearchResult :=
  let queryEmbedding := generateQueryEmbedding provider in
  match findSimilarMemories queryEmbedding (threshold o) st with
  | Throw message =>
      {| sr_query := query; results := []; totalFound := 0;
         searchMetrics := None; error := Some message |}
  | Ok similarities =>
      let filteredResults := applyFilters similarities o in
      let filteredResults := slice0 (limit o) (stableSort lessSimilar filteredResults) in
      let filteredResults :=
        if includeRelationships o then enhanceWithRelationships filteredResults st
        else filteredResults in
      {| sr_query := query;
         results := filteredResults;
         totalFound := List.length filteredResults;
         searchMetrics :=
           Some {| queryEmbeddingGenerated :=
                     match queryEmbedding with Some _ => true | None => false end;
                   memoryStoreSize := List.length (memoryStore st);
                   averageSimilarity := meanSimilarity filteredResults |};
         error := None |}
  end.

(** ** The statements of the specification that are compared with the code *)

(** Topic derivation as the specification words it: the ten longest
    non-stopword tokens of the combined analysis text, lowercased,
    de-duplicated, in the order of their first occurrence. *)
Definition longerFirst (y x : string) : bool :=
  Nat.ltb (String.length y) (String.length x).

Definition topicsBySpec (r : AgentResults) : list string :=
  let combined := orElse (textSummaryOf r) "" +++ " " +++ orElse (visionSynthesisOf r) "" in
  let tokens :=
    JsSet.ofList
      (filter (fun w => (negb (String.eqb w "") && negb (JsSet.has w commonWords))%bool)
              (split (toLowerCase combined))) in
  let longest := firstn 10 (stableSort longerFirst tokens) in
  filter (fun w => JsSet.has w longest) tokens.

(** Cluster choice as the specification words it: the cluster whose
    centroid has the greatest similarity to the embedding (the earliest
    one among equals), when that similarity exceeds the threshold. *)
Fixpoint bestCluster (embedding : Embedding) (clusters : JsMap.t Cluster)
  : option (string * float) :=
  match clusters with
  | [] => None
  | (clusterId, cluster) :: rest =>
      let s := similarity (Some embedding) (Some (centroid cluster)) in
      match bestCluster embedding rest with
      | Some (otherId, t) => if (s <? t)%float then Some (otherId, t) else Some (clusterId, s)
      | None => Some (clusterId, s)
      end
  end.

Definition clusterBySpec (embedding : Embedding) (clusters : JsMap.t Cluster)
    (fresh : string) : string :=
  match bestCluster embedding clusters with
  | Some (clusterId, s) => if (clusterThreshold <? s)%float then clusterId else fresh
  | None => fresh
  end.

(** The arithmetic mean of vectors of one length, component by component. *)
Fixpoint addVectors (a b : Embedding) : Embedding :=
  match a, b with
  | x :: a', y :: b' => (x + y)%float :: addVectors a' b'
  | _, _ => []
  end.

Definition arithmeticMean (embeddings : list Embedding) : Embedding :=
  let dimension := List.length (hd [] embeddings) in
  map (fun value => value / floatOfNat (List.length embeddings))%float
      (fold_left addVectors embeddings (repeat 0%float dimension)).

(** ** A platform to run the code on

    Universal time, the date-time strings that [toISOString] prints
    ([YYYY-MM-DDTHH:mm:ss.sssZ]), and absolute URLs of the shape
    [scheme://host...]. *)

Module Utc.
Definition floorDays (t : Z) : Z := (t / msPerDay)%Z.

(** Year, month (1..12) and day of the month of a day count since
    1970-01-01, in the proleptic Gregorian calendar. *)
Definition civilFromDays (days : Z) : Z * Z * Z :=
  let z := (days + 719468)%Z in
  let era := (z / 146097)%Z in
  let doe := (z - era * 146097)%Z in
  let yoe := ((doe - doe / 1460 + doe / 36524 - doe / 146096) / 365)%Z in
  let y := (yoe + era * 400)%Z in
  let doy := (doe - (365 * yoe + yoe / 4 - yoe / 100))%Z in
  let mp := ((5 * doy + 2) / 153)%Z in
  let d := (doy - (153 * mp + 2) / 5 + 1)%Z in
  let m := if (mp <? 10)%Z then (mp + 3)%Z else (mp - 9)%Z in
  (if (m <=? 2)%Z then y + 1 else y, m, d)%Z.

Definition daysFromCivil (y m d : Z) : Z :=
  let y := if (m <=? 2)%Z then (y - 1)%Z else y in
  let era := (y / 400)%Z in
  let yoe := (y - era * 400)%Z in
  let mp := if (2 <? m)%Z then (m - 3)%Z else (m + 9)%Z in
  let doy := ((153 * mp + 2) / 5 + d - 1)%Z in
  let doe := (yoe * 365 + yoe / 4 - yoe / 100 + doy)%Z in
  (era * 146097 + doe - 719468)%Z.

Definition fullYear (t : Z) : Z := fst (fst (civilFromDays (floorDays t))).
Definition monthIndex (t : Z) : Z := (snd (fst (civilFromDays (floorDays t))) - 1)%Z.
Definition dayOfMonth (t : Z) : Z := snd (civilFromDays (floorDays t)).
Definition hours (t : Z) : Z := ((t mod msPerDay) / 3600000)%Z.
Definition weekDay (t : Z) : Z := ((floorDays t + 4) mod 7)%Z.
Definition yearStart (y : Z) : Z := (daysFromCivil y 1 1 * msPerDay)%Z.

Definition digit (c : ascii) : option Z :=
  let n := nat_of_ascii c in
  if (Nat.leb 48 n && Nat.leb n 57)%bool then Some (Z.of_nat (n - 48)) else None.

Fixpoint digits (s : string) (acc : Z) : option Z :=
  match s with
  | EmptyString => Some acc
  | String c s' =>
      match digit c with
      | Some d => digits s' (10 * acc + d)%Z
      | None => None
      end
  end.

Definition field (from len : nat) (s : string) : option Z :=
  digits (String.substring from len s) 0%Z.

Definition separatorsOk (s : string) : bool :=
  (Nat.eqb (String.length s) 24
   && String.eqb (String.substring 4 1 s) "-"
   && String.eqb (String.substring 7 1 s) "-"
   && String.eqb (String.substring 10 1 s) "T"
   && String.eqb (String.substring 13 1 s) ":"
   && String.eqb (String.substring 16 1 s) ":"
   && String.eqb (String.substring 19 1 s) "."
   && String.eqb (String.substring 23 1 s) "Z")%bool.

(** The ranges that V8 accepts in a date-time string: a day of the month
    up to 31 whatever the month (the excess runs into the next month), and
    the hour 24 only as midnight. *)
Definition fieldsOk (mo d h mi sec ms : Z) : bool :=
  ((1 <=? mo) && (mo <=? 12) && (1 <=? d) && (d <=? 31)
   && (mi <=? 59) && (sec <=? 59)
   && ((h <=? 23) || ((h =? 24) && (mi =? 0) && (sec =? 0) && (ms =? 0))))%Z%bool.

(** [Date.parse] on the strings that [toISOString] produces,
    [YYYY-MM-DDTHH:mm:ss.sssZ]; any other string is taken for an invalid
    date. *)
Definition parse (s : string) : option Z :=
  if separatorsOk s then
    match field 0 4 s, field 5 2 s, field 8 2 s,
          field 11 2 s, field 14 2 s, field 17 2 s, field 20 3 s with
    | Some y, Some mo, Some d, Some h, Some mi, Some sec, Some ms =>
        if fieldsOk mo d h mi sec ms
        then Some (daysFromCivil y mo d * msPerDay
                   + h * 3600000 + mi * 60000 + sec * 1000 + ms)%Z
        else None
    | _, _, _, _, _, _, _ => None
    end
  else None.

Definition endsHost (c : ascii) : bool :=
  let n := nat_of_ascii c in
  (Nat.eqb n 47 || Nat.eqb n 63 || Nat.eqb n 35 || Nat.eqb n 58)%bool.

Fixpoint hostPart (s : string) : string :=
  match s with
  | EmptyString => EmptyString
  | String c s' => if endsHost c then EmptyString else String c (hostPart s')
  end.

(** The schemes whose URLs need a host. *)
Definition needsHost (scheme : string) : bool :=
  JsSet.has scheme ["http"; "https"; "ws"; "wss"; "ftp"].

(** [new URL(url).hostname] on URLs of the form [scheme://host...], the
    host written in letters, digits, dots and hyphens and ended by [/],
    [?], [#], [:] or the end of the string: the constructor throws on an
    empty host under a scheme that needs one, and gives the empty host
    name otherwise; a string without [://] is taken for an invalid URL.
    User names, escapes, numeric hosts and runs of slashes are not
    covered. *)
Definition hostname (url : string) : option string :=
  match String.index 0 "://" url with
  | Some i =>
      let scheme := toLowerCase (String.substring 0 i url) in
      let host :=
        toLowerCase (hostPart (String.substring (i + 3) (String.length url) url)) in
      match host with
      | EmptyString => if needsHost scheme then None else Some EmptyString
      | _ => Some host
      end
  | None => None
  end.
End Utc.

#[export] Instance utcPlatform : Platform := {
  dateParse := Utc.parse;
  localFullYear := Utc.fullYear;
  localMonth := Utc.monthIndex;
  localDate := Utc.dayOfMonth;
  localHours := Utc.hours;
  localDay := Utc.weekDay;
  localYearStart := Utc.yearStart;
  urlHostname := Utc.hostname
}.

(** ** Sample inputs *)

(** A raw result with the text and vision parts given as arguments; the
    four objects read with a plain [.] are present. *)
Definition sampleResult (ts : JsTimestamp) (url : string)
    (text : option TextAgentResult) (vision : option VisionAgentResult)
  : OrchestrationResult := {|
  or_timestamp := ts;
  or_url := url;
  or_agentResults := Some {| ar_text := text; ar_vision := vision |};
  or_orchestratorSynthesis :=
    Some {| os_unifiedAnalysis := None; os_confidence := Some 0.5%float;
            os_agentAgreement := None; os_decisionRationale := None |};
  or_qualityMetrics := Some {| qm_overallScore := Some 0.5%float |};
  or_orchestrationMetadata :=
    Some {| om_processingTime := None; om_synthesisApproach := Some "vision-only" |};
  or_agentId := None
|}.

(** The result that [createErrorOrchestration] of orchestrator-agent.js
    (lines 692-716) builds when an orchestration has failed: no agent
    result, a synthesis that reports the error, and no
    [orchestrationMetadata]. *)
Definition errorOrchestration (now : Z) (url message : string) : OrchestrationResult := {|
  or_timestamp := TsNumber now;
  or_url := url;
  or_agentResults := Some {| ar_text := None; ar_vision := None |};
  or_orchestratorSynthesis :=
    Some {| os_unifiedAnalysis := Some ("Orchestration failed: " +++ message);
            os_confidence := Some 0%float;
            os_agentAgreement := Some 0%float;
            os_decisionRationale := Some ("Error occurred: " +++ message) |};
  or_qualityMetrics := Some {| qm_overallScore := Some 0%float |};
  or_orchestrationMetadata := None;
  or_agentId := Some "orchestrator"
|}.

Definition textWithSummary (summary : string) : TextAgentResult := {|
  tr_textAnalysis := Some {| ta_summary := Some summary; ta_metadata := None |};
  tr_confidence := None;
  tr_agentId := None;
  tr_reasoning := None
|}.

Definition topicsSample : AgentResults := {|
  ar_text := Some (textWithSummary "Alpha beta gamma delta epsilon extraordinarily");
  ar_vision := None
|}.

(** ** Consistency of the indices with the canonical table *)

(** The record [x] is in the canonical table. *)
Definition stored (st : Store) (x : string) : Prop :=
  In x (JsMap.keys (memoryStore st)).

(** Every identifier held by a set of the map satisfies [P]. *)
Definition setsWithin (P : string -> Prop) (m : JsMap.t JsSet.t) : Prop :=
  forall key s, In (key, s) m -> forall x, In x s -> P x.

(** No index other than the relationship edges and the embedding buckets
    refers to a record that the canonical table does not hold. *)
Record Consistent (st : Store) : Prop := {
  table_keys_unique : NoDup (JsMap.keys (memoryStore st));
  cluster_keys_unique : NoDup (JsMap.keys (conceptClusters st));
  embeddings_stored :
    forall x, In x (JsMap.keys (embeddingIndex st)) -> stored st x;
  embeddings_present :
    forall x t, In (x, t) (embeddingIndex st) -> unified t <> None;
  buckets_stored :
    forall g, setsWithin (stored st) (bucketOf g (temporalBuckets st));
  categories_stored : setsWithin (stored st) (semanticCategories st);
  domains_stored : setsWithin (stored st) (domainClusters st);
  members_indexed :
    forall cid c, In (cid, c) (conceptClusters st) ->
    forall x, In x (members c) -> In x (JsMap.keys (embeddingIndex st));
  graph_keys_stored :
    forall x, In x (JsMap.keys (relationshipGraph st)) -> stored st x
}.

(** The stores that a sequence of inserts and removals builds. *)
Inductive Reachable `{Platform} : Store -> Prop :=
| reach_new (maxMemories : Z) : Reachable (newStore maxMemories)
| reach_insert (st : Store) (memoryId fresh : string) (now : Z) (e : MemoryEntry) :
    Reachable st -> Reachable (insertEntry memoryId fresh now e st)
| reach_remove (st : Store) (memoryId : string) :
    Reachable st -> Reachable (removeMemory memoryId st).

(** The record [memoryId] sits in the bucket of its own timestamp at
    granularity [g] and in no bucket with another key. *)
Definition inOwnBucketOnly `{Platform} (st : Store) (memoryId : string)
    (ts : JsTimestamp) (g : Granularity) : Prop :=
  (exists s, JsMap.get (temporalKey g ts) (bucketOf g (temporalBuckets st)) = Some s
             /\ In memoryId s) /\
  (forall key s, In (key, s) (bucketOf g (temporalBuckets st)) ->
                 In memoryId s -> key = temporalKey g ts).

(** The fan-out of a record over the indices. *)
Definition FannedOut `{Platform} (st : Store) (memoryId : string) (e : MemoryEntry)
  : Prop :=
  (unified (embeddingsTensor e) <> None -> In memoryId (JsMap.keys (embeddingIndex st))) /\
  (forall g, inOwnBucketOnly st memoryId (timestamp e) g) /\
  (exists s, JsMap.get (domain e) (domainClusters st) = Some s /\ In memoryId s) /\
  (forall category, In category (sf_categories (semanticFeatures e)) ->
     exists s, JsMap.get category (semanticCategories st) = Some s /\ In memoryId s).

(** The state in which [discoverRelationships] runs: the record is in the
    canonical table and in the embedding, temporal, category and domain
    indices. *)
Definition indexed `{Platform} (memoryId : string) (memoryEntry : MemoryEntry)
    (st : Store) : Store :=
  let st := withMemoryStore (JsMap.set memoryId memoryEntry (memoryStore st)) st in
  let st := indexEmbeddings memoryId memoryEntry st in
  let st := updateTemporalIndices memoryId memoryEntry st in
  let st := updateSemanticCategories memoryId memoryEntry st in
  updateDomainClusters memoryId memoryEntry st.

(** The edge list of a record, empty when it has none. *)
Definition edgesOf (k : string) (graph : JsMap.t (list Relationship)) : list Relationship :=
  match JsMap.get k graph with Some edges => edges | None => [] end.

(** The reverse edge that [discoverRelationships] pushes for [rel]. *)
Definition reverseOf (memoryId : string) (rel : Relationship) : Relationship :=
  {| rel_type := rel_type rel +++ "-reverse"; targetId := memoryId;
     strength := strength rel |}.

(** ** Eviction order *)

(** The index of a key in insertion order. *)
Fixpoint position (k : string) (keys : list string) : nat :=
  match keys with
  | [] => 0
  | k' :: rest => if String.eqb k k' then 0 else S (position k rest)
  end.

(** What the comparator of [maintainMemoryLimits] orders by: the number
    of a numeric timestamp; date-time strings all compare as equal. *)
Definition sortKey (kv : string * MemoryEntry) : Z :=
  match timestamp (snd kv) with
  | TsNumber ms => ms
  | TsIso _ => 0%Z
  end.

Definition isNumeric (kv : string * MemoryEntry) : bool :=
  match timestamp (snd kv) with TsNumber _ => true | TsIso _ => false end.

(** The timestamps of the table are all numbers or all date-time strings
    (on a mix of the two the comparator is not an ordering). *)
Definition uniformTimestamps (table : JsMap.t MemoryEntry) : Prop :=
  Forall (fun kv => isNumeric kv = true) table \/
  Forall (fun kv => isNumeric kv = false) table.

(** A comparator that orders by an integer key, and the order it
    induces when an index breaks the ties. *)
Definition keyAfter {A : Type} (key : A -> Z) (y x : A) : bool :=
  (key x <? key y)%Z.

Definition olderBy {A : Type} (key : A -> Z) (idx : A -> nat) (a b : A) : Prop :=
  (key a < key b)%Z \/ (key a = key b /\ idx a < idx b).

Definition insertionIndex (table : JsMap.t MemoryEntry) (kv : string * MemoryEntry) : nat :=
  position (fst kv) (JsMap.keys table).

(** [r] is strictly older than [s], insertion order breaking ties. *)
Definition olderThan (table : JsMap.t MemoryEntry) (r s : string * MemoryEntry) : Prop :=
  olderBy sortKey (insertionIndex table) r s.

(** ** Sample stores *)

(** A record as [createMemoryEntry] builds it from a result without text
    or vision analysis, with the unified embedding given. *)
Definition plainEntry (id : string) (ts : JsTimestamp) (url : string)
    (embedding : option Embedding) : MemoryEntry := {|
  memoryId := id;
  timestamp := ts;
  url := url;
  domain := extractDomain url;
  agentOutputs := {|
    out_text := {| ao_text := ""; ao_confidence := 0 |};
    out_vision := {| ao_text := ""; ao_confidence := 0 |};
    out_orchestrator := {| ao_text := ""; ao_confidence := 0.5 |} |};
  embeddingsTensor := {|
    unified := embedding; et_text := None; et_vision := None;
    et_dimension := match embedding with
                    | Some v => Z.of_nat (List.length v)
                    | None => 0
                    end |};
  semanticFeatures := {|
    sf_contentType := "general"; sf_pageType := "page"; sf_topics := [];
    sf_categories := []; sf_quality := Some 0.5%float; sf_confidence := Some 0.5%float |};
  temporalFeatures := {|
    tf_hour := getHours (newDate ts); tf_dayOfWeek := getDay (newDate ts);
    tf_month := getMonth (newDate ts); tf_season := getSeason (newDate ts) |};
  provenance := {|
    pv_textAgent := None; pv_visionAgent := None; pv_orchestratorAgent := None;
    pv_processingTime := None; pv_synthesisApproach := Some "vision-only";
    pv_qualityMetrics := {| qm_overallScore := Some 0.5%float |};
    pv_agentAgreement := None |};
  conversationTrace := {|
    ct_textReasoning := []; ct_visionReasoning := [];
    ct_orchestrationReasoning := None |}
|}.

(** 2024-03-15 13:45:10 and the minutes after it, in milliseconds. *)
Definition noon : Z := 1710510310250.

Definition visit (ts : Z) (path : string) : OrchestrationResult :=
  sampleResult (TsNumber ts) ("https://example.com/" +++ path) None None.

(** Two pages of one site stored in a memory of capacity one. *)
Definition oneVisit : Store :=
  fst (storeMemory "memory-1" "cluster-1" noon (visit noon "a") (newStore 1)).

Definition twoVisits : Store :=
  fst (storeMemory "memory-2" "cluster-2" (noon + 60000)
         (visit (noon + 60000) "b") oneVisit).

(** The second page carries the older timestamp. *)
Definition lateArrival : Store * StoreResult :=
  storeMemory "memory-2" "cluster-2" (noon + 60000) (visit (noon - 60000) "b") oneVisit.

(** Records with embeddings, entered through the write path. *)
Definition embedded (id : string) (ts : Z) (v : Embedding) : MemoryEntry :=
  plainEntry id (TsNumber ts) "https://example.com/a" (Some v).

(** The three records of the specification's fifth testable property. *)
Definition twoAlike : Store :=
  insertEntry "memory-2" "cluster-2" (noon + 1)
    (embedded "memory-2" (noon + 1) [0.9; 0.1]%float)
    (insertEntry "memory-1" "cluster-1" noon
       (embedded "memory-1" noon [1; 0]%float) (newStore defaultMaxMemories)).

Definition threeRecords : Store :=
  insertEntry "memory-3" "cluster-3" (noon + 2)
    (embedded "memory-3" (noon + 2) [0; 1]%float) twoAlike.

(** Two clusters that are both close to a third embedding. *)
Definition twoClusters : Store :=
  insertEntry "memory-2" "cluster-2" (noon + 1)
    (embedded "memory-2" (noon + 1) [1; 0]%float)
    (insertEntry "memory-1" "cluster-1" noon
       (embedded "memory-1" noon [0.6; 0.8]%float) (newStore defaultMaxMemories)).

Definition between : Embedding := [0.9; 0.4]%float.

Definition thirdJoins : Store :=
  insertEntry "memory-3" "cluster-3" (noon + 2) (embedded "memory-3" (noon + 2) between)
    twoClusters.

(** ** Cluster choice *)

(** The test of [findOrCreateConceptCluster] on one cluster. *)
Definition similarEnough (embedding : Embedding) (cluster : Cluster) : bool :=
  (clusterThreshold <? similarity (Some embedding) (Some (centroid cluster)))%float.

(** The members of a cluster, none for a cluster that does not exist. *)
Definition membersOf (clusterId : string) (clusters : JsMap.t Cluster) : JsSet.t :=
  match JsMap.get clusterId clusters with
  | Some cluster => members cluster
  | None => []
  end.

(** ** Analytics ([getTopCategories], [getTopDomains], [getMemoriesInTimeRange]) *)

(** The comparator [(a, b) => b[1] - a[1]] on [[name, count]] pairs. *)
Definition fewerThan (y x : string * nat) : bool := Nat.ltb (snd y) (snd x).

(** [index.forEach((memories, name) => { count.set(name, memories.size) })] *)
Definition countMembers (index : JsMap.t JsSet.t) : JsMap.t nat :=
  fold_left (fun count kv => JsMap.set (fst kv) (List.length (snd kv)) count) index [].

Definition getTopCategories (st : Store) : list (string * nat) :=
  slice0 10 (stableSort fewerThan (countMembers (semanticCategories st))).

Definition getTopDomains (st : Store) : list (string * nat) :=
  slice0 10 (stableSort fewerThan (countMembers (domainClusters st))).

Section Analytics.
Context `{Platform}.

(** [getMemoriesInTimeRange(range)] for the four ranges that the [switch]
    knows; [now] is the time value of [new Date()]. *)
Definition getMemoriesInTimeRange (range : Granularity) (now : Z) (st : Store) : nat :=
  match JsMap.get (temporalKey range (TsNumber now)) (bucketOf range (temporalBuckets st)) with
  | Some memories => List.length memories
  | None => 0
  end.

(** ** Recency ([getRecentMemories]) *)

(** The comparator [(a, b) => new Date(b.timestamp) - new Date(a.timestamp)]:
    the difference is [NaN] when either date is invalid. *)
Definition datedBefore (y x : MemoryEntry) : bool :=
  match newDate (timestamp x), newDate (timestamp y) with
  | Some tx, Some ty => (0 <? tx - ty)%Z
  | _, _ => false
  end.

Definition getRecentMemories (limit : Z) (st : Store) : list MemoryEntry :=
  slice0 limit (stableSort datedBefore (map snd (memoryStore st))).
End Analytics.

(** ** Persistence ([exportMemoryState], [importMemoryState], [rebuildIndices]) *)

Record MemoryState := {
  memories : list (string * MemoryEntry);
  embeddings : list (string * EmbeddingsTensor);
  clusters : list (string * Cluster);
  relationships : list (string * list Relationship);
  ms_systemId : string;
  exportTimestamp : Z
}.

(** [exportMemoryState]; [systemId] is the identifier the constructor
    gave the store and [now] the clock. *)
Definition exportMemoryState (systemId : string) (now : Z) (st : Store) : MemoryState := {|
  memories := memoryStore st;
  embeddings := embeddingIndex st;
  clusters := conceptClusters st;
  relationships := relationshipGraph st;
  ms_systemId := systemId;
  exportTimestamp := now
|}.

(** [new Map(entries)]: a later entry with a key seen before replaces the
    value and keeps the place of the first. *)
Definition mapOfEntries {V : Type} (entries : list (string * V)) : JsMap.t V :=
  fold_left (fun m kv => JsMap.set (fst kv) (snd kv) m) entries [].

Section Persistence.
Context `{Platform}.

(** The body of the [forEach] in [rebuildIndices]. *)
Definition reindex (st : Store) (kv : string * MemoryEntry) : Store :=
  let (memoryId, memory) := kv in
  let st := updateTemporalIndices memoryId memory st in
  let st := updateSemanticCategories memoryId memory st in
  updateDomainClusters memoryId memory st.

Definition rebuildIndices (st : Store) : Store :=
  let st :=
    withTemporalBuckets {| hour := []; day := []; week := []; month := [] |} st in
  let st := withSemanticCategories [] st in
  let st := withDomainClusters [] st in
  fold_left reindex (memoryStore st) st.

(** [importMemoryState(state)]: the capacity and the embedding buckets of
    the receiving store are left as they are. *)
Definition importMemoryState (state : MemoryState) (st : Store) : Store :=
  let st := withMemoryStore (mapOfEntries (memories state)) st in
  let st := withEmbeddingIndex (mapOfEntries (embeddings state)) st in
  let st := withConceptClusters (mapOfEntries (clusters state)) st in
  let st := withRelationshipGraph (mapOfEntries (relationships state)) st in
  rebuildIndices st.
End Persistence.

(** ** Histories *)

(** The stores built with fresh identifiers, as [storeMemory] draws them. *)
Inductive Built `{Platform} : Store -> Prop :=
| built_new (maxMemories : Z) : Built (newStore maxMemories)
| built_insert (st : Store) (memoryId fresh : string) (now : Z) (e : MemoryEntry) :
    Built st -> ~ stored st memoryId -> Built (insertEntry memoryId fresh now e st)
| built_remove (st : Store) (memoryId : string) :
    Built st -> Built (removeMemory memoryId st).

(** The stores built by calls of [storeMemory] alone. *)
Inductive StoredOnly `{Platform} : Store -> Prop :=
| only_new (maxMemories : Z) : StoredOnly (newStore maxMemories)
| only_store (st : Store) (memoryId fresh : string) (now : Z) (r : OrchestrationResult) :
    StoredOnly st -> StoredOnly (fst (storeMemory memoryId fresh now r st)).

(** Every record of the canonical table is fanned out over the indices. *)
Definition AllFannedOut `{Platform} (st : Store) : Prop :=
  forall x e, In (x, e) (memoryStore st) -> FannedOut st x e.

(** The identifier [x] is in the set that the index keeps under [key]. *)
Definition indexHolds (index : JsMap.t JsSet.t) (key x : string) : Prop :=
  exists s, JsMap.get key index = Some s /\ In x s.

Definition sameMembers (m1 m2 : JsMap.t JsSet.t) : Prop :=
  forall key x, indexHolds m1 key x <-> indexHolds m2 key x.

(** The temporal, domain and category indices hold the records of the
    canonical table, each under its own keys, and nothing else. *)
Definition DerivedExactly `{Platform} (st : Store) : Prop :=
  (forall g key x,
     indexHolds (bucketOf g (temporalBuckets st)) key x <->
     exists e, In (x, e) (memoryStore st) /\ key = temporalKey g (timestamp e)) /\
  (forall key x,
     indexHolds (domainClusters st) key x <->
     exists e, In (x, e) (memoryStore st) /\ key = domain e) /\
  (forall key x,
     indexHolds (semanticCategories st) key x <->
     exists e, In (x, e) (memoryStore st) /\
               In key (sf_categories (semanticFeatures e))).

(** What one record adds to an index that files it under [keysOf]. *)
Definition addUnder (keysOf : MemoryEntry -> list string) (m : JsMap.t JsSet.t)
    (kv : string * MemoryEntry) : JsMap.t JsSet.t :=
  fold_left (fun m key => addToSetMap key (fst kv) m) (keysOf (snd kv)) m.

(** ** More sample stores *)

(** A record as the background script stores it: the timestamp is a
    date-time string. *)
Definition isoVisit (iso path : string) : OrchestrationResult :=
  sampleResult (TsIso iso) ("https://example.com/" +++ path) None None.

Definition threeIsoVisits : Store :=
  fst (storeMemory "memory-3" "cluster-3" (noon + 2)
         (isoVisit "2024-03-15T13:45:10.250Z" "c")
         (fst (storeMemory "memory-2" "cluster-2" (noon + 1)
                 (isoVisit "2024-03-15T13:55:10.250Z" "b")
                 (fst (storeMemory "memory-1" "cluster-1" noon
                         (isoVisit "2024-03-15T13:50:10.250Z" "a") (newStore 2)))))).


(** ** Rankings *)

(** What [getTopCategories] and [getTopDomains] promise about an index:
    at most ten distinct names, each with the size of its set, the
    larger sets first, and no name left out that has a larger set than a
    listed one. *)
Definition TopTen (index : JsMap.t JsSet.t) (top : list (string * nat)) : Prop :=
  List.length top <= 10 /\
  NoDup (map fst top) /\
  (forall name count, In (name, count) top ->
     exists s, JsMap.get name index = Some s /\ count = List.length s) /\
  StronglySorted (fun a b => snd b <= snd a) top /\
  (forall name s, JsMap.get name index = Some s -> ~ In name (map fst top) ->
     List.length top = 10 /\ forall p, In p top -> List.length s <= snd p).

(** The records come newest first, as far as their dates are valid. *)
Definition NewestFirst `{Platform} (l : list MemoryEntry) : Prop :=
  StronglySorted
    (fun a b => forall ta tb, newDate (timestamp a) = Some ta ->
                              newDate (timestamp b) = Some tb -> (tb <= ta)%Z) l.

(** ** Growth *)

(** [st'] has every key that [st] has in the cluster table and in the
    temporal, domain and category indices, and every identifier that the
    embedding buckets of [st] hold, under the same bucket. *)
Definition KeepsKeys (st st' : Store) : Prop :=
  incl (JsMap.keys (conceptClusters st)) (JsMap.keys (conceptClusters st')) /\
  (forall g, incl (JsMap.keys (bucketOf g (temporalBuckets st)))
                  (JsMap.keys (bucketOf g (temporalBuckets st')))) /\
  incl (JsMap.keys (domainClusters st)) (JsMap.keys (domainClusters st')) /\
  incl (JsMap.keys (semanticCategories st)) (JsMap.keys (semanticCategories st')) /\
  (forall key x,
     indexHolds (match embeddingBuckets st with Some b => b | None => [] end) key x ->
     indexHolds (match embeddingBuckets st' with Some b => b | None => [] end) key x).

(** ** Sessions *)

(** One call of [storeMemory]: the two identifiers it draws, the clock
    and the result it is given. *)
Record StoreCall := {
  call_memoryId : string;
  call_clusterId : string;
  call_now : Z;
  call_result : OrchestrationResult
}.

(** A sequence of calls of [storeMemory] on one store. *)
Definition storeAll `{Platform} (calls : list StoreCall) (st : Store) : Store :=
  fold_left
    (fun st call =>
       fst (storeMemory (call_memoryId call) (call_clusterId call) (call_now call)
              (call_result call) st))
    calls st.

(** * Properties *)

(** ** Cosine similarity *)

Section CosineFacts.
Context {N : Type} `{Arith N}.

(** The three accumulators of the loop are three independent sums. *)
Lemma cosine_loop_split (a b : list N) :
  List.length a = List.length b ->
  forall d na nb,
    fold_left cosineStep (combine a b) (d, na, nb) =
    (fold_left (fun acc xy => nadd acc (nmul (fst xy) (snd xy))) (combine a b) d,
     fold_left (fun acc x => nadd acc (nmul x x)) a na,
     fold_left (fun acc x => nadd acc (nmul x x)) b nb).
Proof.
  revert b.
  induction a as [|x a IH]; intros [|y b] Hlen d na nb;
    simpl in *; try discriminate; auto.
Qed.

Lemma cosine_equal_length (a b : list N) :
  List.length a = List.length b ->
  calculateCosineSimilarity (Some a) (Some b) =
  if neqb (nmul (norm a) (norm b)) nzero then nzero
  else ndiv (dot a b) (nmul (norm a) (norm b)).
Proof.
  intro Hlen.
  unfold calculateCosineSimilarity.
  rewrite Hlen, Nat.eqb_refl.
  cbn [negb].
  rewrite (cosine_loop_split a b Hlen).
  reflexivity.
Qed.

(** The dot product of a vector with itself is its sum of squares: the
    same operations in the same order. *)
Lemma dot_self (v : list N) : dot v v = sumSquares v.
Proof.
  unfold dot, sumSquares. generalize (@nzero N _).
  induction v as [|x v IH]; intro acc; simpl; [reflexivity | apply IH].
Qed.

Lemma cosine_mismatch (a b : list N) :
  List.length a <> List.length b ->
  calculateCosineSimilarity (Some a) (Some b) = nzero.
Proof.
  intro Hlen.
  unfold calculateCosineSimilarity.
  apply Nat.eqb_neq in Hlen.
  now rewrite Hlen.
Qed.
End CosineFacts.

(** *** Zero norms on binary64 numbers *)

Lemma float_eqb_zero (x : float) :
  (x =? 0)%float = true -> exists s, Prim2SF x = S754_zero s.
Proof.
rewrite FloatAxioms.eqb_spec. change (Prim2SF 0) with (S754_zero false).
destruct (Prim2SF x) as [s | s | | s m e]; simpl; try discriminate; eauto.
all: destruct s; discriminate.
Qed.

Lemma float_finite (y : float) :
  PrimFloat.is_finite y = true ->
  (exists s, Prim2SF y = S754_zero s) \/
  (exists s m e, Prim2SF y = S754_finite s m e).
Proof.
unfold PrimFloat.is_finite, PrimFloat.is_nan, PrimFloat.is_infinity.
rewrite !FloatAxioms.eqb_spec, FloatAxioms.abs_spec.
change (Prim2SF infinity) with (S754_infinity false).
destruct (Prim2SF y) as [s | s | | s m e]; simpl; try discriminate; eauto.
destruct s; discriminate.
Qed.

(** A zero times a finite number is a zero; a zero times an infinity is
    [NaN]. *)
Lemma float_zero_times_finite (x y : float) :
  (x =? 0)%float = true -> PrimFloat.is_finite y = true ->
  (x * y =? 0)%float = true /\ (y * x =? 0)%float = true.
Proof.
intros Hx Hy. apply float_eqb_zero in Hx as (s & Hx).
rewrite !FloatAxioms.eqb_spec, !FloatAxioms.mul_spec, Hx.
change (Prim2SF 0) with (S754_zero false).
destruct (float_finite y Hy) as [(s' & ->) | (s' & m & e & ->)]; split; reflexivity.
Qed.

Lemma cosine_float_zero_norm (x y : list float) :
  List.length x = List.length y ->
  ((norm x =? 0)%float = true /\ PrimFloat.is_finite (norm y) = true) \/
  ((norm y =? 0)%float = true /\ PrimFloat.is_finite (norm x) = true) ->
  calculateCosineSimilarity (Some x) (Some y) = 0%float.
Proof.
intros Hlen Hzero. rewrite cosine_equal_length by exact Hlen.
cbn [neqb nmul nzero floatArith].
destruct Hzero as [[Hx Hy] | [Hy Hx]].
- destruct (float_zero_times_finite _ _ Hx Hy) as [-> _]. reflexivity.
- destruct (float_zero_times_finite _ _ Hy Hx) as [_ ->]. reflexivity.
Qed.




(** The loop on binary64 numbers, run on the vectors of the specification's
    fifth testable property. *)
Example cosine_float_examples :
  calculateCosineSimilarity (Some [1; 0]%float) (Some [1; 0]%float) = 1%float /\
  calculateCosineSimilarity (Some [0; 0]%float) (Some [1; 0]%float) = 0%float /\
  calculateCosineSimilarity (Some [1; 0]%float) (Some [1; 0; 0]%float) = 0%float /\
  (calculateCosineSimilarity (Some [0; 1]%float) (Some [0.95; 0.05]%float) <? 0.85)%float = true.
Proof. repeat split; vm_compute; reflexivity. Qed.

(** ** Facts about [JsSet] and [JsMap] *)

Lemma set_has_In (x : string) (s : JsSet.t) : JsSet.has x s = true <-> In x s.
Proof.
unfold JsSet.has. rewrite existsb_exists. split.
- intros (y & Hy & He). apply String.eqb_eq in He. now subst.
- intro Hx. exists x. split; [exact Hx | apply String.eqb_refl].
Qed.

Lemma set_has_false (x : string) (s : JsSet.t) : JsSet.has x s = false <-> ~ In x s.
Proof.
rewrite <- set_has_In. destruct (JsSet.has x s); intuition congruence.
Qed.

Lemma set_add_In (x y : string) (s : JsSet.t) :
  In x (JsSet.add y s) <-> x = y \/ In x s.
Proof.
unfold JsSet.add. destruct (JsSet.has y s) eqn:Hy.
- apply set_has_In in Hy. split; [auto | intros [-> | ?]; auto].
- rewrite in_app_iff. simpl. intuition congruence.
Qed.

Lemma set_add_NoDup (y : string) (s : JsSet.t) : NoDup s -> NoDup (JsSet.add y s).
Proof.
intro Hs. unfold JsSet.add. destruct (JsSet.has y s) eqn:Hy; [exact Hs |].
apply set_has_false in Hy.
apply NoDup_app; [exact Hs | repeat constructor; simpl; tauto |].
intros x Hx [-> | []]. auto.
Qed.

Lemma set_add_length (y : string) (s : JsSet.t) :
  List.length (JsSet.add y s) <= S (List.length s).
Proof.
unfold JsSet.add. destruct (JsSet.has y s); [lia |].
rewrite length_app. simpl. lia.
Qed.

Lemma set_delete_In (x y : string) (s : JsSet.t) :
  In x (JsSet.delete y s) <-> In x s /\ x <> y.
Proof.
unfold JsSet.delete. rewrite filter_In, negb_true_iff, String.eqb_neq.
intuition congruence.
Qed.

Lemma set_ofList_from (l : list string) (s : JsSet.t) :
  NoDup s ->
  let r := fold_left (fun acc x => JsSet.add x acc) l s in
  NoDup r /\ (forall x, In x r <-> In x s \/ In x l) /\
  List.length r <= List.length s + List.length l /\
  exists rest, r = s ++ rest.
Proof.
revert s. induction l as [|y l IH]; intros s Hs; simpl.
- repeat split; auto; try tauto; try lia. exists []. now rewrite app_nil_r.
- destruct (IH (JsSet.add y s) (set_add_NoDup y s Hs)) as (Hnd & Hin & Hlen & rest & Hrest).
  repeat split; auto.
  + intro Hx. apply Hin in Hx. rewrite set_add_In in Hx. intuition.
  + intro Hx. apply Hin. rewrite set_add_In. intuition.
  + pose proof (set_add_length y s). lia.
  + rewrite Hrest. unfold JsSet.add. destruct (JsSet.has y s).
    * now exists rest.
    * exists ([y] ++ rest). now rewrite app_assoc.
Qed.

Lemma set_ofList_In (l : list string) (x : string) : In x (JsSet.ofList l) <-> In x l.
Proof.
destruct (set_ofList_from l [] (NoDup_nil _)) as (_ & Hin & _).
unfold JsSet.ofList. rewrite Hin. simpl. tauto.
Qed.

Lemma set_ofList_NoDup (l : list string) : NoDup (JsSet.ofList l).
Proof. apply (set_ofList_from l [] (NoDup_nil _)). Qed.

Lemma set_ofList_length (l : list string) :
  List.length (JsSet.ofList l) <= List.length l.
Proof.
destruct (set_ofList_from l [] (NoDup_nil _)) as (_ & _ & Hlen & _). exact Hlen.
Qed.

Section MapFacts.
Context {V : Type}.
Implicit Types (m : JsMap.t V) (k : string) (v : V).

Lemma map_get_In k m v : JsMap.get k m = Some v -> In (k, v) m.
Proof.
induction m as [|[k' v'] m IH]; simpl; [discriminate |].
destruct (String.eqb k k') eqn:He.
- apply String.eqb_eq in He. intros [= <-]. subst. now left.
- intro Hg. right. auto.
Qed.

Lemma map_get_None k m : JsMap.get k m = None <-> ~ In k (JsMap.keys m).
Proof.
induction m as [|[k' v'] m IH]; simpl; [tauto |].
destruct (String.eqb k k') eqn:He.
- apply String.eqb_eq in He. subst. split; [discriminate | tauto].
- apply String.eqb_neq in He. rewrite IH. intuition congruence.
Qed.

Lemma map_has_In k m : JsMap.has k m = true <-> In k (JsMap.keys m).
Proof.
unfold JsMap.has. destruct (JsMap.get k m) eqn:Hg.
- split; [intros _ | reflexivity].
  apply map_get_In in Hg. apply (in_map fst) in Hg. exact Hg.
- apply map_get_None in Hg. split; [discriminate | contradiction].
Qed.

Lemma map_has_false k m : JsMap.has k m = false <-> ~ In k (JsMap.keys m).
Proof.
rewrite <- map_has_In. destruct (JsMap.has k m); intuition congruence.
Qed.

Lemma map_In_get k m v :
  NoDup (JsMap.keys m) -> In (k, v) m -> JsMap.get k m = Some v.
Proof.
induction m as [|[k' v'] m IH]; simpl; [tauto |].
intros Hnd [[= -> ->] | Hin].
- now rewrite String.eqb_refl.
- inversion Hnd as [|? ? Hk Hnd']; subst.
  destruct (String.eqb k k') eqn:He; [| auto].
  apply String.eqb_eq in He. subst. exfalso. apply Hk.
  apply (in_map fst) in Hin. exact Hin.
Qed.

Lemma map_get_set_same k v m : JsMap.get k (JsMap.set k v m) = Some v.
Proof.
induction m as [|[k' v'] m IH]; simpl.
- now rewrite String.eqb_refl.
- destruct (String.eqb k k') eqn:He; simpl; now rewrite He.
Qed.

Lemma map_get_set_other k k' v m :
  k' <> k -> JsMap.get k' (JsMap.set k v m) = JsMap.get k' m.
Proof.
intro Hne. induction m as [|[k0 v0] m IH]; simpl.
- apply String.eqb_neq in Hne. now rewrite Hne.
- destruct (String.eqb k k0) eqn:He; simpl.
  + apply String.eqb_eq in He. subst.
    apply String.eqb_neq in Hne. now rewrite Hne.
  + now rewrite IH.
Qed.

Lemma map_keys_set k v m :
  JsMap.keys (JsMap.set k v m) =
  if JsMap.has k m then JsMap.keys m else JsMap.keys m ++ [k].
Proof.
unfold JsMap.has. induction m as [|[k' v'] m IH]; simpl; [reflexivity |].
destruct (String.eqb k k') eqn:He; simpl; [reflexivity |].
rewrite IH. now destruct (JsMap.get k m).
Qed.

Lemma map_keys_set_In k k' v m :
  In k' (JsMap.keys (JsMap.set k v m)) <-> k' = k \/ In k' (JsMap.keys m).
Proof.
rewrite map_keys_set. destruct (JsMap.has k m) eqn:Hh.
- apply map_has_In in Hh. split; [auto | intros [-> | ?]; auto].
- rewrite in_app_iff. simpl. intuition congruence.
Qed.

Lemma map_set_NoDup k v m : NoDup (JsMap.keys m) -> NoDup (JsMap.keys (JsMap.set k v m)).
Proof.
intro Hnd. rewrite map_keys_set. destruct (JsMap.has k m) eqn:Hh; [exact Hnd |].
apply map_has_false in Hh.
apply NoDup_app; [exact Hnd | repeat constructor; simpl; tauto |].
intros x Hx [-> | []]. auto.
Qed.

Lemma map_set_In k v m k' v' :
  In (k', v') (JsMap.set k v m) -> (k' = k /\ v' = v) \/ In (k', v') m.
Proof.
induction m as [|[k0 v0] m IH]; simpl.
- intros [[= <- <-] | []]. auto.
- destruct (String.eqb k k0) eqn:He; simpl.
  + apply String.eqb_eq in He. subst.
    intros [[= <- <-] | Hin]; auto.
  + intros [Heq | Hin]; [auto |]. destruct (IH Hin); auto.
Qed.

Lemma map_set_length k v m :
  List.length (JsMap.set k v m) =
  if JsMap.has k m then List.length m else S (List.length m).
Proof.
unfold JsMap.has. induction m as [|[k' v'] m IH]; simpl; [reflexivity |].
destruct (String.eqb k k') eqn:He; simpl; [reflexivity |].
rewrite IH. now destruct (JsMap.get k m).
Qed.

Lemma map_set_fresh k v m :
  JsMap.has k m = false -> JsMap.set k v m = m ++ [(k, v)].
Proof.
unfold JsMap.has. induction m as [|[k' v'] m IH]; simpl; [reflexivity |].
destruct (String.eqb k k') eqn:He; [discriminate |].
intro Hh. now rewrite IH.
Qed.

Lemma map_delete_In k m k' v :
  In (k', v) (JsMap.delete k m) <-> In (k', v) m /\ k' <> k.
Proof.
unfold JsMap.delete. rewrite filter_In, negb_true_iff, String.eqb_neq. simpl.
intuition congruence.
Qed.

Lemma map_keys_delete k m :
  JsMap.keys (JsMap.delete k m) =
  filter (fun k' => negb (String.eqb k k')) (JsMap.keys m).
Proof.
unfold JsMap.delete, JsMap.keys.
induction m as [|[k' v'] m IH]; simpl; [reflexivity |].
destruct (String.eqb k k'); simpl; now rewrite IH.
Qed.

Lemma map_keys_delete_In k m k' :
  In k' (JsMap.keys (JsMap.delete k m)) <-> In k' (JsMap.keys m) /\ k' <> k.
Proof.
rewrite map_keys_delete, filter_In, negb_true_iff, String.eqb_neq.
intuition congruence.
Qed.

Lemma map_get_delete_other k k' m :
  k' <> k -> JsMap.get k' (JsMap.delete k m) = JsMap.get k' m.
Proof.
intro Hne. unfold JsMap.delete.
induction m as [|[k0 v0] m IH]; simpl; [reflexivity |].
destruct (String.eqb k k0) eqn:He; simpl.
- apply String.eqb_eq in He. subst. apply String.eqb_neq in Hne.
  now rewrite Hne.
- now rewrite IH.
Qed.

Lemma map_delete_NoDup k m : NoDup (JsMap.keys m) -> NoDup (JsMap.keys (JsMap.delete k m)).
Proof.
intro Hnd. rewrite map_keys_delete. now apply NoDup_filter.
Qed.

Lemma map_keys_mapValues (f : V -> V) m : JsMap.keys (JsMap.mapValues f m) = JsMap.keys m.
Proof.
unfold JsMap.keys, JsMap.mapValues. rewrite map_map. reflexivity.
Qed.

Lemma map_get_mapValues (f : V -> V) k m :
  JsMap.get k (JsMap.mapValues f m) = option_map f (JsMap.get k m).
Proof.
induction m as [|[k' v'] m IH]; simpl; [reflexivity |].
destruct (String.eqb k k'); [reflexivity | exact IH].
Qed.

Lemma map_mapValues_In (f : V -> V) m k v :
  In (k, v) (JsMap.mapValues f m) <-> exists v0, v = f v0 /\ In (k, v0) m.
Proof.
unfold JsMap.mapValues. rewrite in_map_iff. split.
- intros ([k0 v0] & [= <- <-] & Hin). eauto.
- intros (v0 & -> & Hin). exists (k, v0). auto.
Qed.
End MapFacts.

(** ** Arrays *)

Lemma slice0_nonneg {A : Type} (n : nat) (l : list A) :
  slice0 (Z.of_nat n) l = firstn n l.
Proof.
unfold slice0. destruct (Z.of_nat n <? 0)%Z eqn:Hn.
- apply Z.ltb_lt in Hn. lia.
- now rewrite Nat2Z.id.
Qed.

Lemma slice0_nil {A : Type} (n : Z) : slice0 n (@nil A) = [].
Proof. unfold slice0. destruct (n <? 0)%Z; apply firstn_nil. Qed.

Lemma firstn_In {A : Type} (n : nat) (l : list A) (x : A) :
  In x (firstn n l) -> In x l.
Proof.
intro Hx. rewrite <- (firstn_skipn n l). apply in_or_app. now left.
Qed.

Lemma slice0_incl {A : Type} (n : Z) (l : list A) (x : A) :
  In x (slice0 n l) -> In x l.
Proof. unfold slice0. destruct (n <? 0)%Z; apply firstn_In. Qed.

(** ** Search *)

(** C10. When [searchMemories] leaves its [try] block with an empty result
    list, [searchMetrics.averageSimilarity] is [0 / 0], that is [NaN]; a
    provider that returns no embedding is one way to get there. *)
Theorem average_similarity_of_no_results
    (query : string) (o : SearchOptions) (provider : FetchOutcome) (st : Store) :
  let r := searchMemories query o provider st in
  (error r = None -> results r = [] ->
   exists m, searchMetrics r = Some m /\
             averageSimilarity m = (0 / 0)%float /\
             PrimFloat.is_nan (averageSimilarity m) = true) /\
  (generateQueryEmbedding provider = None ->
   error r = None /\ results r = [] /\
   option_map averageSimilarity (searchMetrics r) = Some nan).
Proof.
unfold searchMemories. split.
- destruct (findSimilarMemories _ _ _) as [hits | message]; cbn [error results searchMetrics].
  + intros _ Hnil. eexists. split; [reflexivity |]. cbn [averageSimilarity].
    rewrite Hnil. split; reflexivity.
  + discriminate.
- intros ->. cbn [findSimilarMemories applyFilters].
  assert (Hf : applyFilters [] o = []).
  { unfold applyFilters.
    destruct (truthy (domainFilter o)), (truthy (categoryFilter o)), (temporalFilter o);
      reflexivity. }
  rewrite Hf. cbn [stableSort fold_left]. rewrite slice0_nil.
  destruct (includeRelationships o); repeat split; reflexivity.
Qed.

Lemma average_similarity_of_no_results_witness :
  let r := searchMemories "recipes" defaultOptions ResponseNotOk (newStore defaultMaxMemories) in
  option_map averageSimilarity (searchMetrics r) = Some nan.
Proof.
apply (average_similarity_of_no_results "recipes" defaultOptions ResponseNotOk
         (newStore defaultMaxMemories)).
reflexivity.
Defined.

(** C8, as stated: a search whose provider fails has no results and
    carries an error indicator.  It fails: the result has no [error]. *)
Lemma search_failure_sets_no_error :
  let r := searchMemories "recipes" defaultOptions FetchThrows (newStore defaultMaxMemories) in
  ~ (results r = [] /\ error r <> None).
Proof. cbv zeta. intros [_ Herr]. apply Herr. reflexivity. Qed.

(** C8, amended.  When the embedding provider fails (the request throws,
    the response is not ok, or it carries no embedding), [searchMemories]
    does not throw and returns an empty result list with [totalFound = 0],
    no [error] property, and search metrics whose
    [queryEmbeddingGenerated] is [false] and whose [averageSimilarity] is
    [NaN]. *)
Theorem search_degrades_without_throwing
    (query : string) (o : SearchOptions) (provider : FetchOutcome) (st : Store) :
  provider = FetchThrows \/ provider = ResponseNotOk \/ provider = ResponseOk None ->
  searchMemories query o provider st =
  {| sr_query := query; results := []; totalFound := 0;
     searchMetrics :=
       Some {| queryEmbeddingGenerated := false;
               memoryStoreSize := List.length (memoryStore st);
               averageSimilarity := nan |};
     error := None |}.
Proof.
intro Hfail.
assert (Hq : generateQueryEmbedding provider = None)
  by (destruct Hfail as [-> | [-> | ->]]; reflexivity).
unfold searchMemories. rewrite Hq. cbn [findSimilarMemories].
assert (Hf : applyFilters [] o = []).
{ unfold applyFilters.
  destruct (truthy (domainFilter o)), (truthy (categoryFilter o)), (temporalFilter o);
    reflexivity. }
rewrite Hf. cbn [stableSort fold_left]. rewrite slice0_nil.
destruct (includeRelationships o); reflexivity.
Qed.

Lemma search_degrades_without_throwing_witness :
  error (searchMemories "recipes" defaultOptions FetchThrows (newStore defaultMaxMemories)) = None.
Proof.
rewrite (search_degrades_without_throwing "recipes" defaultOptions FetchThrows
           (newStore defaultMaxMemories)).
- reflexivity.
- left. reflexivity.
Defined.

(** ** Topics *)

(** C9, as stated: the topics are the ten longest non-stopword tokens.
    It fails: the sixth and longest token of this summary is not a topic. *)
Lemma topics_are_not_the_longest_tokens :
  extractTopics topicsSample = ["alpha"; "beta"; "gamma"; "delta"; "epsilon"] /\
  topicsBySpec topicsSample =
    ["alpha"; "beta"; "gamma"; "delta"; "epsilon"; "extraordinarily"] /\
  extractTopics topicsSample <> topicsBySpec topicsSample.
Proof. repeat split; vm_compute; try reflexivity. discriminate. Qed.

(** C9, amended.  The topics are the first five tokens longer than three
    characters and outside the stopword list of the lowercased text
    summary, followed by the first five such tokens of the lowercased
    vision synthesis, with later duplicates dropped: at most ten, without
    repetition, in order of first occurrence. *)
Theorem topics_are_the_first_qualifying_tokens (r : AgentResults) :
  let qualifying text := filter isTopicWord (split (toLowerCase text)) in
  let fromText := firstn 5 (qualifying (orElse (textSummaryOf r) "")) in
  let fromVision := firstn 5 (qualifying (orElse (visionSynthesisOf r) "")) in
  extractTopics r = JsSet.ofList (fromText ++ fromVision) /\
  NoDup (extractTopics r) /\
  List.length (extractTopics r) <= 10 /\
  (forall t, In t (extractTopics r) <-> In t fromText \/ In t fromVision) /\
  (forall t, In t (extractTopics r) ->
             3 < String.length t /\ ~ In t commonWords) /\
  (exists rest, extractTopics r = JsSet.ofList fromText ++ rest).
Proof.
intros qualifying fromText fromVision.
assert (Hlen : List.length (JsSet.ofList (fromText ++ fromVision)) <= 10).
{ etransitivity; [apply set_ofList_length |].
  rewrite length_app. unfold fromText, fromVision.
  pose proof (firstn_le_length 5 (qualifying (orElse (textSummaryOf r) ""))).
  pose proof (firstn_le_length 5 (qualifying (orElse (visionSynthesisOf r) ""))).
  lia. }
assert (Heq : extractTopics r = JsSet.ofList (fromText ++ fromVision)).
{ unfold extractTopics, extractTopicsFromText.
  change 5%Z with (Z.of_nat 5). change 10%Z with (Z.of_nat 10).
  rewrite !slice0_nonneg. apply firstn_all2. exact Hlen. }
rewrite Heq. repeat split.
- apply set_ofList_NoDup.
- exact Hlen.
- intro Ht. apply set_ofList_In, in_app_or in Ht. exact Ht.
- intro Ht. apply set_ofList_In, in_or_app. exact Ht.
- apply set_ofList_In, in_app_or in H.
  assert (Hq : exists text, In t (qualifying text)).
  { destruct H as [H | H]; apply firstn_In in H; eauto. }
  destruct Hq as (text & Hq). apply filter_In in Hq as [_ Hq].
  unfold isTopicWord in Hq. apply andb_true_iff in Hq as [Hq _].
  now apply Nat.ltb_lt in Hq.
- apply set_ofList_In, in_app_or in H.
  assert (Hq : exists text, In t (qualifying text)).
  { destruct H as [H | H]; apply firstn_In in H; eauto. }
  destruct Hq as (text & Hq). apply filter_In in Hq as [_ Hq].
  unfold isTopicWord in Hq. apply andb_true_iff in Hq as [_ Hq].
  apply negb_true_iff in Hq. now apply set_has_false in Hq.
- unfold JsSet.ofList. rewrite fold_left_app.
  destruct (set_ofList_from fromVision (fold_left (fun s x => JsSet.add x s) fromText []))
    as (_ & _ & _ & rest & Hrest).
  + apply set_ofList_NoDup.
  + exists rest. exact Hrest.
Qed.

Lemma topics_are_the_first_qualifying_tokens_witness :
  NoDup (extractTopics topicsSample) /\
  List.length (extractTopics topicsSample) <= 10 /\
  (3 < String.length "alpha" /\ ~ In "alpha" commonWords).
Proof.
destruct (topics_are_the_first_qualifying_tokens topicsSample)
  as (_ & Hnd & Hlen & _ & Hword & _).
split; [exact Hnd | split; [exact Hlen |]].
apply Hword. vm_compute. tauto.
Defined.

(** ** The write path, step by step *)

Lemma map_set_set {V : Type} (k : string) (v v0 : V) (m : JsMap.t V) :
  JsMap.set k v (JsMap.set k v0 m) = JsMap.set k v m.
Proof.
induction m as [|[k' v'] m IH]; simpl.
- now rewrite String.eqb_refl.
- destruct (String.eqb k k') eqn:He; simpl; rewrite He; [reflexivity |].
  now rewrite IH.
Qed.

Lemma addToSetMap_set (key id : string) (m : JsMap.t JsSet.t) :
  addToSetMap key id m = JsMap.set key (JsSet.add id (getSet key m)) m.
Proof.
unfold addToSetMap, getSet, JsMap.has.
destruct (JsMap.get key m) as [s |] eqn:Hg.
- now rewrite Hg.
- rewrite map_get_set_same. apply map_set_set.
Qed.

Lemma addToSetMap_get_same (key id : string) (m : JsMap.t JsSet.t) :
  exists s, JsMap.get key (addToSetMap key id m) = Some s /\ In id s.
Proof.
rewrite addToSetMap_set, map_get_set_same. eexists. split; [reflexivity |].
apply set_add_In. now left.
Qed.

Lemma addToSetMap_get_mono (key k id x : string) (m : JsMap.t JsSet.t) :
  (exists s, JsMap.get k m = Some s /\ In x s) ->
  exists s, JsMap.get k (addToSetMap key id m) = Some s /\ In x s.
Proof.
intros (s & Hg & Hx). rewrite addToSetMap_set.
destruct (String.eqb k key) eqn:He.
- apply String.eqb_eq in He. subst k. rewrite map_get_set_same.
  eexists. split; [reflexivity |]. apply set_add_In. right.
  unfold getSet. now rewrite Hg.
- apply String.eqb_neq in He. rewrite map_get_set_other by exact He. eauto.
Qed.

Lemma addToSetMap_In (key id : string) (m : JsMap.t JsSet.t) (k : string) (s : JsSet.t) :
  In (k, s) (addToSetMap key id m) ->
  forall x, In x s ->
  (x = id /\ k = key) \/ exists s0, In (k, s0) m /\ In x s0.
Proof.
rewrite addToSetMap_set. intros Hin x Hx.
apply map_set_In in Hin as [[-> ->] | Hin]; [| eauto].
apply set_add_In in Hx as [-> | Hx]; [auto |].
right. unfold getSet in Hx.
destruct (JsMap.get key m) as [s0 |] eqn:Hg; [| contradiction].
exists s0. split; [now apply map_get_In | exact Hx].
Qed.

Lemma addToSetMap_within (P : string -> Prop) (key id : string) (m : JsMap.t JsSet.t) :
  P id -> setsWithin P m -> setsWithin P (addToSetMap key id m).
Proof.
intros Hid Hm k s Hin x Hx.
destruct (addToSetMap_In key id m k s Hin x Hx) as [[-> _] | (s0 & Hin0 & Hx0)].
- exact Hid.
- exact (Hm k s0 Hin0 x Hx0).
Qed.

Lemma setsWithin_weaken (P Q : string -> Prop) (m : JsMap.t JsSet.t) :
  (forall x, P x -> Q x) -> setsWithin P m -> setsWithin Q m.
Proof. intros HPQ Hm k s Hin x Hx. apply HPQ. exact (Hm k s Hin x Hx). Qed.

Lemma getSet_In (key x : string) (m : JsMap.t JsSet.t) :
  In x (getSet key m) -> exists s, In (key, s) m /\ In x s.
Proof.
unfold getSet. destruct (JsMap.get key m) as [s |] eqn:Hg; [| contradiction].
intro Hx. exists s. split; [now apply map_get_In | exact Hx].
Qed.

(** Each step touches its own fields only. *)
Lemma indexEmbeddings_shape (id : string) (e : MemoryEntry) (st : Store) :
  indexEmbeddings id e st =
  withEmbeddingBuckets (embeddingBuckets (indexEmbeddings id e st))
    (withEmbeddingIndex (embeddingIndex (indexEmbeddings id e st)) st).
Proof.
unfold indexEmbeddings. destruct st.
destruct (unified (embeddingsTensor e)); reflexivity.
Qed.

Lemma indexEmbeddings_index (id : string) (e : MemoryEntry) (st : Store) :
  embeddingIndex (indexEmbeddings id e st) =
  match unified (embeddingsTensor e) with
  | Some _ => JsMap.set id (embeddingsTensor e) (embeddingIndex st)
  | None => embeddingIndex st
  end.
Proof.
unfold indexEmbeddings. destruct (unified (embeddingsTensor e)); reflexivity.
Qed.

Lemma updateClusterCentroid_shape (cid : string) (now : Z) (st : Store) :
  updateClusterCentroid cid now st =
  withConceptClusters (conceptClusters (updateClusterCentroid cid now st)) st.
Proof.
unfold updateClusterCentroid. destruct st. cbn [conceptClusters].
destruct (JsMap.get cid _) as [c |]; [| reflexivity].
destruct (members c); [reflexivity |].
destruct (memberEmbeddings _ _); reflexivity.
Qed.

Lemma updateConceptClusters_shape (id fresh : string) (now : Z) (e : MemoryEntry)
    (st : Store) :
  updateConceptClusters id fresh now e st =
  withConceptClusters (conceptClusters (updateConceptClusters id fresh now e st)) st.
Proof.
unfold updateConceptClusters.
destruct (unified (embeddingsTensor e)) as [emb |]; [| now destruct st].
match goal with |- context [JsMap.get ?k ?m] => destruct (JsMap.get k m) as [c |] end;
  [| now destruct st].
rewrite updateClusterCentroid_shape. now destruct st.
Qed.

Section WritePath.
Context `{Platform}.

Lemma fanOut_indexed (id fresh : string) (now : Z) (e : MemoryEntry) (st : Store) :
  fanOut id fresh now e st =
  updateConceptClusters id fresh now e (discoverRelationships id e (indexed id e st)).
Proof. reflexivity. Qed.

Lemma indexed_memoryStore (id : string) (e : MemoryEntry) (st : Store) :
  memoryStore (indexed id e st) = JsMap.set id e (memoryStore st).
Proof.
unfold indexed. cbn -[indexEmbeddings]. rewrite indexEmbeddings_shape. reflexivity.
Qed.

Lemma indexed_maxMemories (id : string) (e : MemoryEntry) (st : Store) :
  maxMemories (indexed id e st) = maxMemories st.
Proof.
unfold indexed. cbn -[indexEmbeddings]. rewrite indexEmbeddings_shape. reflexivity.
Qed.

Lemma indexed_embeddingIndex (id : string) (e : MemoryEntry) (st : Store) :
  embeddingIndex (indexed id e st) =
  match unified (embeddingsTensor e) with
  | Some _ => JsMap.set id (embeddingsTensor e) (embeddingIndex st)
  | None => embeddingIndex st
  end.
Proof.
unfold indexed. cbn -[indexEmbeddings]. rewrite indexEmbeddings_index. reflexivity.
Qed.

Lemma indexed_bucket (id : string) (e : MemoryEntry) (st : Store) (g : Granularity) :
  bucketOf g (temporalBuckets (indexed id e st)) =
  addToSetMap (temporalKey g (timestamp e)) id (bucketOf g (temporalBuckets st)).
Proof.
unfold indexed. cbn -[indexEmbeddings temporalKey addToSetMap].
rewrite indexEmbeddings_shape. destruct g; reflexivity.
Qed.

Lemma indexed_categories (id : string) (e : MemoryEntry) (st : Store) :
  semanticCategories (indexed id e st) =
  fold_left (fun m category => addToSetMap category id m)
    (sf_categories (semanticFeatures e)) (semanticCategories st).
Proof.
unfold indexed. cbn -[indexEmbeddings temporalKey addToSetMap].
rewrite indexEmbeddings_shape. reflexivity.
Qed.

Lemma indexed_domains (id : string) (e : MemoryEntry) (st : Store) :
  domainClusters (indexed id e st) =
  addToSetMap (domain e) id (domainClusters st).
Proof.
unfold indexed. cbn -[indexEmbeddings temporalKey addToSetMap].
rewrite indexEmbeddings_shape. reflexivity.
Qed.

Lemma indexed_graph (id : string) (e : MemoryEntry) (st : Store) :
  relationshipGraph (indexed id e st) = relationshipGraph st.
Proof.
unfold indexed. cbn -[indexEmbeddings temporalKey addToSetMap].
rewrite indexEmbeddings_shape. reflexivity.
Qed.

Lemma indexed_clusters (id : string) (e : MemoryEntry) (st : Store) :
  conceptClusters (indexed id e st) = conceptClusters st.
Proof.
unfold indexed. cbn -[indexEmbeddings temporalKey addToSetMap].
rewrite indexEmbeddings_shape. reflexivity.
Qed.

(** Fields of the state after the whole write path. *)
Lemma fanOut_memoryStore (id fresh : string) (now : Z) (e : MemoryEntry) (st : Store) :
  memoryStore (fanOut id fresh now e st) = JsMap.set id e (memoryStore st).
Proof.
rewrite fanOut_indexed, updateConceptClusters_shape. cbn. apply indexed_memoryStore.
Qed.

Lemma fanOut_maxMemories (id fresh : string) (now : Z) (e : MemoryEntry) (st : Store) :
  maxMemories (fanOut id fresh now e st) = maxMemories st.
Proof.
rewrite fanOut_indexed, updateConceptClusters_shape. cbn. apply indexed_maxMemories.
Qed.

Lemma fanOut_embeddingIndex (id fresh : string) (now : Z) (e : MemoryEntry) (st : Store) :
  embeddingIndex (fanOut id fresh now e st) = embeddingIndex (indexed id e st).
Proof. rewrite fanOut_indexed, updateConceptClusters_shape. reflexivity. Qed.

Lemma fanOut_buckets (id fresh : string) (now : Z) (e : MemoryEntry) (st : Store) :
  temporalBuckets (fanOut id fresh now e st) = temporalBuckets (indexed id e st).
Proof. rewrite fanOut_indexed, updateConceptClusters_shape. reflexivity. Qed.

Lemma fanOut_categories (id fresh : string) (now : Z) (e : MemoryEntry) (st : Store) :
  semanticCategories (fanOut id fresh now e st) = semanticCategories (indexed id e st).
Proof. rewrite fanOut_indexed, updateConceptClusters_shape. reflexivity. Qed.

Lemma fanOut_domains (id fresh : string) (now : Z) (e : MemoryEntry) (st : Store) :
  domainClusters (fanOut id fresh now e st) = domainClusters (indexed id e st).
Proof. rewrite fanOut_indexed, updateConceptClusters_shape. reflexivity. Qed.

Lemma fanOut_graph (id fresh : string) (now : Z) (e : MemoryEntry) (st : Store) :
  relationshipGraph (fanOut id fresh now e st) =
  relationshipGraph (discoverRelationships id e (indexed id e st)).
Proof. rewrite fanOut_indexed, updateConceptClusters_shape. reflexivity. Qed.
End WritePath.

(** ** The stable sort *)

Section SortFacts.
Context {A : Type} (after : A -> A -> bool).

Lemma sortInsert_perm (x : A) (l : list A) : Permutation (sortInsert after x l) (x :: l).
Proof.
induction l as [|y l IH]; simpl; [reflexivity |].
destruct (after y x); [reflexivity |].
rewrite IH. apply perm_swap.
Qed.

Lemma sort_from_perm (l acc : list A) :
  Permutation (fold_left (fun acc x => sortInsert after x acc) l acc) (acc ++ l).
Proof.
revert acc. induction l as [|x l IH]; intro acc; simpl.
- now rewrite app_nil_r.
- rewrite IH, sortInsert_perm. simpl. apply Permutation_middle.
Qed.

Lemma stableSort_perm (l : list A) : Permutation (stableSort after l) l.
Proof. unfold stableSort. apply (sort_from_perm l []). Qed.

Lemma stableSort_In (l : list A) (x : A) : In x (stableSort after l) <-> In x l.
Proof.
split; apply Permutation_in; [apply stableSort_perm |].
symmetry. apply stableSort_perm.
Qed.

End SortFacts.

(** ** Clusters *)

Lemma updateClusterCentroid_keys (cid : string) (now : Z) (st : Store) :
  JsMap.keys (conceptClusters (updateClusterCentroid cid now st)) =
  JsMap.keys (conceptClusters st).
Proof.
unfold updateClusterCentroid.
destruct (JsMap.get cid (conceptClusters st)) as [c |] eqn:Hg; [| reflexivity].
destruct (members c); [reflexivity |].
destruct (memberEmbeddings _ _); [reflexivity |].
cbn [conceptClusters withConceptClusters].
rewrite map_keys_set.
assert (Hh : JsMap.has cid (conceptClusters st) = true)
  by (unfold JsMap.has; now rewrite Hg).
now rewrite Hh.
Qed.

Lemma updateClusterCentroid_In (cid : string) (now : Z) (st : Store)
    (k : string) (c : Cluster) :
  In (k, c) (conceptClusters (updateClusterCentroid cid now st)) ->
  exists c0, In (k, c0) (conceptClusters st) /\ members c = members c0.
Proof.
unfold updateClusterCentroid.
destruct (JsMap.get cid (conceptClusters st)) as [c1 |] eqn:Hg; [| eauto].
destruct (members c1) eqn:Hm; [eauto |].
destruct (memberEmbeddings _ _); [eauto |].
cbn [conceptClusters withConceptClusters]. intro Hin.
apply map_set_In in Hin as [[-> ->] | Hin]; [| eauto].
exists c1. split; [now apply map_get_In | now rewrite Hm].
Qed.

Lemma updateConceptClusters_keys_NoDup (id fresh : string) (now : Z) (e : MemoryEntry)
    (st : Store) :
  NoDup (JsMap.keys (conceptClusters st)) ->
  NoDup (JsMap.keys (conceptClusters (updateConceptClusters id fresh now e st))).
Proof.
intro Hnd. unfold updateConceptClusters.
destruct (unified (embeddingsTensor e)) as [emb |]; [| exact Hnd].
match goal with |- context [JsMap.get ?k ?m] => destruct (JsMap.get k m) as [c |] end;
  [| exact Hnd].
rewrite updateClusterCentroid_keys. cbn [conceptClusters withConceptClusters].
apply map_set_NoDup.
destruct (JsMap.has _ _); [exact Hnd | now apply map_set_NoDup].
Qed.

Lemma updateConceptClusters_members (id fresh : string) (now : Z) (e : MemoryEntry)
    (st : Store) (k : string) (c : Cluster) :
  In (k, c) (conceptClusters (updateConceptClusters id fresh now e st)) ->
  forall x, In x (members c) ->
  (x = id /\ unified (embeddingsTensor e) <> None) \/
  exists c0, In (k, c0) (conceptClusters st) /\ In x (members c0).
Proof.
unfold updateConceptClusters.
destruct (unified (embeddingsTensor e)) as [emb |]; [| eauto].
set (cid := findOrCreateConceptCluster emb (conceptClusters st) fresh).
set (clusters := if JsMap.has cid (conceptClusters st) then conceptClusters st else _).
assert (Hold : forall k0 c0, In (k0, c0) clusters ->
                 members c0 = [] \/ In (k0, c0) (conceptClusters st)).
{ intros k0 c0. unfold clusters. destruct (JsMap.has cid (conceptClusters st)); [auto |].
  intro Hin. apply map_set_In in Hin as [[-> ->] | Hin]; auto. }
destruct (JsMap.get cid clusters) as [c1 |] eqn:Hg; [| eauto].
intros Hin x Hx.
apply updateClusterCentroid_In in Hin as (c2 & Hin & Hm).
cbn [conceptClusters withConceptClusters] in Hin. rewrite Hm in Hx.
apply map_set_In in Hin as [[-> ->] | Hin].
- cbn [members] in Hx. apply set_add_In in Hx as [-> | Hx].
  + left. split; [reflexivity | discriminate].
  + apply map_get_In in Hg. destruct (Hold _ _ Hg) as [He | Hc].
    * rewrite He in Hx. contradiction.
    * eauto.
- destruct (Hold _ _ Hin) as [He | Hc].
  + rewrite He in Hx. contradiction.
  + eauto.
Qed.

(** ** Relationship discovery *)

Lemma pushReverse_set (id : string) (graph : JsMap.t (list Relationship))
    (rel : Relationship) :
  pushReverse id graph rel =
  JsMap.set (targetId rel) (edgesOf (targetId rel) graph ++ [reverseOf id rel]) graph.
Proof.
unfold pushReverse, edgesOf, JsMap.has.
destruct (JsMap.get (targetId rel) graph) as [edges |] eqn:Hg.
- now rewrite Hg.
- rewrite map_get_set_same. cbn [app]. apply map_set_set.
Qed.

Lemma pushReverse_keys (id : string) (rels : list Relationship)
    (graph : JsMap.t (list Relationship)) (k : string) :
  In k (JsMap.keys (fold_left (pushReverse id) rels graph)) ->
  In k (JsMap.keys graph) \/ exists rel, In rel rels /\ k = targetId rel.
Proof.
revert graph. induction rels as [|rel rels IH]; intro graph; simpl; [auto |].
intro Hk. apply IH in Hk as [Hk | (r & Hr & ->)]; [| eauto].
rewrite pushReverse_set in Hk. apply map_keys_set_In in Hk as [-> | Hk]; eauto.
Qed.

(** Edges already in a list survive the later pushes. *)
Lemma pushReverse_keeps (id : string) (rels : list Relationship)
    (graph : JsMap.t (list Relationship)) (k : string) (edge : Relationship) :
  In edge (edgesOf k graph) ->
  In edge (edgesOf k (fold_left (pushReverse id) rels graph)).
Proof.
revert graph. induction rels as [|rel rels IH]; intro graph; simpl; [auto |].
intro He. apply IH. rewrite pushReverse_set. unfold edgesOf at 1.
destruct (String.eqb k (targetId rel)) eqn:Hk.
- apply String.eqb_eq in Hk. subst k. rewrite map_get_set_same.
  apply in_or_app. now left.
- apply String.eqb_neq in Hk. rewrite map_get_set_other by exact Hk. exact He.
Qed.

Lemma pushReverse_adds (id : string) (rels : list Relationship)
    (graph : JsMap.t (list Relationship)) (rel : Relationship) :
  In rel rels ->
  In (reverseOf id rel) (edgesOf (targetId rel) (fold_left (pushReverse id) rels graph)).
Proof.
revert graph. induction rels as [|r rels IH]; intro graph; simpl; [tauto |].
intros [-> | Hin]; [| now apply IH].
apply pushReverse_keeps. rewrite pushReverse_set. unfold edgesOf at 1.
rewrite map_get_set_same. apply in_or_app. right. now left.
Qed.

Lemma similar_targets (id : string) (index : JsMap.t EmbeddingsTensor)
    (f : string -> EmbeddingsTensor -> list Relationship) (rel : Relationship) :
  (forall k t r, In r (f k t) -> targetId r = k) ->
  In rel (flat_map (fun kv : string * EmbeddingsTensor =>
                      let (k, t) := kv in
                      if String.eqb k id then [] else f k t) index) ->
  targetId rel <> id /\ In (targetId rel) (JsMap.keys index).
Proof.
intros Hf Hin. apply in_flat_map in Hin as ([k t] & Hkt & Hr).
destruct (String.eqb k id) eqn:He; [contradiction |].
apply String.eqb_neq in He. apply Hf in Hr. rewrite Hr.
split; [exact He |]. apply (in_map fst) in Hkt. exact Hkt.
Qed.

Section DiscoveryFacts.
Context `{Platform}.

(** Where the targets of the discovered edges come from. *)
Lemma discovered_targets (id : string) (e : MemoryEntry) (st : Store)
    (rel : Relationship) :
  In rel (discoveredRelationships id e st) ->
  targetId rel <> id /\
  ((exists key s, In (key, s) (domainClusters st) /\ In (targetId rel) s) \/
   In (targetId rel) (JsMap.keys (embeddingIndex st)) \/
   (exists key s, In (key, s) (day (temporalBuckets st)) /\ In (targetId rel) s)).
Proof.
unfold discoveredRelationships.
set (domainEdges := map _ (findDomainRelatedMemories _ _ _)).
set (temporalEdges := map _ (findTemporallyRelatedMemories _ _ _)).
assert (Hdomain : In rel domainEdges ->
          targetId rel <> id /\
          exists key s, In (key, s) (domainClusters st) /\ In (targetId rel) s).
{ unfold domainEdges, findDomainRelatedMemories. intro Hin.
  apply in_map_iff in Hin as (x & <- & Hx). cbn [targetId].
  apply slice0_incl, filter_In in Hx as [Hx Hne].
  apply negb_true_iff, String.eqb_neq in Hne. split; [exact Hne |].
  apply getSet_In in Hx as (s & Hs & Hx). eauto. }
assert (Htemporal : In rel temporalEdges ->
          targetId rel <> id /\
          exists key s, In (key, s) (day (temporalBuckets st)) /\ In (targetId rel) s).
{ unfold temporalEdges, findTemporallyRelatedMemories. intro Hin.
  apply in_map_iff in Hin as (x & <- & Hx). cbn [targetId].
  apply slice0_incl, filter_In in Hx as [Hx Hne].
  apply negb_true_iff, String.eqb_neq in Hne. split; [exact Hne |].
  apply getSet_In in Hx as (s & Hs & Hx). eauto. }
assert (Hsemantic : In rel (findSemanticallySimilarMemories e id st) ->
          targetId rel <> id /\ In (targetId rel) (JsMap.keys (embeddingIndex st))).
{ unfold findSemanticallySimilarMemories.
  destruct (unified (embeddingsTensor e)) as [target |]; [| contradiction].
  intro Hin. apply slice0_incl, stableSort_In in Hin.
  refine (similar_targets id (embeddingIndex st)
            (fun k t => match unified t with
                        | Some other =>
                            if (0.7 <? similarity (Some target) (Some other))%float
                            then [{| rel_type := "semantic-similar"; targetId := k;
                                     strength := similarity (Some target) (Some other) |}]
                            else []
                        | None => []
                        end) rel _ Hin).
  intros k t r. destruct (unified t); [| contradiction].
  destruct (_ <? _)%float; [| contradiction]. intros [<- | []]. reflexivity. }
assert (Hvisual : In rel (findVisuallySimilarMemories e id st) ->
          targetId rel <> id /\ In (targetId rel) (JsMap.keys (embeddingIndex st))).
{ unfold findVisuallySimilarMemories.
  destruct (et_vision (embeddingsTensor e)) as [target |]; [| contradiction].
  intro Hin. apply slice0_incl, stableSort_In in Hin.
  refine (similar_targets id (embeddingIndex st)
            (fun k t => match et_vision t with
                        | Some other =>
                            if (0.8 <? similarity (Some target) (Some other))%float
                            then [{| rel_type := "visual-similar"; targetId := k;
                                     strength := similarity (Some target) (Some other) |}]
                            else []
                        | None => []
                        end) rel _ Hin).
  intros k t r. destruct (et_vision t); [| contradiction].
  destruct (_ <? _)%float; [| contradiction]. intros [<- | []]. reflexivity. }
intro Hin.
assert (Hcases : In rel domainEdges \/ In rel (findSemanticallySimilarMemories e id st) \/
                 In rel temporalEdges \/ In rel (findVisuallySimilarMemories e id st)).
{ destruct (et_vision (embeddingsTensor e)); rewrite ?in_app_iff in Hin; tauto. }
destruct Hcases as [Hc | [Hc | [Hc | Hc]]].
- destruct (Hdomain Hc). auto.
- destruct (Hsemantic Hc). auto.
- destruct (Htemporal Hc). auto.
- destruct (Hvisual Hc). auto.
Qed.

Lemma discovered_targets_stored (id : string) (e : MemoryEntry) (st : Store)
    (rel : Relationship) :
  Consistent st ->
  In rel (discoveredRelationships id e st) ->
  targetId rel <> id /\ stored st (targetId rel).
Proof.
intros Hc Hin. apply discovered_targets in Hin as (Hne & Hsrc).
split; [exact Hne |].
destruct Hsrc as [(key & s & Hs & Hx) | [Hx | (key & s & Hs & Hx)]].
- exact (domains_stored st Hc key s Hs _ Hx).
- exact (embeddings_stored st Hc _ Hx).
- exact (buckets_stored st Hc Day key s Hs _ Hx).
Qed.
End DiscoveryFacts.

(** ** The indices stay consistent with the canonical table *)

Lemma categories_within (P : string -> Prop) (id : string) (categories : list string)
    (m : JsMap.t JsSet.t) :
  P id -> setsWithin P m ->
  setsWithin P (fold_left (fun m category => addToSetMap category id m) categories m).
Proof.
intro Hid. revert m. induction categories as [|c categories IH]; intros m Hm; simpl.
- exact Hm.
- apply IH. now apply addToSetMap_within.
Qed.

Lemma newStore_consistent (maxMemories : Z) : Consistent (newStore maxMemories).
Proof.
constructor; cbn; try constructor; try tauto.
- intros [] key s [].
- intros key s [].
- intros key s [].
Qed.

Section ConsistencyFacts.
Context `{Platform}.

Lemma stored_indexed (id : string) (e : MemoryEntry) (st : Store) (x : string) :
  stored (indexed id e st) x <-> x = id \/ stored st x.
Proof. unfold stored. rewrite indexed_memoryStore. apply map_keys_set_In. Qed.

Lemma indexed_consistent (id : string) (e : MemoryEntry) (st : Store) :
  Consistent st -> Consistent (indexed id e st).
Proof.
intro Hc.
assert (Hmono : forall x, stored st x -> stored (indexed id e st) x)
  by (intros x Hx; apply stored_indexed; now right).
assert (Hid : stored (indexed id e st) id) by (apply stored_indexed; now left).
constructor.
- rewrite indexed_memoryStore. apply map_set_NoDup, (table_keys_unique st Hc).
- rewrite indexed_clusters. apply (cluster_keys_unique st Hc).
- intro x. rewrite indexed_embeddingIndex.
  destruct (unified (embeddingsTensor e)).
  + intro Hx. apply map_keys_set_In in Hx as [-> | Hx]; [exact Hid |].
    apply Hmono, (embeddings_stored st Hc), Hx.
  + intro Hx. apply Hmono, (embeddings_stored st Hc), Hx.
- intros x t. rewrite indexed_embeddingIndex.
  destruct (unified (embeddingsTensor e)) eqn:Hu.
  + intro Hx. apply map_set_In in Hx as [[-> ->] | Hx]; [now rewrite Hu |].
    exact (embeddings_present st Hc x t Hx).
  + exact (embeddings_present st Hc x t).
- intro g. rewrite indexed_bucket. apply addToSetMap_within; [exact Hid |].
  apply (setsWithin_weaken (stored st)); [exact Hmono | apply (buckets_stored st Hc)].
- rewrite indexed_categories. apply categories_within; [exact Hid |].
  apply (setsWithin_weaken (stored st)); [exact Hmono | apply (categories_stored st Hc)].
- rewrite indexed_domains. apply addToSetMap_within; [exact Hid |].
  apply (setsWithin_weaken (stored st)); [exact Hmono | apply (domains_stored st Hc)].
- rewrite indexed_clusters, indexed_embeddingIndex. intros cid c Hin x Hx.
  pose proof (members_indexed st Hc cid c Hin x Hx) as Hk.
  destruct (unified (embeddingsTensor e)); [| exact Hk].
  apply map_keys_set_In. now right.
- rewrite indexed_graph. intros x Hx. apply Hmono, (graph_keys_stored st Hc), Hx.
Qed.

Lemma discoverRelationships_consistent (id : string) (e : MemoryEntry) (st : Store) :
  Consistent st -> stored st id -> Consistent (discoverRelationships id e st).
Proof.
intros Hc Hid. unfold discoverRelationships.
constructor; cbn [memoryStore conceptClusters embeddingIndex temporalBuckets
                  semanticCategories domainClusters relationshipGraph
                  withRelationshipGraph stored]; try apply Hc.
intros x Hx. apply pushReverse_keys in Hx as [Hx | (rel & Hrel & ->)].
- apply map_keys_set_In in Hx as [-> | Hx]; [exact Hid |].
  apply (graph_keys_stored st Hc), Hx.
- apply (discovered_targets_stored id e st rel Hc Hrel).
Qed.

Lemma updateConceptClusters_consistent (id fresh : string) (now : Z) (e : MemoryEntry)
    (st : Store) :
  Consistent st ->
  (unified (embeddingsTensor e) <> None -> In id (JsMap.keys (embeddingIndex st))) ->
  Consistent (updateConceptClusters id fresh now e st).
Proof.
intros Hc Hid.
pose proof (updateConceptClusters_keys_NoDup id fresh now e st (cluster_keys_unique st Hc))
  as Hnd.
pose proof (updateConceptClusters_members id fresh now e st) as Hmem.
rewrite updateConceptClusters_shape in *.
set (clusters := conceptClusters (updateConceptClusters id fresh now e st)) in *.
constructor; cbn [memoryStore conceptClusters embeddingIndex temporalBuckets
                  semanticCategories domainClusters relationshipGraph
                  withConceptClusters stored] in *; try apply Hc.
- exact Hnd.
- intros cid c Hin x Hx.
  destruct (Hmem cid c Hin x Hx) as [[-> Hu] | (c0 & Hin0 & Hx0)].
  + exact (Hid Hu).
  + exact (members_indexed st Hc cid c0 Hin0 x Hx0).
Qed.

Lemma fanOut_consistent (id fresh : string) (now : Z) (e : MemoryEntry) (st : Store) :
  Consistent st -> Consistent (fanOut id fresh now e st).
Proof.
intro Hc. rewrite fanOut_indexed.
pose proof (indexed_consistent id e st Hc) as Hi.
apply updateConceptClusters_consistent.
- apply discoverRelationships_consistent; [exact Hi |].
  apply stored_indexed. now left.
- intro Hu. unfold discoverRelationships. cbn [embeddingIndex withRelationshipGraph].
  rewrite indexed_embeddingIndex.
  destruct (unified (embeddingsTensor e)); [| contradiction].
  apply map_keys_set_In. now left.
Qed.
End ConsistencyFacts.

Lemma bucketOf_removeMemory (id : string) (st : Store) (g : Granularity) :
  bucketOf g (temporalBuckets (removeMemory id st)) =
  JsMap.mapValues (JsSet.delete id) (bucketOf g (temporalBuckets st)).
Proof. destruct g; reflexivity. Qed.

Lemma stored_removeMemory (id : string) (st : Store) (x : string) :
  stored (removeMemory id st) x <-> stored st x /\ x <> id.
Proof. unfold stored. cbn [memoryStore removeMemory]. apply map_keys_delete_In. Qed.

Lemma forget_within (id : string) (st : Store) (m : JsMap.t JsSet.t) :
  setsWithin (stored st) m ->
  setsWithin (stored (removeMemory id st)) (JsMap.mapValues (JsSet.delete id) m).
Proof.
intros Hm key s Hin x Hx.
apply map_mapValues_In in Hin as (s0 & -> & Hin).
apply set_delete_In in Hx as [Hx Hne].
apply stored_removeMemory. split; [exact (Hm key s0 Hin x Hx) | exact Hne].
Qed.

Lemma removeMemory_consistent (id : string) (st : Store) :
  Consistent st -> Consistent (removeMemory id st).
Proof.
intro Hc. constructor.
- apply map_delete_NoDup, (table_keys_unique st Hc).
- cbn [conceptClusters removeMemory]. rewrite map_keys_mapValues.
  apply (cluster_keys_unique st Hc).
- intros x Hx. cbn [embeddingIndex removeMemory] in Hx.
  apply map_keys_delete_In in Hx as [Hx Hne].
  apply stored_removeMemory. split; [apply (embeddings_stored st Hc), Hx | exact Hne].
- intros x t Hx. cbn [embeddingIndex removeMemory] in Hx.
  apply map_delete_In in Hx as [Hx _]. exact (embeddings_present st Hc x t Hx).
- intro g. rewrite bucketOf_removeMemory. apply forget_within, (buckets_stored st Hc).
- apply forget_within, (categories_stored st Hc).
- apply forget_within, (domains_stored st Hc).
- intros cid c Hin x Hx. cbn [conceptClusters embeddingIndex removeMemory] in *.
  apply map_mapValues_In in Hin as (c0 & -> & Hin).
  cbn [members dropMember] in Hx. apply set_delete_In in Hx as [Hx Hne].
  apply map_keys_delete_In. split; [exact (members_indexed st Hc cid c0 Hin x Hx) | exact Hne].
- intros x Hx. cbn [relationshipGraph removeMemory] in Hx.
  rewrite map_keys_mapValues in Hx. apply map_keys_delete_In in Hx as [Hx Hne].
  apply stored_removeMemory. split; [apply (graph_keys_stored st Hc), Hx | exact Hne].
Qed.

Lemma removeAll_consistent (l : list (string * MemoryEntry)) (st : Store) :
  Consistent st ->
  Consistent (fold_left (fun st kv => removeMemory (fst kv) st) l st).
Proof.
revert st. induction l as [|kv l IH]; intros st Hc; simpl; [exact Hc |].
apply IH, removeMemory_consistent, Hc.
Qed.

Lemma maintainMemoryLimits_consistent (st : Store) :
  Consistent st -> Consistent (maintainMemoryLimits st).
Proof. apply removeAll_consistent. Qed.

Lemma reachable_consistent `{Platform} (st : Store) : Reachable st -> Consistent st.
Proof.
induction 1 as [maxMemories | st id fresh now e _ IH | st id _ IH].
- apply newStore_consistent.
- apply maintainMemoryLimits_consistent, fanOut_consistent, IH.
- apply removeMemory_consistent, IH.
Qed.

(** ** Removal *)

Lemma removeAll_stored (l : list (string * MemoryEntry)) (st : Store) (x : string) :
  stored (fold_left (fun st kv => removeMemory (fst kv) st) l st) x <->
  stored st x /\ ~ In x (map fst l).
Proof.
revert st. induction l as [|kv l IH]; intro st; simpl; [tauto |].
rewrite IH, stored_removeMemory. intuition congruence.
Qed.

Lemma forget_without (id : string) (m : JsMap.t JsSet.t) :
  setsWithin (fun x => x <> id) (JsMap.mapValues (JsSet.delete id) m).
Proof.
intros key s Hin x Hx. apply map_mapValues_In in Hin as (s0 & -> & _).
now apply set_delete_In in Hx.
Qed.

Lemma twoVisits_reachable : Reachable twoVisits.
Proof.
unfold twoVisits, oneVisit, storeMemory.
cbn [createMemoryEntry visit sampleResult or_agentResults or_qualityMetrics
     or_orchestratorSynthesis or_orchestrationMetadata fst].
repeat constructor.
Qed.

(** C2, as stated: [removeMemory] strips every edge that targets the
    removed record and recomputes the centroids, so that nothing refers
    to an absent record.  It fails on each count: after two visits to one
    site on one day in a memory of capacity one, the surviving record
    keeps an edge to the evicted one, which is also still listed in the
    embedding buckets; and a cluster that loses a member keeps the
    centroid it had. *)
Lemma eviction_leaves_references :
  Reachable twoVisits /\
  stored twoVisits "memory-2" /\ ~ stored twoVisits "memory-1" /\
  In {| rel_type := "temporal-related"; targetId := "memory-1"; strength := 0.5 |}
     (edgesOf "memory-2" (relationshipGraph twoVisits)) /\
  embeddingBuckets twoVisits = Some [("default", ["memory-1"; "memory-2"])] /\
  option_map members (JsMap.get "cluster-1" (conceptClusters twoAlike))
    = Some ["memory-1"; "memory-2"] /\
  option_map members
    (JsMap.get "cluster-1" (conceptClusters (removeMemory "memory-1" twoAlike)))
    = Some ["memory-2"] /\
  option_map centroid
    (JsMap.get "cluster-1" (conceptClusters (removeMemory "memory-1" twoAlike)))
    = Some (arithmeticMean [[1; 0]; [0.9; 0.1]]%float) /\
  arithmeticMean [[1; 0]; [0.9; 0.1]]%float <> arithmeticMean [[0.9; 0.1]]%float.
Proof.
split; [exact twoVisits_reachable |].
split; [vm_compute; tauto |].
split; [vm_compute; intuition discriminate |].
split; [vm_compute; tauto |].
repeat split; try (vm_compute; reflexivity).
vm_compute. discriminate.
Qed.

(** C2, amended.  [removeMemory id] deletes [id] from the canonical
    table, from the embedding index, from the keys of the relationship
    graph, from every temporal bucket of every granularity, from every
    category and domain set and from the members of every cluster; the
    centroids stay as they were.  Consequently, after any sequence of
    inserts and removals, the embedding index, the temporal, category and
    domain indices, the cluster memberships and the keys of the
    relationship graph refer to records of the canonical table only. *)
Theorem remove_memory_consistency `{Platform} (st : Store) (id : string) :
  let st' := removeMemory id st in
  ~ stored st' id /\
  ~ In id (JsMap.keys (embeddingIndex st')) /\
  ~ In id (JsMap.keys (relationshipGraph st')) /\
  (forall g, setsWithin (fun x => x <> id) (bucketOf g (temporalBuckets st'))) /\
  setsWithin (fun x => x <> id) (semanticCategories st') /\
  setsWithin (fun x => x <> id) (domainClusters st') /\
  (forall cid c, In (cid, c) (conceptClusters st') -> ~ In id (members c)) /\
  (forall cid, option_map centroid (JsMap.get cid (conceptClusters st')) =
               option_map centroid (JsMap.get cid (conceptClusters st))) /\
  (Reachable st -> Consistent st /\ Consistent st').
Proof.
cbv zeta.
split. { intro Hs. now apply stored_removeMemory in Hs. }
split.
{ cbn [embeddingIndex removeMemory]. intro Hk. now apply map_keys_delete_In in Hk. }
split.
{ cbn [relationshipGraph removeMemory]. rewrite map_keys_mapValues.
  intro Hk. now apply map_keys_delete_In in Hk. }
split. { intro g. rewrite bucketOf_removeMemory. apply forget_without. }
split. { apply forget_without. }
split. { apply forget_without. }
split.
{ intros cid c Hin Hid. cbn [conceptClusters removeMemory] in Hin.
  apply map_mapValues_In in Hin as (c0 & -> & _). cbn [members dropMember] in Hid.
  now apply set_delete_In in Hid. }
split.
{ intro cid. cbn [conceptClusters removeMemory]. rewrite map_get_mapValues.
  now destruct (JsMap.get cid (conceptClusters st)). }
intro Hr. apply reachable_consistent in Hr.
split; [exact Hr | now apply removeMemory_consistent].
Qed.

Lemma remove_memory_consistency_witness :
  Reachable twoVisits /\ Consistent (removeMemory "memory-2" twoVisits).
Proof.
split; [exact twoVisits_reachable |].
apply (remove_memory_consistency twoVisits "memory-2"). exact twoVisits_reachable.
Defined.

(** ** Fan-out *)

Lemma categories_get_mono (id x c : string) (categories : list string)
    (m : JsMap.t JsSet.t) :
  (exists s, JsMap.get c m = Some s /\ In x s) ->
  exists s, JsMap.get c (fold_left (fun m category => addToSetMap category id m)
                           categories m) = Some s /\ In x s.
Proof.
revert m. induction categories as [|c0 categories IH]; intros m Hm; simpl; [exact Hm |].
apply IH, addToSetMap_get_mono, Hm.
Qed.

Lemma categories_get (id c : string) (categories : list string) (m : JsMap.t JsSet.t) :
  In c categories ->
  exists s, JsMap.get c (fold_left (fun m category => addToSetMap category id m)
                           categories m) = Some s /\ In id s.
Proof.
revert m. induction categories as [|c0 categories IH]; intros m; simpl; [tauto |].
intros [-> | Hin]; [| now apply IH].
apply categories_get_mono, addToSetMap_get_same.
Qed.

Section FanOutFacts.
Context `{Platform}.

Lemma fanOut_fanned (id fresh : string) (now : Z) (e : MemoryEntry) (st : Store) :
  Consistent st -> ~ stored st id ->
  FannedOut (fanOut id fresh now e st) id e.
Proof.
intros Hc Hfresh. unfold FannedOut, inOwnBucketOnly.
rewrite fanOut_embeddingIndex, fanOut_buckets, fanOut_domains, fanOut_categories.
rewrite indexed_embeddingIndex, indexed_domains, indexed_categories.
split; [| split; [| split]].
- destruct (unified (embeddingsTensor e)); [| contradiction].
  intros _. apply map_keys_set_In. now left.
- intro g. rewrite indexed_bucket. split; [apply addToSetMap_get_same |].
  intros key s Hin Hid.
  destruct (addToSetMap_In _ _ _ _ _ Hin id Hid) as [[_ ->] | (s0 & Hin0 & Hid0)];
    [reflexivity |].
  exfalso. apply Hfresh. exact (buckets_stored st Hc g key s0 Hin0 id Hid0).
- apply addToSetMap_get_same.
- intros category Hin. now apply categories_get.
Qed.

Lemma forget_get (x id key : string) (m : JsMap.t JsSet.t) :
  id <> x ->
  (exists s, JsMap.get key m = Some s /\ In id s) ->
  exists s, JsMap.get key (JsMap.mapValues (JsSet.delete x) m) = Some s /\ In id s.
Proof.
intros Hne (s & Hg & Hid). rewrite map_get_mapValues, Hg. cbn [option_map].
eexists. split; [reflexivity |]. apply set_delete_In. auto.
Qed.

Lemma removeMemory_fanned (x id : string) (e : MemoryEntry) (st : Store) :
  id <> x -> FannedOut st id e -> FannedOut (removeMemory x st) id e.
Proof.
intros Hne (Hemb & Hbuckets & Hdomain & Hcategories).
unfold FannedOut, inOwnBucketOnly.
split; [| split; [| split]].
- intro Hu. cbn [embeddingIndex removeMemory]. apply map_keys_delete_In. auto.
- intro g. rewrite bucketOf_removeMemory. destruct (Hbuckets g) as [Hget Honly].
  split; [now apply forget_get |].
  intros key s Hin Hid. apply map_mapValues_In in Hin as (s0 & -> & Hin).
  apply set_delete_In in Hid as [Hid _]. exact (Honly key s0 Hin Hid).
- cbn [domainClusters removeMemory]. now apply forget_get.
- intros category Hin. cbn [semanticCategories removeMemory].
  apply forget_get; auto.
Qed.

Lemma removeAll_fanned (l : list (string * MemoryEntry)) (id : string) (e : MemoryEntry)
    (st : Store) :
  ~ In id (map fst l) -> FannedOut st id e ->
  FannedOut (fold_left (fun st kv => removeMemory (fst kv) st) l st) id e.
Proof.
revert st. induction l as [|kv l IH]; intros st Hl Hf; simpl; [exact Hf |].
simpl in Hl. apply IH; [tauto |]. apply removeMemory_fanned; [| exact Hf].
intro He. apply Hl. left. now symmetry.
Qed.

Lemma removeAll_embeddingIndex (l : list (string * MemoryEntry)) (st : Store) (x : string) :
  In x (JsMap.keys (embeddingIndex
          (fold_left (fun st kv => removeMemory (fst kv) st) l st))) ->
  In x (JsMap.keys (embeddingIndex st)).
Proof.
revert st. induction l as [|kv l IH]; intro st; simpl; [auto |].
intro Hx. apply IH in Hx. cbn [embeddingIndex removeMemory] in Hx.
now apply map_keys_delete_In in Hx.
Qed.

Lemma createMemoryEntry_no_embedding (id : string) (r : OrchestrationResult)
    (e : MemoryEntry) :
  createMemoryEntry id r = Ok e ->
  unified (embeddingsTensor e) = None /\ memoryId e = id /\
  timestamp e = or_timestamp r /\ domain e = extractDomain (or_url r).
Proof.
unfold createMemoryEntry.
destruct (or_agentResults r); [| discriminate].
destruct (or_qualityMetrics r); [| discriminate].
destruct (or_orchestratorSynthesis r); [| discriminate].
destruct (or_orchestrationMetadata r); [| discriminate].
intros [= <-]. repeat split.
Qed.
End FanOutFacts.

Lemma maintainMemoryLimits_within_capacity (st : Store) :
  (Z.of_nat (List.length (memoryStore st)) <= maxMemories st)%Z ->
  maintainMemoryLimits st = st.
Proof.
intro Hle. unfold maintainMemoryLimits, toRemove.
apply Z.leb_le in Hle. now rewrite Hle.
Qed.



(** ** Reciprocity of the discovered edges *)

Lemma spliceFirst_keeps {A : Type} (p : A -> bool) (l : list A) (x : A) :
  p x = false -> In x l -> In x (spliceFirst p l).
Proof.
intro Hp. induction l as [|y l IH]; simpl; [tauto |].
intros [-> | Hin].
- rewrite Hp. now left.
- destruct (p y); [exact Hin | right; auto].
Qed.

Lemma pushReverse_other (id k : string) (rels : list Relationship)
    (graph : JsMap.t (list Relationship)) :
  (forall rel, In rel rels -> targetId rel <> k) ->
  JsMap.get k (fold_left (pushReverse id) rels graph) = JsMap.get k graph.
Proof.
revert graph. induction rels as [|rel rels IH]; intros graph Hne; simpl; [reflexivity |].
rewrite IH by (intros r Hr; apply Hne; now right).
rewrite pushReverse_set. apply map_get_set_other.
intro He. apply (Hne rel); [now left | now symmetry].
Qed.

Lemma removeMemory_keeps_edge (x k : string) (edge : Relationship) (st : Store) :
  k <> x -> targetId edge <> x ->
  In edge (edgesOf k (relationshipGraph st)) ->
  In edge (edgesOf k (relationshipGraph (removeMemory x st))).
Proof.
intros Hk Ht. unfold edgesOf. cbn [relationshipGraph removeMemory].
rewrite map_get_mapValues, map_get_delete_other by exact Hk.
destruct (JsMap.get k (relationshipGraph st)) as [edges |]; [| tauto].
cbn [option_map]. apply spliceFirst_keeps. now apply String.eqb_neq.
Qed.

Lemma removeAll_keeps_edge (l : list (string * MemoryEntry)) (k : string)
    (edge : Relationship) (st : Store) :
  ~ In k (map fst l) -> ~ In (targetId edge) (map fst l) ->
  In edge (edgesOf k (relationshipGraph st)) ->
  In edge (edgesOf k (relationshipGraph
                        (fold_left (fun st kv => removeMemory (fst kv) st) l st))).
Proof.
revert st. induction l as [|kv l IH]; intros st Hk Ht Hin; simpl; [exact Hin |].
simpl in Hk, Ht. apply IH; [tauto | tauto |].
apply removeMemory_keeps_edge; [| | exact Hin]; intro He.
- apply Hk. left. now symmetry.
- apply Ht. left. now symmetry.
Qed.

(** C6, as stated: after the insert, every discovered edge has its reverse
    in the target's list.  It fails when the capacity check of the same
    insert evicts the target: the second visit discovers two edges to the
    first one, the first one is evicted, and the edge that the removal
    leaves has no reverse. *)
Lemma reverse_edge_lost_with_evicted_target :
  let a := "memory-2" in
  let edge := {| rel_type := "temporal-related"; targetId := "memory-1"; strength := 0.5 |} in
  In edge (discoveredRelationships a
             (plainEntry a (TsNumber (noon + 60000)) "https://example.com/b" None)
             (indexed a (plainEntry a (TsNumber (noon + 60000)) "https://example.com/b" None)
                oneVisit)) /\
  In edge (edgesOf a (relationshipGraph twoVisits)) /\
  ~ In (reverseOf a edge) (edgesOf (targetId edge) (relationshipGraph twoVisits)).
Proof.
cbv zeta. split; [vm_compute; tauto |]. split; [vm_compute; tauto |].
vm_compute. tauto.
Qed.

(** C6, amended.  The edges discovered during the insertion of record [A]
    never target [A]; when relationship discovery has run, [A]'s edge
    list is the list of discovered edges and, for each of them, [A -> B]
    of kind [K] and strength [S], [B]'s list holds [B -> A] of kind
    [K + "-reverse"] and strength [S].  The reverse edge is still there
    when the insert returns provided that the capacity check of that
    insert has evicted neither [A] nor [B]. *)
Theorem relationship_reciprocity `{Platform}
    (st : Store) (id fresh : string) (now : Z) (e : MemoryEntry) (rel : Relationship) :
  let discovered := discoveredRelationships id e (indexed id e st) in
  let written := fanOut id fresh now e st in
  let st' := insertEntry id fresh now e st in
  In rel discovered ->
  targetId rel <> id /\
  edgesOf id (relationshipGraph written) = discovered /\
  In (reverseOf id rel) (edgesOf (targetId rel) (relationshipGraph written)) /\
  (stored st' id -> stored st' (targetId rel) ->
   In (reverseOf id rel) (edgesOf (targetId rel) (relationshipGraph st'))).
Proof.
intros discovered written st' Hin.
assert (Hne : forall r, In r discovered -> targetId r <> id)
  by (intros r Hr; now apply discovered_targets in Hr).
assert (Hrev : In (reverseOf id rel) (edgesOf (targetId rel) (relationshipGraph written))).
{ unfold written. rewrite fanOut_graph. unfold discoverRelationships.
  cbn [relationshipGraph withRelationshipGraph]. now apply pushReverse_adds. }
split; [now apply Hne |]. split; [| split; [exact Hrev |]].
- unfold written. rewrite fanOut_graph. unfold discoverRelationships, edgesOf.
  cbn [relationshipGraph withRelationshipGraph].
  rewrite pushReverse_other by exact Hne. now rewrite map_get_set_same.
- intros Hid Htarget. unfold st', insertEntry, maintainMemoryLimits in *.
  apply removeAll_stored in Hid as [_ Hid].
  apply removeAll_stored in Htarget as [_ Htarget].
  apply removeAll_keeps_edge; [exact Htarget | exact Hid | exact Hrev].
Qed.

Lemma relationship_reciprocity_witness :
  In {| rel_type := "domain-related-reverse"; targetId := "memory-2";
        strength := 0.7 |}
     (edgesOf "memory-1"
        (relationshipGraph
           (fanOut "memory-2" "cluster-2" (noon + 60000)
              (plainEntry "memory-2" (TsNumber (noon + 60000)) "https://example.com/b" None)
              oneVisit))).
Proof.
refine (proj1 (proj2 (proj2
          (relationship_reciprocity oneVisit "memory-2" "cluster-2" (noon + 60000)
             (plainEntry "memory-2" (TsNumber (noon + 60000)) "https://example.com/b" None)
             {| rel_type := "domain-related"; targetId := "memory-1"; strength := 0.7 |}
             _)))).
vm_compute. tauto.
Defined.

(** ** Eviction order *)

Section KeySort.
Context {A : Type} (key : A -> Z) (idx : A -> nat).

Lemma sortInsert_sorted (x : A) (l : list A) :
  StronglySorted (olderBy key idx) l ->
  Forall (fun y => idx y < idx x) l ->
  StronglySorted (olderBy key idx) (sortInsert (keyAfter key) x l).
Proof.
induction l as [|y l IH]; intros Hs Hidx; simpl.
- repeat constructor.
- apply StronglySorted_inv in Hs as [Hs Hy].
  apply Forall_cons_iff in Hidx as [Hyx Hidx].
  unfold keyAfter at 1. destruct (key x <? key y)%Z eqn:Hk.
  + apply Z.ltb_lt in Hk. constructor; [constructor; assumption |].
    constructor; [now left |].
    rewrite Forall_forall in Hy |- *. intros z Hz.
    destruct (Hy z Hz) as [Hlt | [Heq _]]; left; lia.
  + apply Z.ltb_ge in Hk. constructor; [now apply IH |].
    rewrite Forall_forall in Hy |- *. intros z Hz.
    apply (Permutation_in _ (sortInsert_perm _ x l)) in Hz as [<- | Hz]; [| auto].
    unfold olderBy. lia.
Qed.

Lemma sort_from_sorted (l acc : list A) :
  StronglySorted (olderBy key idx) acc ->
  StronglySorted (fun a b => idx a < idx b) l ->
  (forall y x, In y acc -> In x l -> idx y < idx x) ->
  StronglySorted (olderBy key idx)
    (fold_left (fun acc x => sortInsert (keyAfter key) x acc) l acc).
Proof.
revert acc. induction l as [|x l IH]; intros acc Hacc Hl Hlt; simpl; [exact Hacc |].
apply StronglySorted_inv in Hl as [Hl Hx]. rewrite Forall_forall in Hx.
apply IH; [| exact Hl |].
- apply sortInsert_sorted; [exact Hacc |].
  apply Forall_forall. intros y Hy. apply Hlt; [exact Hy | now left].
- intros y z Hy Hz.
  apply (Permutation_in _ (sortInsert_perm _ x acc)) in Hy as [<- | Hy].
  + now apply Hx.
  + apply Hlt; [exact Hy | now right].
Qed.

Lemma stableSort_sorted (l : list A) :
  StronglySorted (fun a b => idx a < idx b) l ->
  StronglySorted (olderBy key idx) (stableSort (keyAfter key) l).
Proof.
intro Hl. apply sort_from_sorted; [constructor | exact Hl |].
intros y x [].
Qed.
End KeySort.

Lemma sorted_app_pairs {A : Type} (R : A -> A -> Prop) (l1 l2 : list A) :
  StronglySorted R (l1 ++ l2) ->
  forall a b, In a l1 -> In b l2 -> R a b.
Proof.
induction l1 as [|x l1 IH]; simpl; intros Hs a b Ha Hb; [contradiction |].
apply StronglySorted_inv in Hs as [Hs Hx]. destruct Ha as [<- | Ha]; [| eauto].
rewrite Forall_forall in Hx. apply Hx, in_or_app. now right.
Qed.

Lemma sortInsert_ext {A : Type} (after1 after2 : A -> A -> bool) (x : A) (l : list A) :
  (forall y, In y l -> after1 y x = after2 y x) ->
  sortInsert after1 x l = sortInsert after2 x l.
Proof.
induction l as [|y l IH]; intro He; simpl; [reflexivity |].
rewrite (He y) by now left. destruct (after2 y x); [reflexivity |].
rewrite IH; [reflexivity |]. intros z Hz. apply He. now right.
Qed.

Lemma sort_from_ext {A : Type} (after1 after2 : A -> A -> bool) (l acc : list A) :
  (forall x y, In x (acc ++ l) -> In y (acc ++ l) -> after1 x y = after2 x y) ->
  fold_left (fun acc x => sortInsert after1 x acc) l acc =
  fold_left (fun acc x => sortInsert after2 x acc) l acc.
Proof.
revert acc. induction l as [|x l IH]; intros acc He; simpl; [reflexivity |].
rewrite (sortInsert_ext after1 after2 x acc).
- apply IH. intros y z Hy Hz. apply He.
  + apply in_app_or in Hy as [Hy | Hy]; [| apply in_or_app; right; now right].
    apply (Permutation_in _ (sortInsert_perm _ x acc)) in Hy as [<- | Hy];
      apply in_or_app; [right; now left | now left].
  + apply in_app_or in Hz as [Hz | Hz]; [| apply in_or_app; right; now right].
    apply (Permutation_in _ (sortInsert_perm _ x acc)) in Hz as [<- | Hz];
      apply in_or_app; [right; now left | now left].
- intros y Hy. apply He; apply in_or_app; [now left | right; now left].
Qed.

Lemma stableSort_ext {A : Type} (after1 after2 : A -> A -> bool) (l : list A) :
  (forall x y, In x l -> In y l -> after1 x y = after2 x y) ->
  stableSort after1 l = stableSort after2 l.
Proof. intro He. apply sort_from_ext. exact He. Qed.

Lemma timestampAfter_key (table : JsMap.t MemoryEntry) :
  uniformTimestamps table ->
  forall y x, In y table -> In x table ->
  timestampAfter y x = keyAfter sortKey y x.
Proof.
intros Hu y x Hy Hx. unfold timestampAfter, keyAfter, sortKey.
destruct Hu as [Hu | Hu]; rewrite Forall_forall in Hu;
  pose proof (Hu y Hy) as Hny; pose proof (Hu x Hx) as Hnx;
  unfold isNumeric in Hny, Hnx;
  destruct (timestamp (snd y)), (timestamp (snd x)); try discriminate; try reflexivity.
destruct (ms0 <? ms)%Z eqn:Hlt.
- apply Z.ltb_lt in Hlt. apply Z.ltb_lt. lia.
- apply Z.ltb_ge in Hlt. apply Z.ltb_ge. lia.
Qed.

(** *** Positions in insertion order *)

Lemma position_app_fresh (k : string) (l1 l2 : list string) :
  ~ In k l1 -> position k (l1 ++ k :: l2) = List.length l1.
Proof.
induction l1 as [|k' l1 IH]; simpl; intro Hk.
- now rewrite String.eqb_refl.
- destruct (String.eqb k k') eqn:He.
  + apply String.eqb_eq in He. subst. tauto.
  + rewrite IH; tauto.
Qed.

Lemma position_sorted_from (pre rest : JsMap.t MemoryEntry) :
  NoDup (JsMap.keys (pre ++ rest)) ->
  StronglySorted
    (fun a b => insertionIndex (pre ++ rest) a < insertionIndex (pre ++ rest) b) rest.
Proof.
revert pre. induction rest as [|[k v] rest IH]; intros pre Hnd; [constructor |].
constructor.
- replace (pre ++ (k, v) :: rest) with ((pre ++ [(k, v)]) ++ rest)
    by now rewrite <- app_assoc.
  apply IH. now rewrite <- app_assoc.
- apply Forall_forall. intros [k' v'] Hb.
  apply in_split in Hb as (r1 & r2 & ->).
  unfold insertionIndex, JsMap.keys in *. cbn [fst].
  rewrite map_app in Hnd. cbn [map fst] in Hnd.
  rewrite map_app. cbn [map fst].
  rewrite position_app_fresh.
  2:{ apply NoDup_remove_2 in Hnd. intro Hk. apply Hnd, in_or_app. now left. }
  rewrite map_app in Hnd |- *. cbn [map fst] in Hnd |- *.
  replace (map fst pre ++ k :: map fst r1 ++ k' :: map fst r2)
    with ((map fst pre ++ k :: map fst r1) ++ k' :: map fst r2) in Hnd |- *
    by (rewrite <- app_assoc; reflexivity).
  rewrite position_app_fresh.
  2:{ apply NoDup_remove_2 in Hnd. intro Hk. apply Hnd, in_or_app. now left. }
  rewrite length_app. simpl. rewrite !length_map. lia.
Qed.

Lemma position_sorted (table : JsMap.t MemoryEntry) :
  NoDup (JsMap.keys table) ->
  StronglySorted (fun a b => insertionIndex table a < insertionIndex table b) table.
Proof. apply (position_sorted_from [] table). Qed.

Lemma position_lt (k : string) (l : list string) :
  In k l -> position k l < List.length l.
Proof.
induction l as [|k' l IH]; simpl; [tauto |].
destruct (String.eqb k k') eqn:He; [lia |].
apply String.eqb_neq in He. intros [Hk | Hk]; [congruence |].
apply IH in Hk. lia.
Qed.

Lemma position_app_l (k : string) (l1 l2 : list string) :
  In k l1 -> position k (l1 ++ l2) = position k l1.
Proof.
induction l1 as [|k' l1 IH]; simpl; [tauto |].
destruct (String.eqb k k') eqn:He; [reflexivity |].
apply String.eqb_neq in He. intros [Hk | Hk]; [congruence |].
now rewrite IH.
Qed.

(** *** Size of the table after the removals *)

Lemma map_delete_absent {V : Type} (k : string) (m : JsMap.t V) :
  ~ In k (JsMap.keys m) -> JsMap.delete k m = m.
Proof.
unfold JsMap.delete. induction m as [|[k' v'] m IH]; simpl; intro Hk; [reflexivity |].
destruct (String.eqb k k') eqn:He.
- apply String.eqb_eq in He. subst. tauto.
- simpl. rewrite IH; tauto.
Qed.

Lemma map_delete_length {V : Type} (k : string) (m : JsMap.t V) :
  NoDup (JsMap.keys m) -> In k (JsMap.keys m) ->
  S (List.length (JsMap.delete k m)) = List.length m.
Proof.
induction m as [|[k' v'] m IH]; simpl; [tauto |].
intros Hnd Hk. inversion Hnd as [|? ? Hk' Hnd']; subst.
unfold JsMap.delete in *. simpl.
destruct (String.eqb k k') eqn:He; simpl.
- apply String.eqb_eq in He. subst k'.
  fold (JsMap.delete k m). now rewrite map_delete_absent.
- apply String.eqb_neq in He. destruct Hk as [Hk | Hk]; [congruence |].
  now rewrite IH.
Qed.

Lemma removeAll_length (l : list (string * MemoryEntry)) (st : Store) :
  NoDup (JsMap.keys (memoryStore st)) -> NoDup (map fst l) ->
  (forall k, In k (map fst l) -> stored st k) ->
  List.length (memoryStore (fold_left (fun st kv => removeMemory (fst kv) st) l st))
  + List.length l = List.length (memoryStore st).
Proof.
revert st. induction l as [|kv l IH]; intros st Hnd Hl Hin; simpl; [lia |].
simpl in Hl. inversion Hl as [|? ? Hk Hl']; subst.
rewrite Nat.add_succ_r, IH.
- cbn [memoryStore removeMemory]. apply map_delete_length; [exact Hnd |].
  apply Hin. now left.
- cbn [memoryStore removeMemory]. now apply map_delete_NoDup.
- exact Hl'.
- intros k Hk'. apply stored_removeMemory. split.
  + apply Hin. now right.
  + intro He. subst. contradiction.
Qed.

Lemma removeAll_In (l : list (string * MemoryEntry)) (st : Store)
    (kv : string * MemoryEntry) :
  In kv (memoryStore (fold_left (fun st kv => removeMemory (fst kv) st) l st)) <->
  In kv (memoryStore st) /\ ~ In (fst kv) (map fst l).
Proof.
revert st. induction l as [|x l IH]; intro st; simpl; [tauto |].
rewrite IH. cbn [memoryStore removeMemory]. destruct kv as [k v].
rewrite map_delete_In. cbn [fst]. intuition congruence.
Qed.

Lemma NoDup_firstn {A : Type} (n : nat) (l : list A) : NoDup l -> NoDup (firstn n l).
Proof.
intro Hnd. rewrite <- (firstn_skipn n l) in Hnd. now apply NoDup_app_remove_r in Hnd.
Qed.

Lemma toRemove_over_capacity (st : Store) :
  (maxMemories st < Z.of_nat (List.length (memoryStore st)))%Z ->
  (0 <= maxMemories st)%Z ->
  toRemove st =
  firstn (List.length (memoryStore st) - Z.to_nat (maxMemories st))
         (stableSort timestampAfter (memoryStore st)).
Proof.
intros Hover Hmax. unfold toRemove, slice0.
destruct (_ <=? _)%Z eqn:Hle; [apply Z.leb_le in Hle; lia |].
destruct (_ <? 0)%Z eqn:Hneg; [apply Z.ltb_lt in Hneg; lia |].
f_equal. lia.
Qed.

Lemma toRemove_stored (st : Store) (kv : string * MemoryEntry) :
  In kv (toRemove st) -> In kv (memoryStore st).
Proof.
unfold toRemove. destruct (_ <=? _)%Z; [contradiction |].
intro Hin. apply slice0_incl in Hin. now apply stableSort_In in Hin.
Qed.

Lemma toRemove_keys_NoDup (st : Store) :
  NoDup (JsMap.keys (memoryStore st)) -> NoDup (map fst (toRemove st)).
Proof.
intro Hnd. unfold toRemove. destruct (_ <=? _)%Z; [constructor |].
unfold slice0.
assert (Hs : NoDup (map fst (stableSort timestampAfter (memoryStore st)))).
{ eapply Permutation_NoDup; [| exact Hnd].
  apply Permutation_map. symmetry. apply stableSort_perm. }
destruct (_ <? 0)%Z; rewrite <- firstn_map; now apply NoDup_firstn.
Qed.

Lemma entry_unique (table : JsMap.t MemoryEntry) (a b : string * MemoryEntry) :
  NoDup (JsMap.keys table) -> In a table -> In b table -> fst a = fst b -> a = b.
Proof.
intros Hnd Ha Hb He. destruct a as [k v], b as [k' v']. cbn [fst] in He. subst k'.
apply (map_In_get _ _ _ Hnd) in Ha. apply (map_In_get _ _ _ Hnd) in Hb.
congruence.
Qed.

Lemma oneVisit_reachable : Reachable oneVisit.
Proof.
unfold oneVisit, storeMemory.
cbn [createMemoryEntry visit sampleResult or_agentResults or_qualityMetrics
     or_orchestratorSynthesis or_orchestrationMetadata fst].
repeat constructor.
Qed.

(** C3, as stated: the capacity check never removes the record that was
    just inserted when the capacity is at least one.  It fails: a record
    that arrives with the oldest timestamp of a full memory is removed by
    its own insert, which nevertheless reports it as stored. *)
Lemma late_arrival_is_evicted :
  (1 <= maxMemories oneVisit)%Z /\
  ~ stored oneVisit "memory-2" /\
  snd lateArrival = Stored "memory-2" 0 0 /\
  ~ stored (fst lateArrival) "memory-2" /\
  JsMap.keys (memoryStore (fst lateArrival)) = ["memory-1"].
Proof.
split; [vm_compute; discriminate |].
split; [vm_compute; intuition discriminate |].
split; [vm_compute; reflexivity |].
split; [vm_compute; intuition discriminate |].
vm_compute. reflexivity.
Qed.

(** C3, amended.  When the write path leaves the canonical table with
    more entries than a capacity [maxMemories >= 0], the capacity check
    removes records of the table until exactly [maxMemories] are left.
    When the timestamps of the table are all numbers, or all date-time
    strings (which the comparator cannot tell apart), the records removed
    are the first [size - maxMemories] of the table sorted stably by
    timestamp: every removed record is older than every record that
    stays, insertion order breaking ties; and the record just inserted
    stays provided that the capacity is at least one, that the table held
    at most [maxMemories] records before, that its identifier is fresh and
    that some record already stored is not newer than it.  On a table that
    mixes the two forms of timestamp the comparator is not an ordering,
    and nothing is said about which records go. *)
Theorem eviction_policy `{Platform}
    (st : Store) (id fresh : string) (now : Z) (e : MemoryEntry) :
  let written := fanOut id fresh now e st in
  let st' := insertEntry id fresh now e st in
  let table := memoryStore written in
  Reachable st ->
  (maxMemories st < Z.of_nat (List.length table))%Z ->
  (0 <= maxMemories st)%Z ->
  Z.of_nat (List.length (memoryStore st')) = maxMemories st /\
  (forall kv, In kv (memoryStore st') -> In kv table) /\
  (uniformTimestamps table ->
   toRemove written =
     firstn (List.length table - Z.to_nat (maxMemories st))
            (stableSort timestampAfter table) /\
   (forall kv, In kv (memoryStore st') <->
               In kv table /\ ~ In (fst kv) (map fst (toRemove written))) /\
   (forall r s, In r (toRemove written) -> In s (memoryStore st') ->
                olderThan table r s) /\
   ((1 <= maxMemories st)%Z ->
    (Z.of_nat (List.length (memoryStore st)) <= maxMemories st)%Z ->
    ~ stored st id ->
    (exists kv, In kv (memoryStore st) /\ (sortKey kv <= sortKey (id, e))%Z) ->
    stored st' id)).
Proof.
intros written st' table Hr Hover Hmax.
pose proof (fanOut_consistent id fresh now e st (reachable_consistent st Hr)) as Hc.
pose proof (table_keys_unique _ Hc) as Hnd. fold written in Hc, Hnd. fold table in Hnd.
assert (Hmaxw : maxMemories written = maxMemories st) by apply fanOut_maxMemories.
assert (Hrem : toRemove written =
               firstn (List.length table - Z.to_nat (maxMemories st))
                      (stableSort timestampAfter table)).
{ rewrite <- Hmaxw. apply toRemove_over_capacity; rewrite Hmaxw; assumption. }
assert (Hiff : forall kv, In kv (memoryStore st') <->
                 In kv table /\ ~ In (fst kv) (map fst (toRemove written)))
  by (intro kv; apply removeAll_In).
assert (Hold : uniformTimestamps table ->
               forall r s, In r (toRemove written) -> In s (memoryStore st') ->
                           olderThan table r s).
{ intros Hu r s Hin Hs. apply Hiff in Hs as [Hs Hkept].
  set (k := List.length table - Z.to_nat (maxMemories st)) in *.
  rewrite Hrem in Hin, Hkept.
  rewrite (stableSort_ext timestampAfter (keyAfter sortKey) table
             (timestampAfter_key table Hu)) in Hin, Hkept.
  set (sorted := stableSort (keyAfter sortKey) table) in *.
  assert (Hsorted : StronglySorted (olderThan table) sorted)
    by (apply stableSort_sorted, position_sorted, Hnd).
  rewrite <- (firstn_skipn k sorted) in Hsorted.
  apply (sorted_app_pairs _ _ _ Hsorted); [exact Hin |].
  assert (Hss : In s sorted) by (apply stableSort_In; exact Hs).
  rewrite <- (firstn_skipn k sorted) in Hss.
  apply in_app_or in Hss as [Hss | Hss]; [| exact Hss].
  exfalso. apply Hkept. now apply in_map. }
split; [| split; [intros kv Hkv; now apply Hiff in Hkv |
                  intro Hu; split; [exact Hrem | split; [exact Hiff |
                    split; [exact (Hold Hu) |]]]]].
- pose proof (removeAll_length (toRemove written) written Hnd
                (toRemove_keys_NoDup written Hnd)) as Hlen.
  unfold st', insertEntry, maintainMemoryLimits.
  assert (Hk : List.length (toRemove written) =
               List.length table - Z.to_nat (maxMemories st)).
  { rewrite Hrem, length_firstn.
    rewrite (Permutation_length (stableSort_perm timestampAfter table)). lia. }
  rewrite Hk in Hlen. fold table in Hlen.
  assert (Hsub : forall k, In k (map fst (toRemove written)) -> stored written k).
  { intros k Hin. apply in_map_iff in Hin as (kv & <- & Hin).
    apply toRemove_stored in Hin. now apply (in_map fst) in Hin. }
  specialize (Hlen Hsub). unfold table, written in *. lia.
- intros Hone Hbefore Hfresh (kv & Hkv & Hle).
  assert (Htable : table = memoryStore st ++ [(id, e)]).
  { unfold table, written. rewrite fanOut_memoryStore. apply map_set_fresh.
    now apply map_has_false. }
  unfold st', insertEntry, maintainMemoryLimits. apply removeAll_stored.
  split.
  { change (In id (JsMap.keys table)). rewrite Htable. unfold JsMap.keys.
    rewrite map_app. apply in_or_app. right. now left. }
  intro Hgone. apply in_map_iff in Hgone as (r & Hrid & Hrin).
  change (In r (toRemove written)) in Hrin.
  assert (Hr_table : In r table) by now apply toRemove_stored.
  assert (Hnew : In (id, e) table)
    by (rewrite Htable; apply in_or_app; right; now left).
  assert (Hre : r = (id, e)) by (apply (entry_unique table); assumption).
  subst r.
  assert (Hone_removed : List.length (toRemove written) = 1).
  { rewrite Hrem, length_firstn.
    rewrite (Permutation_length (stableSort_perm timestampAfter table)).
    rewrite Htable, length_app in *. simpl in *. lia. }
  assert (Hkv_table : In kv table)
    by (rewrite Htable; apply in_or_app; now left).
  assert (Hkv_key : fst kv <> id).
  { intro He. apply Hfresh. unfold stored. rewrite <- He. now apply in_map. }
  assert (Hkv_kept : In kv (memoryStore st')).
  { apply Hiff. split; [exact Hkv_table |]. intro Hin.
    assert (Hl : exists x, toRemove written = [x]).
    { destruct (toRemove written) as [|x [|y rest]]; simpl in Hone_removed;
        try discriminate. eauto. }
    destruct Hl as (x & Hl). rewrite Hl in Hrin, Hin. simpl in Hrin, Hin.
    destruct Hrin as [-> | []]. destruct Hin as [Hin | []].
    cbn [fst] in Hin. congruence. }
  destruct (Hold Hu (id, e) kv Hrin Hkv_kept) as [Hlt | [_ Hpos]]; [lia |].
  unfold insertionIndex in Hpos. cbn [fst] in Hpos.
  rewrite Htable in Hpos. unfold JsMap.keys in Hpos. rewrite map_app in Hpos.
  cbn [map fst] in Hpos.
  assert (Hin_old : In (fst kv) (map fst (memoryStore st))) by now apply in_map.
  rewrite position_app_fresh in Hpos by exact Hfresh.
  rewrite position_app_l in Hpos by exact Hin_old.
  apply position_lt in Hin_old. lia.
Qed.

Lemma eviction_policy_witness :
  JsMap.keys (memoryStore twoVisits) = ["memory-2"] /\ stored twoVisits "memory-2".
Proof.
pose proof (eviction_policy oneVisit "memory-2" "cluster-2" (noon + 60000)
              (plainEntry "memory-2" (TsNumber (noon + 60000)) "https://example.com/b" None)
              oneVisit_reachable) as Hpolicy.
cbv zeta in Hpolicy.
assert (Hover : (maxMemories oneVisit <
                 Z.of_nat (List.length (memoryStore
                   (fanOut "memory-2" "cluster-2" (noon + 60000)
                      (plainEntry "memory-2" (TsNumber (noon + 60000))
                         "https://example.com/b" None) oneVisit))))%Z)
  by (vm_compute; reflexivity).
assert (Hmax : (0 <= maxMemories oneVisit)%Z) by (vm_compute; discriminate).
assert (Huniform : uniformTimestamps
                     (memoryStore
                        (fanOut "memory-2" "cluster-2" (noon + 60000)
                           (plainEntry "memory-2" (TsNumber (noon + 60000))
                              "https://example.com/b" None) oneVisit)))
  by (left; repeat constructor).
destruct (Hpolicy Hover Hmax) as (_ & _ & Hsorted).
destruct (Hsorted Huniform) as (_ & _ & _ & Hstays).
split; [vm_compute; reflexivity |].
apply Hstays.
- vm_compute. discriminate.
- vm_compute. discriminate.
- vm_compute. intuition discriminate.
- eexists. split; [vm_compute; left; reflexivity |]. vm_compute. discriminate.
Defined.

(** ** Record building on partial input *)

Lemma scanIndex_ids (q : Embedding) (threshold : float)
    (index : JsMap.t EmbeddingsTensor) (table : JsMap.t MemoryEntry)
    (hits : list SearchHit) :
  scanIndex q threshold index table = Ok hits ->
  forall hit, In hit hits -> In (hit_memoryId hit) (JsMap.keys index).
Proof.
revert hits. induction index as [|[k t] index IH]; intros hits; cbn [scanIndex].
- intros [= <-] hit [].
- cbn [JsMap.keys map fst]. fold (JsMap.keys index).
  destruct (unified t) as [u |]; [| intros Hs hit Hin; right; eauto].
  destruct (threshold <=? similarity (Some q) (Some u))%float;
    [| intros Hs hit Hin; right; eauto].
  destruct (JsMap.get k table); [| intros [=]].
  destruct (scanIndex q threshold index table) as [rest | message]; [| intros [=]].
  intros Heq hit Hin. injection Heq as Heq. subst hits.
  destruct Hin as [<- | Hin]; [now left | right; eauto].
Qed.

Lemma withEllipsis_empty (text : option string) :
  truthy text = None -> withEllipsis text = "".
Proof.
unfold withEllipsis. destruct text as [[|c text] |]; [reflexivity | discriminate | reflexivity].
Qed.

Lemma orElse_default (text : option string) (fallback : string) :
  truthy text = None -> orElse text fallback = fallback.
Proof. unfold orElse. now intros ->. Qed.

(** C7, as stated: [storeMemory] never fails on a partial result, and the
    failure of a provider is never surfaced as a failed [storeMemory]
    result.  It fails: the result that the orchestrator builds when an
    orchestration has failed carries no [orchestrationMetadata], and a
    result may as well lack its [orchestratorSynthesis]; on either the
    record builder throws, and [storeMemory] answers [stored: false] with
    the message of the [TypeError] and stores nothing. *)
Lemma store_memory_rejects_a_failed_orchestration :
  storeMemory "memory-1" "cluster-1" noon
    (errorOrchestration noon "https://example.com/a" "timeout") (newStore 5)
  = (newStore 5, NotStored "Cannot read properties of undefined (reading 'processingTime')") /\
  storeMemory "memory-1" "cluster-1" noon
    {| or_timestamp := TsNumber noon; or_url := "https://example.com/a";
       or_agentResults := Some {| ar_text := None; ar_vision := None |};
       or_orchestratorSynthesis := None;
       or_qualityMetrics := Some {| qm_overallScore := None |};
       or_orchestrationMetadata :=
         Some {| om_processingTime := None; om_synthesisApproach := None |};
       or_agentId := None |}
    (newStore 5)
  = (newStore 5, NotStored "Cannot read properties of undefined (reading 'confidence')").
Proof. split; reflexivity. Qed.

(** C7, amended.  For every raw result that carries its four objects
    ([agentResults], [qualityMetrics], [orchestratorSynthesis] and
    [orchestrationMetadata]), whatever is missing inside them,
    [storeMemory] builds a record, writes it to the canonical table and
    reports [stored: true]; the record is still in the table when
    [storeMemory] returns if the table had room for it.  The record has no
    embedding and is therefore in no search result.  Each missing part
    leaves its default: an empty summary or synthesis text, a zero
    confidence, no agent identifier, an empty reasoning, the content type
    "general" and the page type "page", no topics when there is neither a
    summary nor a synthesis, and no categories when there is neither
    metadata nor visual features. *)
Theorem store_memory_accepts_partial_results `{Platform}
    (st : Store) (id fresh : string) (now : Z) (r : OrchestrationResult)
    (agentResults : AgentResults) (quality : QualityMetrics)
    (synthesis : OrchestratorSynthesis) (metadata : OrchestrationMetadata) :
  or_agentResults r = Some agentResults ->
  or_qualityMetrics r = Some quality ->
  or_orchestratorSynthesis r = Some synthesis ->
  or_orchestrationMetadata r = Some metadata ->
  exists entry,
    createMemoryEntry id r = Ok entry /\
    (exists relationships clusters,
       storeMemory id fresh now r st =
       (insertEntry id fresh now entry st, Stored id relationships clusters)) /\
    JsMap.get id (memoryStore (fanOut id fresh now entry st)) = Some entry /\
    ((Z.of_nat (List.length (memoryStore st)) < maxMemories st)%Z ->
     JsMap.get id (memoryStore (fst (storeMemory id fresh now r st))) = Some entry) /\
    embeddingsTensor entry =
      {| unified := None; et_text := None; et_vision := None; et_dimension := 0 |} /\
    (~ In id (JsMap.keys (embeddingIndex st)) ->
     forall q threshold hits,
       findSimilarMemories q threshold (fst (storeMemory id fresh now r st)) = Ok hits ->
       ~ In id (map hit_memoryId hits)) /\
    (truthy (textSummaryOf agentResults) = None ->
     ao_text (out_text (agentOutputs entry)) = "") /\
    ((forall t, ar_text agentResults = Some t -> tr_confidence t = None) ->
     ao_confidence (out_text (agentOutputs entry)) = 0%float) /\
    ((forall t, ar_text agentResults = Some t -> truthy (tr_agentId t) = None) ->
     pv_textAgent (provenance entry) = None) /\
    ((forall t, ar_text agentResults = Some t -> tr_reasoning t = None) ->
     ct_textReasoning (conversationTrace entry) = []) /\
    ((forall m, textMetadataOf agentResults = Some m -> truthy (md_contentType m) = None) ->
     sf_contentType (semanticFeatures entry) = "general") /\
    ((forall m, textMetadataOf agentResults = Some m -> truthy (md_pageType m) = None) ->
     sf_pageType (semanticFeatures entry) = "page") /\
    (truthy (visionSynthesisOf agentResults) = None ->
     ao_text (out_vision (agentOutputs entry)) = "") /\
    ((forall v, ar_vision agentResults = Some v -> vr_confidence v = None) ->
     ao_confidence (out_vision (agentOutputs entry)) = 0%float) /\
    ((forall v, ar_vision agentResults = Some v -> truthy (vr_agentId v) = None) ->
     pv_visionAgent (provenance entry) = None) /\
    ((forall v, ar_vision agentResults = Some v -> vr_reasoning v = None) ->
     ct_visionReasoning (conversationTrace entry) = []) /\
    (truthy (textSummaryOf agentResults) = None ->
     truthy (visionSynthesisOf agentResults) = None ->
     sf_topics (semanticFeatures entry) = []) /\
    (textMetadataOf agentResults = None -> visualFeaturesOf agentResults = None ->
     sf_categories (semanticFeatures entry) = []) /\
    (truthy (os_unifiedAnalysis synthesis) = None ->
     ao_text (out_orchestrator (agentOutputs entry)) = "") /\
    (os_confidence synthesis = None ->
     ao_confidence (out_orchestrator (agentOutputs entry)) = 0%float).
Proof.
intros Ha Hq Hs Hm.
destruct (createMemoryEntry id r) as [entry | message] eqn:Hbuild;
  [| unfold createMemoryEntry in Hbuild; rewrite Ha, Hq, Hs, Hm in Hbuild; discriminate].
exists entry.
assert (Hstore : fst (storeMemory id fresh now r st) = insertEntry id fresh now entry st)
  by (unfold storeMemory; now rewrite Hbuild).
pose proof (createMemoryEntry_no_embedding id r entry Hbuild) as (Hu & _).
unfold createMemoryEntry in Hbuild. rewrite Ha, Hq, Hs, Hm in Hbuild.
injection Hbuild as Hentry.
split; [reflexivity |].
split. { unfold storeMemory, createMemoryEntry. rewrite Ha, Hq, Hs, Hm, Hentry. eauto. }
split. { rewrite fanOut_memoryStore. apply map_get_set_same. }
split.
{ intro Hroom. rewrite Hstore. unfold insertEntry.
  rewrite maintainMemoryLimits_within_capacity.
  - rewrite fanOut_memoryStore. apply map_get_set_same.
  - rewrite fanOut_memoryStore, fanOut_maxMemories, map_set_length.
    destruct (JsMap.has id (memoryStore st)); lia. }
split. { now rewrite <- Hentry. }
split.
{ intros Hfresh q threshold hits Hhits Hin. rewrite Hstore in Hhits.
  apply in_map_iff in Hin as (hit & Hid & Hin).
  destruct q as [q |]; [| injection Hhits as <-; contradiction].
  cbn [findSimilarMemories] in Hhits.
  apply (scanIndex_ids _ _ _ _ _ Hhits) in Hin. rewrite Hid in Hin.
  unfold insertEntry, maintainMemoryLimits in Hin.
  apply removeAll_embeddingIndex in Hin.
  rewrite fanOut_embeddingIndex, indexed_embeddingIndex, Hu in Hin. contradiction. }
rewrite <- Hentry.
cbn [agentOutputs out_text out_vision out_orchestrator ao_text ao_confidence
     provenance pv_textAgent pv_visionAgent conversationTrace ct_textReasoning
     ct_visionReasoning semanticFeatures sf_contentType sf_pageType sf_topics
     sf_categories].
split; [apply withEllipsis_empty |].
split.
{ intro Hnone. destruct (ar_text agentResults) as [t |]; [| reflexivity].
  now rewrite (Hnone t eq_refl). }
split.
{ intro Hnone. destruct (ar_text agentResults) as [t |]; [| reflexivity].
  exact (Hnone t eq_refl). }
split.
{ intro Hnone. destruct (ar_text agentResults) as [t |]; [| reflexivity].
  now rewrite (Hnone t eq_refl). }
split.
{ intro Hnone. unfold extractContentType. apply orElse_default.
  destruct (textMetadataOf agentResults) as [m |]; [| reflexivity].
  exact (Hnone m eq_refl). }
split.
{ intro Hnone. unfold extractPageType. apply orElse_default.
  destruct (textMetadataOf agentResults) as [m |]; [| reflexivity].
  exact (Hnone m eq_refl). }
split; [apply withEllipsis_empty |].
split.
{ intro Hnone. destruct (ar_vision agentResults) as [v |]; [| reflexivity].
  now rewrite (Hnone v eq_refl). }
split.
{ intro Hnone. destruct (ar_vision agentResults) as [v |]; [| reflexivity].
  exact (Hnone v eq_refl). }
split.
{ intro Hnone. destruct (ar_vision agentResults) as [v |]; [| reflexivity].
  now rewrite (Hnone v eq_refl). }
split.
{ intros Ht Hv. unfold extractTopics.
  rewrite (orElse_default _ "" Ht), (orElse_default _ "" Hv). reflexivity. }
split.
{ intros Ht Hv. unfold extractCategories. rewrite Ht, Hv. reflexivity. }
split; [apply withEllipsis_empty |].
intros ->. reflexivity.
Qed.

Lemma store_memory_accepts_partial_results_witness :
  exists relationships clusters,
    snd (storeMemory "memory-1" "cluster-1" noon (visit noon "a") (newStore 1)) =
    Stored "memory-1" relationships clusters.
Proof.
destruct (store_memory_accepts_partial_results (newStore 1) "memory-1" "cluster-1" noon
            (visit noon "a")
            {| ar_text := None; ar_vision := None |}
            {| qm_overallScore := Some 0.5%float |}
            {| os_unifiedAnalysis := None; os_confidence := Some 0.5%float;
               os_agentAgreement := None; os_decisionRationale := None |}
            {| om_processingTime := None; om_synthesisApproach := Some "vision-only" |}
            eq_refl eq_refl eq_refl eq_refl)
  as (entry & _ & (relationships & clusters & Hstored) & _).
exists relationships, clusters. now rewrite Hstored.
Defined.

(** ** Cluster assignment *)

Lemma findOrCreate_first (embedding : Embedding) (clusters : JsMap.t Cluster)
    (fresh : string) :
  let cid := findOrCreateConceptCluster embedding clusters fresh in
  (exists before c after,
      clusters = before ++ (cid, c) :: after /\
      similarEnough embedding c = true /\
      Forall (fun kc => similarEnough embedding (snd kc) = false) before) \/
  (cid = fresh /\
   Forall (fun kc => similarEnough embedding (snd kc) = false) clusters).
Proof.
cbv zeta.
induction clusters as [|[k c] clusters IH]; cbn [findOrCreateConceptCluster].
- right. split; [reflexivity | constructor].
- fold (similarEnough embedding c). destruct (similarEnough embedding c) eqn:Hs.
  + left. exists [], c, clusters.
    split; [reflexivity | split; [exact Hs | constructor]].
  + destruct IH as [(before & c0 & after & Heq & Hc0 & Hb) | [He Hall]].
    * left. exists ((k, c) :: before), c0, after.
      split; [cbn [app]; now rewrite <- Heq | split; [exact Hc0 |]].
      constructor; assumption.
    * right. split; [exact He |]. constructor; assumption.
Qed.

Lemma addAt_middle (p c : list float) (x v : float) :
  addAt (p ++ x :: c) (List.length p) v = p ++ (x + v)%float :: c.
Proof. induction p as [|y p IH]; simpl; [reflexivity | now rewrite IH]. Qed.

Lemma accumulate_addVectors (e p c : list float) :
  List.length c = List.length e ->
  accumulate (p ++ c) (List.length p) e = p ++ addVectors c e.
Proof.
revert p c. induction e as [|v e IH]; intros p [|x c] Hlen; simpl in *;
  try discriminate; [reflexivity |].
rewrite addAt_middle.
replace (p ++ (x + v)%float :: c) with ((p ++ [(x + v)%float]) ++ c)
  by now rewrite <- app_assoc.
replace (S (List.length p)) with (List.length (p ++ [(x + v)%float]))
  by (rewrite length_app; simpl; lia).
rewrite IH by lia. now rewrite <- app_assoc.
Qed.

Lemma addVectors_length (a b : list float) :
  List.length a = List.length b -> List.length (addVectors a b) = List.length a.
Proof.
revert b. induction a as [|x a IH]; intros [|y b] Hlen; simpl in *;
  try discriminate; [reflexivity |].
now rewrite IH by lia.
Qed.

Lemma sums_agree (d : nat) (embeddings : list Embedding) (c : list float) :
  List.length c = d ->
  Forall (fun v => List.length v = d) embeddings ->
  fold_left (fun c e => accumulate c 0 e) embeddings c =
  fold_left addVectors embeddings c.
Proof.
revert c. induction embeddings as [|e embeddings IH]; intros c Hc Hall; simpl;
  [reflexivity |].
apply Forall_cons_iff in Hall as [He Hall].
pose proof (accumulate_addVectors e [] c) as Ha. cbn [app List.length] in Ha.
rewrite Ha by congruence.
apply IH; [| exact Hall]. rewrite addVectors_length; congruence.
Qed.

(** The centroid of the code is the arithmetic mean when the embeddings
    have one length. *)
Lemma centroidOf_mean (embeddings : list Embedding) :
  Forall (fun v => List.length v = List.length (hd [] embeddings)) embeddings ->
  centroidOf embeddings = arithmeticMean embeddings.
Proof.
intro Hall. unfold centroidOf, arithmeticMean. f_equal.
apply (sums_agree (List.length (hd [] embeddings))); [apply repeat_length | exact Hall].
Qed.

Lemma set_add_not_nil (x : string) (s : JsSet.t) : JsSet.add x s <> [].
Proof.
unfold JsSet.add. destruct (JsSet.has x s) eqn:Hx.
- apply set_has_In in Hx. now destruct s.
- now destruct s.
Qed.

Lemma memberEmbeddings_In (c : Cluster) (st : Store) (x : string)
    (t : EmbeddingsTensor) (u : Embedding) :
  In x (members c) -> JsMap.get x (embeddingIndex st) = Some t -> unified t = Some u ->
  In u (memberEmbeddings c st).
Proof.
intros Hx Hg Hu. unfold memberEmbeddings. apply in_flat_map.
exists x. split; [exact Hx |]. rewrite Hg, Hu. now left.
Qed.

Lemma memberEmbeddings_length (c : Cluster) (st : Store) :
  (forall x, In x (members c) -> In x (JsMap.keys (embeddingIndex st))) ->
  (forall x t, In (x, t) (embeddingIndex st) -> unified t <> None) ->
  List.length (memberEmbeddings c st) = List.length (members c).
Proof.
intros Hidx Hpresent. unfold memberEmbeddings.
induction (members c) as [|x l IH]; simpl; [reflexivity |].
rewrite length_app, IH by (intros y Hy; apply Hidx; now right).
destruct (JsMap.get x (embeddingIndex st)) as [t |] eqn:Hg.
- apply map_get_In in Hg. apply Hpresent in Hg.
  destruct (unified t); [reflexivity | contradiction].
- exfalso. apply map_get_None in Hg. apply Hg, Hidx. now left.
Qed.

(** What [updateConceptClusters] does to the cluster map. *)
Lemma updateConceptClusters_effect (id fresh : string) (now : Z) (e : MemoryEntry)
    (emb : Embedding) (st : Store) :
  unified (embeddingsTensor e) = Some emb ->
  JsMap.get id (embeddingIndex st) = Some (embeddingsTensor e) ->
  let cid := findOrCreateConceptCluster emb (conceptClusters st) fresh in
  let st' := updateConceptClusters id fresh now e st in
  (exists c',
      JsMap.get cid (conceptClusters st') = Some c' /\
      members c' = JsSet.add id (membersOf cid (conceptClusters st)) /\
      centroid c' = centroidOf (memberEmbeddings c' st')) /\
  (forall k, k <> cid ->
     JsMap.get k (conceptClusters st') = JsMap.get k (conceptClusters st)).
Proof.
intros Hu Hidx cid st'.
assert (Hindex : embeddingIndex st' = embeddingIndex st)
  by (unfold st'; rewrite updateConceptClusters_shape; reflexivity).
unfold st', updateConceptClusters in *. rewrite Hu in *. fold cid in Hindex |- *.
set (clusters := if JsMap.has cid (conceptClusters st) then conceptClusters st else _)
  in *.
assert (Hget : exists c1, JsMap.get cid clusters = Some c1 /\
                          members c1 = membersOf cid (conceptClusters st)).
{ unfold clusters, membersOf, JsMap.has.
  destruct (JsMap.get cid (conceptClusters st)) as [c |] eqn:Hg.
  - exists c. now rewrite Hg.
  - rewrite map_get_set_same. eexists. split; reflexivity. }
assert (Hother : forall k, k <> cid ->
                   JsMap.get k clusters = JsMap.get k (conceptClusters st)).
{ intros k Hk. unfold clusters. destruct (JsMap.has cid (conceptClusters st));
    [reflexivity | now apply map_get_set_other]. }
destruct Hget as (c1 & Hg1 & Hm1). rewrite Hg1 in *.
set (c2 := {| cl_id := cl_id c1; centroid := centroid c1;
              members := JsSet.add id (members c1); concept := concept c1;
              lastUpdated := lastUpdated c1 |}) in *.
set (st2 := withConceptClusters (JsMap.set cid c2 clusters) st) in *.
assert (Hin : In emb (memberEmbeddings c2 st2)).
{ apply (memberEmbeddings_In c2 st2 id (embeddingsTensor e) emb);
    [apply set_add_In; now left | exact Hidx | exact Hu]. }
unfold updateClusterCentroid in *.
cbn [conceptClusters st2 withConceptClusters] in *.
rewrite map_get_set_same in *.
destruct (members c2) as [|m0 ms] eqn:Hm2;
  [exfalso; cbn [members c2] in Hm2; now apply set_add_not_nil in Hm2 |].
destruct (memberEmbeddings c2 st2) as [|v0 vs] eqn:Hme; [contradiction |].
cbn [conceptClusters withConceptClusters embeddingIndex] in *.
split.
- rewrite map_get_set_same. eexists. split; [reflexivity |].
  cbn [members centroid]. split.
  + rewrite <- Hm2. cbn [members c2]. now rewrite Hm1.
  + rewrite <- Hme. f_equal. unfold memberEmbeddings.
    cbn [members embeddingIndex withConceptClusters st2]. now rewrite Hm2.
- intros k Hk. rewrite !map_get_set_other by exact Hk. now apply Hother.
Qed.

Lemma twoClusters_reachable : Reachable twoClusters.
Proof. unfold twoClusters. repeat constructor. Qed.

(** C4, as stated: the record joins the cluster whose centroid is the most
    similar one.  It fails: with two clusters above the threshold the
    record joins the one that was created first, although the other is
    closer. *)
Lemma first_similar_cluster_is_not_the_closest :
  Reachable twoClusters /\
  option_map centroid (JsMap.get "cluster-1" (conceptClusters twoClusters))
    = Some [0.6; 0.8]%float /\
  option_map centroid (JsMap.get "cluster-2" (conceptClusters twoClusters))
    = Some [1; 0]%float /\
  (clusterThreshold <? similarity (Some between) (Some [0.6; 0.8]))%float = true /\
  (similarity (Some between) (Some [0.6; 0.8])
   <? similarity (Some between) (Some [1; 0]))%float = true /\
  clusterBySpec between (conceptClusters twoClusters) "cluster-3" = "cluster-2" /\
  findOrCreateConceptCluster between (conceptClusters twoClusters) "cluster-3"
    = "cluster-1" /\
  membersOf "cluster-1" (conceptClusters thirdJoins) = ["memory-1"; "memory-3"] /\
  membersOf "cluster-2" (conceptClusters thirdJoins) = ["memory-2"].
Proof.
split; [exact twoClusters_reachable |].
repeat split; vm_compute; reflexivity.
Qed.

(** C4, amended.  For a new record with a non-null unified embedding,
    cluster assignment walks the clusters in the order of their creation
    and joins the first one whose centroid has a cosine similarity above
    0.85 to the embedding; when there is none it creates a cluster under
    a fresh identifier.  The record's identifier is added to the members
    of that cluster, every member contributes its indexed embedding, and
    the centroid becomes the arithmetic mean of the members' embeddings
    (computed componentwise when they have one length); the other
    clusters are untouched.  A new cluster has the record as its only
    member and the mean of its single embedding as centroid. *)
Theorem cluster_assignment `{Platform}
    (st : Store) (id fresh : string) (now : Z) (e : MemoryEntry) (emb : Embedding) :
  let written := fanOut id fresh now e st in
  let cid := findOrCreateConceptCluster emb (conceptClusters st) fresh in
  Reachable st ->
  unified (embeddingsTensor e) = Some emb ->
  ~ In fresh (JsMap.keys (conceptClusters st)) ->
  ((exists before c after,
       conceptClusters st = before ++ (cid, c) :: after /\
       similarEnough emb c = true /\
       Forall (fun kc => similarEnough emb (snd kc) = false) before) \/
   (cid = fresh /\
    Forall (fun kc => similarEnough emb (snd kc) = false) (conceptClusters st))) /\
  (exists c',
      JsMap.get cid (conceptClusters written) = Some c' /\
      members c' = JsSet.add id (membersOf cid (conceptClusters st)) /\
      List.length (memberEmbeddings c' written) = List.length (members c') /\
      In emb (memberEmbeddings c' written) /\
      centroid c' = centroidOf (memberEmbeddings c' written) /\
      (Forall (fun v => List.length v = List.length emb) (memberEmbeddings c' written) ->
       centroid c' = arithmeticMean (memberEmbeddings c' written)) /\
      (cid = fresh ->
       members c' = [id] /\ memberEmbeddings c' written = [emb] /\
       centroid c' = arithmeticMean [emb])) /\
  (forall k, k <> cid ->
     JsMap.get k (conceptClusters written) = JsMap.get k (conceptClusters st)).
Proof.
intros written cid Hr Hu Hfresh.
pose proof (fanOut_consistent id fresh now e st (reachable_consistent st Hr)) as Hc.
fold written in Hc.
set (st5 := discoverRelationships id e (indexed id e st)).
assert (Hclusters : conceptClusters st5 = conceptClusters st)
  by (unfold st5, discoverRelationships; cbn [conceptClusters withRelationshipGraph];
      apply indexed_clusters).
assert (Hidx : JsMap.get id (embeddingIndex st5) = Some (embeddingsTensor e)).
{ unfold st5, discoverRelationships. cbn [embeddingIndex withRelationshipGraph].
  rewrite indexed_embeddingIndex, Hu. apply map_get_set_same. }
pose proof (updateConceptClusters_effect id fresh now e emb st5 Hu Hidx) as Heffect.
cbv zeta in Heffect. rewrite Hclusters in Heffect. fold cid in Heffect.
change (updateConceptClusters id fresh now e st5) with written in Heffect.
destruct Heffect as ((c' & Hget & Hmembers & Hcentroid) & Hother).
split; [apply findOrCreate_first |]. split; [| exact Hother].
exists c'.
assert (Hin : In emb (memberEmbeddings c' written)).
{ apply (memberEmbeddings_In c' written id (embeddingsTensor e) emb).
  - rewrite Hmembers. apply set_add_In. now left.
  - unfold written. rewrite fanOut_embeddingIndex, indexed_embeddingIndex, Hu.
    apply map_get_set_same.
  - exact Hu. }
split; [exact Hget |]. split; [exact Hmembers |].
split.
{ apply memberEmbeddings_length.
  - intros x Hx. apply (members_indexed written Hc cid c'); [| exact Hx].
    now apply map_get_In.
  - apply (embeddings_present written Hc). }
split; [exact Hin |]. split; [exact Hcentroid |].
split.
{ intro Hall. rewrite Hcentroid. apply centroidOf_mean.
  rewrite Forall_forall in Hall |- *. intros v Hv.
  rewrite (Hall v Hv). symmetry. apply Hall.
  destruct (memberEmbeddings c' written) as [|v0 vs]; [contradiction | now left]. }
intro Hnew.
assert (Hnone : membersOf cid (conceptClusters st) = []).
{ unfold membersOf. rewrite Hnew.
  destruct (JsMap.get fresh (conceptClusters st)) eqn:Hg; [| reflexivity].
  exfalso. apply Hfresh. apply map_get_In in Hg. now apply (in_map fst) in Hg. }
rewrite Hnone in Hmembers. cbn in Hmembers.
assert (Hone : memberEmbeddings c' written = [emb]).
{ unfold memberEmbeddings. rewrite Hmembers. cbn [flat_map app].
  unfold written. rewrite fanOut_embeddingIndex, indexed_embeddingIndex, Hu.
  rewrite map_get_set_same, Hu. reflexivity. }
split; [exact Hmembers |]. split; [exact Hone |].
rewrite Hcentroid, Hone. apply centroidOf_mean. now constructor.
Qed.

Lemma cluster_assignment_witness :
  membersOf "cluster-1" (conceptClusters thirdJoins) <> [] /\
  JsMap.get "cluster-2" (conceptClusters thirdJoins) =
  JsMap.get "cluster-2" (conceptClusters twoClusters).
Proof.
pose proof (cluster_assignment twoClusters "memory-3" "cluster-3" (noon + 2)
              (embedded "memory-3" (noon + 2) between) between
              twoClusters_reachable eq_refl) as Hassign.
cbv zeta in Hassign.
assert (Hfresh : ~ In "cluster-3" (JsMap.keys (conceptClusters twoClusters)))
  by (vm_compute; intuition discriminate).
destruct (Hassign Hfresh) as (_ & (c' & Hget & Hmembers & _) & Hother).
split.
- unfold membersOf. replace "cluster-1" with
    (findOrCreateConceptCluster between (conceptClusters twoClusters) "cluster-3")
    by (vm_compute; reflexivity).
  unfold thirdJoins, insertEntry.
  rewrite maintainMemoryLimits_within_capacity by (vm_compute; discriminate).
  rewrite Hget, Hmembers. apply set_add_not_nil.
- unfold thirdJoins, insertEntry.
  rewrite maintainMemoryLimits_within_capacity by (vm_compute; discriminate).
  apply Hother. vm_compute. discriminate.
Defined.

(** The fifth testable property of the specification: with the embeddings
    [[1,0]], [[0.9,0.1]] and [[0,1]] the first two records share a cluster
    whose centroid is the mean of their embeddings, and the third record
    has a cluster of its own. *)
Example three_records_two_clusters :
  JsMap.keys (conceptClusters threeRecords) = ["cluster-1"; "cluster-3"] /\
  membersOf "cluster-1" (conceptClusters threeRecords) = ["memory-1"; "memory-2"] /\
  option_map centroid (JsMap.get "cluster-1" (conceptClusters threeRecords))
    = Some (arithmeticMean [[1; 0]; [0.9; 0.1]]%float) /\
  membersOf "cluster-3" (conceptClusters threeRecords) = ["memory-3"] /\
  (similarity (Some [0; 1]%float) (Some (arithmeticMean [[1; 0]; [0.9; 0.1]]%float))
   <? clusterThreshold)%float = true.
Proof. repeat split; vm_compute; reflexivity. Qed.

(** * Further properties of the store *)

(** ** Capacity *)

Lemma removeAll_maxMemories (l : list (string * MemoryEntry)) (st : Store) :
  maxMemories (fold_left (fun st kv => removeMemory (fst kv) st) l st) = maxMemories st.
Proof.
revert st. induction l as [|kv l IH]; intro st; simpl; [reflexivity |].
now rewrite IH.
Qed.

Lemma insertEntry_maxMemories `{Platform} (id fresh : string) (now : Z) (e : MemoryEntry)
    (st : Store) :
  maxMemories (insertEntry id fresh now e st) = maxMemories st.
Proof.
unfold insertEntry, maintainMemoryLimits.
rewrite removeAll_maxMemories. apply fanOut_maxMemories.
Qed.

Lemma toRemove_length (st : Store) :
  (maxMemories st < Z.of_nat (List.length (memoryStore st)))%Z ->
  List.length (toRemove st) =
  Nat.min (Z.to_nat (Z.of_nat (List.length (memoryStore st)) - maxMemories st))
          (List.length (memoryStore st)).
Proof.
intro Hover. unfold toRemove, slice0.
destruct (_ <=? _)%Z eqn:Hle; [apply Z.leb_le in Hle; lia |].
destruct (_ <? 0)%Z eqn:Hneg; [apply Z.ltb_lt in Hneg; lia |].
rewrite length_firstn.
now rewrite (Permutation_length (stableSort_perm timestampAfter (memoryStore st))).
Qed.

Lemma maintainMemoryLimits_size (st : Store) :
  NoDup (JsMap.keys (memoryStore st)) ->
  (Z.of_nat (List.length (memoryStore (maintainMemoryLimits st)))
   <= Z.max 0 (maxMemories st))%Z /\
  ((maxMemories st < Z.of_nat (List.length (memoryStore st)))%Z ->
   Z.of_nat (List.length (memoryStore (maintainMemoryLimits st)))
   = Z.max 0 (maxMemories st)).
Proof.
intro Hnd.
destruct (Z_le_gt_dec (Z.of_nat (List.length (memoryStore st))) (maxMemories st))
  as [Hle | Hgt].
- rewrite maintainMemoryLimits_within_capacity by exact Hle. lia.
- assert (Hover : (maxMemories st < Z.of_nat (List.length (memoryStore st)))%Z) by lia.
  pose proof (removeAll_length (toRemove st) st Hnd (toRemove_keys_NoDup st Hnd)) as Hlen.
  assert (Hsub : forall k, In k (map fst (toRemove st)) -> stored st k).
  { intros k Hin. apply in_map_iff in Hin as (kv & <- & Hin).
    apply toRemove_stored in Hin. now apply (in_map fst) in Hin. }
  specialize (Hlen Hsub). rewrite (toRemove_length st Hover) in Hlen.
  unfold maintainMemoryLimits. lia.
Qed.

(** X1.  A store reached by inserts and removals never holds more than
    [maxMemories] records (none when the capacity is zero or negative),
    and an insert that goes over the capacity leaves exactly that many;
    the capacity itself never changes. *)
Theorem capacity_is_kept `{Platform} (st : Store) :
  Reachable st ->
  (Z.of_nat (List.length (memoryStore st)) <= Z.max 0 (maxMemories st))%Z /\
  (forall id fresh now e,
     maxMemories (insertEntry id fresh now e st) = maxMemories st /\
     ((maxMemories st < Z.of_nat (List.length (memoryStore (fanOut id fresh now e st))))%Z ->
      Z.of_nat (List.length (memoryStore (insertEntry id fresh now e st)))
      = Z.max 0 (maxMemories st))).
Proof.
intro Hr. split.
- induction Hr as [maxMemories | st id fresh now e Hr IH | st id Hr IH].
  + cbn. lia.
  + rewrite insertEntry_maxMemories. unfold insertEntry.
    rewrite <- (fanOut_maxMemories id fresh now e st).
    apply maintainMemoryLimits_size, table_keys_unique, fanOut_consistent.
    now apply reachable_consistent.
  + cbn [maxMemories removeMemory memoryStore].
    pose proof (filter_length_le
                  (fun kv : string * MemoryEntry => negb (String.eqb id (fst kv)))
                  (memoryStore st)) as Hf.
    unfold JsMap.delete. lia.
- intros id fresh now e. split; [apply insertEntry_maxMemories |].
  intro Hover. unfold insertEntry.
  rewrite <- (fanOut_maxMemories id fresh now e st) in Hover |- *.
  apply maintainMemoryLimits_size; [| exact Hover].
  apply table_keys_unique, fanOut_consistent. now apply reachable_consistent.
Qed.

Lemma capacity_is_kept_witness :
  (Z.of_nat (List.length (memoryStore twoVisits)) <= Z.max 0 (maxMemories twoVisits))%Z.
Proof. apply (capacity_is_kept twoVisits). exact twoVisits_reachable. Defined.

(** ** When [storeMemory] fails *)

Lemma createMemoryEntry_complete `{Platform} (id : string) (r : OrchestrationResult) :
  complete r <-> exists e, createMemoryEntry id r = Ok e.
Proof.
unfold complete, createMemoryEntry.
destruct (or_agentResults r), (or_qualityMetrics r), (or_orchestratorSynthesis r),
  (or_orchestrationMetadata r);
  (split; [intros (Ha & Hq & Hs & Hm); try congruence; eauto
          | intros (e & He); try discriminate; repeat split; discriminate]).
Qed.

(** X2.  [storeMemory] answers [stored: false] exactly when the raw
    result lacks one of the four objects that the record builder reads
    without a guard: [agentResults], [qualityMetrics],
    [orchestratorSynthesis] and [orchestrationMetadata].  It then leaves
    the store untouched, and its error is the message of the [TypeError]
    of the first of them that is missing, in that order: the read of
    [text], of [overallScore], of [confidence] or of [processingTime].
    Otherwise it answers with the identifier it was given. *)
Theorem store_memory_fails_exactly_on_a_missing_object `{Platform}
    (st : Store) (id fresh : string) (now : Z) (r : OrchestrationResult) :
  (~ complete r <->
   exists message, snd (storeMemory id fresh now r st) = NotStored message) /\
  (~ complete r -> fst (storeMemory id fresh now r st) = st) /\
  (or_agentResults r = None ->
   snd (storeMemory id fresh now r st) = NotStored (typeErrorReading "text")) /\
  (or_agentResults r <> None -> or_qualityMetrics r = None ->
   snd (storeMemory id fresh now r st) = NotStored (typeErrorReading "overallScore")) /\
  (or_agentResults r <> None -> or_qualityMetrics r <> None ->
   or_orchestratorSynthesis r = None ->
   snd (storeMemory id fresh now r st) = NotStored (typeErrorReading "confidence")) /\
  (or_agentResults r <> None -> or_qualityMetrics r <> None ->
   or_orchestratorSynthesis r <> None -> or_orchestrationMetadata r = None ->
   snd (storeMemory id fresh now r st) = NotStored (typeErrorReading "processingTime")) /\
  (complete r ->
   exists relationships clusters,
     snd (storeMemory id fresh now r st) = Stored id relationships clusters).
Proof.
unfold complete, storeMemory, createMemoryEntry.
destruct (or_agentResults r) as [agentResults |],
         (or_qualityMetrics r) as [quality |],
         (or_orchestratorSynthesis r) as [synthesis |],
         (or_orchestrationMetadata r) as [metadata |]; cbn [fst snd];
  (split; [split; [intro Hn; try (now eexists);
                   elim Hn; repeat split; discriminate
                  | intros (message & Hm) (Ha & Hq & Hs & Hd);
                    try discriminate; congruence] |]);
  (split; [intro Hn; try reflexivity; elim Hn; repeat split; discriminate |]);
  repeat (split; [intros; try reflexivity; try discriminate; congruence |]);
  intros (Ha & Hq & Hs & Hd); try congruence; eauto.
Qed.

Lemma store_memory_fails_exactly_on_a_missing_object_witness :
  snd (storeMemory "memory-1" "cluster-1" noon
         (errorOrchestration noon "https://example.com/a" "timeout") (newStore 5)) =
  NotStored "Cannot read properties of undefined (reading 'processingTime')".
Proof.
apply (proj1 (proj2 (proj2 (proj2 (proj2 (proj2
         (store_memory_fails_exactly_on_a_missing_object (newStore 5) "memory-1"
            "cluster-1" noon
            (errorOrchestration noon "https://example.com/a" "timeout")))))))).
- discriminate.
- discriminate.
- discriminate.
- reflexivity.
Defined.

(** ** What [storeMemory] alone can build *)

Lemma removeAll_clusters_nil (l : list (string * MemoryEntry)) (st : Store) :
  conceptClusters st = [] ->
  conceptClusters (fold_left (fun st kv => removeMemory (fst kv) st) l st) = [].
Proof.
revert st. induction l as [|kv l IH]; intros st Hc; simpl; [exact Hc |].
apply IH. cbn [conceptClusters removeMemory]. now rewrite Hc.
Qed.

Lemma removeAll_index_nil (l : list (string * MemoryEntry)) (st : Store) :
  embeddingIndex st = [] ->
  embeddingIndex (fold_left (fun st kv => removeMemory (fst kv) st) l st) = [].
Proof.
revert st. induction l as [|kv l IH]; intros st Hc; simpl; [exact Hc |].
apply IH. cbn [embeddingIndex removeMemory]. now rewrite Hc.
Qed.

Lemma storedOnly_empty_index `{Platform} (st : Store) :
  StoredOnly st -> embeddingIndex st = [] /\ conceptClusters st = [].
Proof.
induction 1 as [maxMemories | st id fresh now r _ [Hi Hc]]; [split; reflexivity |].
unfold storeMemory.
destruct (createMemoryEntry id r) as [e | message] eqn:Hbuild; cbn [fst]; [| now split].
apply createMemoryEntry_no_embedding in Hbuild as (Hu & _).
unfold insertEntry, maintainMemoryLimits. split.
- apply removeAll_index_nil.
  now rewrite fanOut_embeddingIndex, indexed_embeddingIndex, Hu.
- apply removeAll_clusters_nil.
  rewrite fanOut_indexed. unfold updateConceptClusters. rewrite Hu.
  unfold discoverRelationships. cbn [conceptClusters withRelationshipGraph].
  now rewrite indexed_clusters.
Qed.

Lemma search_empty_index (query : string) (o : SearchOptions) (provider : FetchOutcome)
    (st : Store) :
  embeddingIndex st = [] ->
  searchMemories query o provider st =
  {| sr_query := query; results := []; totalFound := 0;
     searchMetrics :=
       Some {| queryEmbeddingGenerated :=
                 match generateQueryEmbedding provider with
                 | Some _ => true
                 | None => false
                 end;
               memoryStoreSize := List.length (memoryStore st);
               averageSimilarity := nan |};
     error := None |}.
Proof.
intro Hi. unfold searchMemories.
assert (Hfind : findSimilarMemories (generateQueryEmbedding provider) (threshold o) st
                = Ok []).
{ unfold findSimilarMemories. rewrite Hi.
  now destruct (generateQueryEmbedding provider). }
rewrite Hfind.
assert (Hf : applyFilters [] o = []).
{ unfold applyFilters.
  destruct (truthy (domainFilter o)), (truthy (categoryFilter o)), (temporalFilter o);
    reflexivity. }
rewrite Hf. cbn [stableSort fold_left]. rewrite slice0_nil.
destruct (includeRelationships o); reflexivity.
Qed.

(** X3.  In a store filled by [storeMemory] alone the embedding index and
    the cluster map stay empty: every search returns no result (with
    [averageSimilarity] [NaN]) whatever the query, the options and the
    provider's answer, and every successful [storeMemory] reports
    [clusters: 0]. *)
Theorem store_memory_never_feeds_search `{Platform} (st : Store) :
  StoredOnly st ->
  embeddingIndex st = [] /\ conceptClusters st = [] /\
  (forall query o provider,
     let r := searchMemories query o provider st in
     results r = [] /\ totalFound r = 0 /\ error r = None /\
     option_map averageSimilarity (searchMetrics r) = Some nan) /\
  (forall id fresh now r relationships clusters,
     snd (storeMemory id fresh now r st) = Stored id relationships clusters ->
     clusters = 0).
Proof.
intro Hs. destruct (storedOnly_empty_index st Hs) as [Hi Hc].
split; [exact Hi |]. split; [exact Hc |]. split.
- intros query o provider. cbv zeta. rewrite search_empty_index by exact Hi.
  repeat split.
- intros id fresh now r relationships clusters Hstored.
  destruct (storedOnly_empty_index _ (only_store st id fresh now r Hs)) as [_ Hc'].
  unfold storeMemory in *.
  destruct (createMemoryEntry id r) as [e | message]; cbn [fst snd] in *;
    [| discriminate].
  injection Hstored as _ <-. unfold getMemoryClusters. now rewrite Hc'.
Qed.

Lemma twoVisits_storedOnly : StoredOnly twoVisits.
Proof. unfold twoVisits, oneVisit. repeat constructor. Qed.

Lemma store_memory_never_feeds_search_witness :
  results (searchMemories "anything" defaultOptions (ResponseOk (Some [1; 0]%float))
             twoVisits) = [].
Proof.
apply (store_memory_never_feeds_search twoVisits twoVisits_storedOnly).
Defined.

(** ** Bounds of relationship discovery *)

Lemma slice0_length {A : Type} (n : nat) (l : list A) :
  List.length (slice0 (Z.of_nat n) l) <= n.
Proof. rewrite slice0_nonneg. apply firstn_le_length. Qed.

Section DiscoveryBounds.
Context `{Platform}.

Lemma semantic_edges (e : MemoryEntry) (id : string) (st : Store) (rel : Relationship) :
  In rel (findSemanticallySimilarMemories e id st) ->
  rel_type rel = "semantic-similar" /\ (0.7 <? strength rel)%float = true.
Proof.
unfold findSemanticallySimilarMemories.
destruct (unified (embeddingsTensor e)) as [target |]; [| contradiction].
intro Hin. apply slice0_incl, stableSort_In, in_flat_map in Hin as ([k t] & _ & Hr).
destruct (String.eqb k id); [contradiction |].
destruct (unified t) as [other |]; [| contradiction].
destruct (0.7 <? similarity (Some target) (Some other))%float eqn:Hs; [| contradiction].
destruct Hr as [<- | []]. now split.
Qed.

Lemma visual_edges (e : MemoryEntry) (id : string) (st : Store) (rel : Relationship) :
  In rel (findVisuallySimilarMemories e id st) ->
  rel_type rel = "visual-similar" /\ (0.8 <? strength rel)%float = true.
Proof.
unfold findVisuallySimilarMemories.
destruct (et_vision (embeddingsTensor e)) as [target |]; [| contradiction].
intro Hin. apply slice0_incl, stableSort_In, in_flat_map in Hin as ([k t] & _ & Hr).
destruct (String.eqb k id); [contradiction |].
destruct (et_vision t) as [other |]; [| contradiction].
destruct (0.8 <? similarity (Some target) (Some other))%float eqn:Hs; [| contradiction].
destruct Hr as [<- | []]. now split.
Qed.

(** X4.  One insert discovers at most sixteen edges: at most five
    domain-related ones of strength 0.7, five semantic ones of strength
    above 0.7, three temporal ones of strength 0.5 and three visual ones
    of strength above 0.8; a record without embeddings, as [storeMemory]
    builds it, gets at most eight, all domain- or temporal-related. *)
Theorem discovery_is_bounded (id : string) (e : MemoryEntry) (st : Store) :
  let discovered := discoveredRelationships id e st in
  List.length discovered <= 16 /\
  (forall rel, In rel discovered ->
     (rel_type rel = "domain-related" /\ strength rel = 0.7%float) \/
     (rel_type rel = "semantic-similar" /\ (0.7 <? strength rel)%float = true) \/
     (rel_type rel = "temporal-related" /\ strength rel = 0.5%float) \/
     (rel_type rel = "visual-similar" /\ (0.8 <? strength rel)%float = true)) /\
  (unified (embeddingsTensor e) = None -> et_vision (embeddingsTensor e) = None ->
   List.length discovered <= 8 /\
   forall rel, In rel discovered ->
     rel_type rel = "domain-related" \/ rel_type rel = "temporal-related").
Proof.
cbv zeta. unfold discoveredRelationships.
set (domainEdges := map _ (findDomainRelatedMemories _ _ _)).
set (temporalEdges := map _ (findTemporallyRelatedMemories _ _ _)).
assert (Hd : List.length domainEdges <= 5).
{ unfold domainEdges, findDomainRelatedMemories. rewrite length_map.
  apply (slice0_length 5). }
assert (Ht : List.length temporalEdges <= 3).
{ unfold temporalEdges, findTemporallyRelatedMemories. rewrite length_map.
  apply (slice0_length 3). }
assert (Hs : List.length (findSemanticallySimilarMemories e id st) <= 5).
{ unfold findSemanticallySimilarMemories.
  destruct (unified (embeddingsTensor e)); [apply (slice0_length 5) | simpl; lia]. }
assert (Hv : List.length (findVisuallySimilarMemories e id st) <= 3).
{ unfold findVisuallySimilarMemories.
  destruct (et_vision (embeddingsTensor e)); [apply (slice0_length 3) | simpl; lia]. }
assert (Hkd : forall rel, In rel domainEdges ->
                rel_type rel = "domain-related" /\ strength rel = 0.7%float)
  by (intros rel Hin; apply in_map_iff in Hin as (x & <- & _); now split).
assert (Hkt : forall rel, In rel temporalEdges ->
                rel_type rel = "temporal-related" /\ strength rel = 0.5%float)
  by (intros rel Hin; apply in_map_iff in Hin as (x & <- & _); now split).
split; [| split].
- destruct (et_vision (embeddingsTensor e)); rewrite !length_app; lia.
- intros rel Hin.
  assert (Hcases : In rel domainEdges \/ In rel (findSemanticallySimilarMemories e id st) \/
                   In rel temporalEdges \/ In rel (findVisuallySimilarMemories e id st)).
  { destruct (et_vision (embeddingsTensor e)); rewrite ?in_app_iff in Hin; tauto. }
  destruct Hcases as [Hc | [Hc | [Hc | Hc]]].
  + left. now apply Hkd.
  + right. left. now apply semantic_edges in Hc.
  + right. right. left. now apply Hkt.
  + right. right. right. now apply visual_edges in Hc.
- intros Hu Hvis. unfold findSemanticallySimilarMemories in *. rewrite Hu, Hvis in *.
  rewrite app_nil_r. split; [rewrite length_app; lia |].
  intros rel Hin. apply in_app_or in Hin as [Hin | Hin].
  + left. now apply Hkd.
  + right. now apply Hkt.
Qed.
End DiscoveryBounds.

Lemma discovery_is_bounded_witness :
  List.length
    (discoveredRelationships "memory-2"
       (plainEntry "memory-2" (TsNumber (noon + 60000)) "https://example.com/b" None)
       (indexed "memory-2"
          (plainEntry "memory-2" (TsNumber (noon + 60000)) "https://example.com/b" None)
          oneVisit)) <= 8.
Proof.
apply (discovery_is_bounded "memory-2"
         (plainEntry "memory-2" (TsNumber (noon + 60000)) "https://example.com/b" None));
  reflexivity.
Defined.

(** ** Removing a record that was never stored *)

Lemma map_mapValues_id {V : Type} (f : V -> V) (m : JsMap.t V) :
  (forall k v, In (k, v) m -> f v = v) -> JsMap.mapValues f m = m.
Proof.
unfold JsMap.mapValues. induction m as [|[k v] m IH]; intro Hf; simpl; [reflexivity |].
rewrite (Hf k v) by now left. rewrite IH; [reflexivity |].
intros k' v' Hin. apply (Hf k'). now right.
Qed.

Lemma set_delete_absent (x : string) (s : JsSet.t) : ~ In x s -> JsSet.delete x s = s.
Proof.
unfold JsSet.delete. induction s as [|y s IH]; intro Hx; simpl; [reflexivity |].
destruct (String.eqb x y) eqn:He.
- apply String.eqb_eq in He. subst. exfalso. apply Hx. now left.
- simpl. rewrite IH; [reflexivity |]. intro Hin. apply Hx. now right.
Qed.

Lemma spliceFirst_none {A : Type} (p : A -> bool) (l : list A) :
  (forall x, In x l -> p x = false) -> spliceFirst p l = l.
Proof.
induction l as [|x l IH]; intro Hp; simpl; [reflexivity |].
rewrite (Hp x) by now left. rewrite IH; [reflexivity |].
intros y Hy. apply Hp. now right.
Qed.

Lemma forget_absent (id : string) (m : JsMap.t JsSet.t) :
  setsWithin (fun x => x <> id) m -> JsMap.mapValues (JsSet.delete id) m = m.
Proof.
intro Hm. apply map_mapValues_id. intros k s Hin. apply set_delete_absent.
intro Hid. exact (Hm k s Hin id Hid eq_refl).
Qed.

(** X5.  In a store reached by inserts and removals, [removeMemory] of an
    identifier that is not in the canonical table changes nothing but,
    possibly, the edge lists; it changes nothing at all when no edge
    targets that identifier. *)
Theorem remove_unknown_is_noop `{Platform} (st : Store) (id : string) :
  Reachable st -> ~ stored st id ->
  withRelationshipGraph (relationshipGraph st) (removeMemory id st) = st /\
  ((forall k edges edge, In (k, edges) (relationshipGraph st) -> In edge edges ->
                         targetId edge <> id) ->
   removeMemory id st = st).
Proof.
intros Hr Hfresh. pose proof (reachable_consistent st Hr) as Hc.
assert (Hwithin : forall m, setsWithin (stored st) m -> setsWithin (fun x => x <> id) m).
{ intros m Hm. apply (setsWithin_weaken (stored st)); [| exact Hm].
  intros x Hx He. subst. contradiction. }
assert (Htable : JsMap.delete id (memoryStore st) = memoryStore st)
  by (apply map_delete_absent; exact Hfresh).
assert (Hindex : JsMap.delete id (embeddingIndex st) = embeddingIndex st).
{ apply map_delete_absent. intro Hin. apply Hfresh, (embeddings_stored st Hc), Hin. }
assert (Hclusters : JsMap.mapValues (dropMember id) (conceptClusters st)
                    = conceptClusters st).
{ apply map_mapValues_id. intros k c Hin. unfold dropMember.
  rewrite set_delete_absent; [now destruct c |].
  intro Hid. apply Hfresh, (embeddings_stored st Hc).
  exact (members_indexed st Hc k c Hin id Hid). }
assert (Hbuckets : forall g, JsMap.mapValues (JsSet.delete id) (bucketOf g (temporalBuckets st))
                             = bucketOf g (temporalBuckets st))
  by (intro g; apply forget_absent, Hwithin, (buckets_stored st Hc)).
assert (Hcategories : JsMap.mapValues (JsSet.delete id) (semanticCategories st)
                      = semanticCategories st)
  by (apply forget_absent, Hwithin, (categories_stored st Hc)).
assert (Hdomains : JsMap.mapValues (JsSet.delete id) (domainClusters st)
                   = domainClusters st)
  by (apply forget_absent, Hwithin, (domains_stored st Hc)).
pose proof (Hbuckets Hour) as Hh. pose proof (Hbuckets Day) as Hd.
pose proof (Hbuckets Week) as Hw. pose proof (Hbuckets Month) as Hm.
cbn [bucketOf] in Hh, Hd, Hw, Hm.
split.
- unfold removeMemory, withRelationshipGraph.
  cbn [maxMemories memoryStore embeddingIndex conceptClusters temporalBuckets
       semanticCategories domainClusters embeddingBuckets].
  rewrite Htable, Hindex, Hclusters, Hh, Hd, Hw, Hm, Hcategories, Hdomains.
  destruct st as [? ? ? ? ? [? ? ? ?] ? ? ?]. reflexivity.
- intro Hedges.
  assert (Hgraph : JsMap.mapValues
                     (spliceFirst (fun rel => String.eqb (targetId rel) id))
                     (JsMap.delete id (relationshipGraph st))
                   = relationshipGraph st).
  { rewrite map_delete_absent
      by (intro Hin; apply Hfresh, (graph_keys_stored st Hc), Hin).
    apply map_mapValues_id. intros k edges Hin. apply spliceFirst_none.
    intros edge He. apply String.eqb_neq. exact (Hedges k edges edge Hin He). }
  unfold removeMemory.
  rewrite Htable, Hindex, Hclusters, Hh, Hd, Hw, Hm, Hcategories, Hdomains, Hgraph.
  destruct st as [? ? ? ? ? [? ? ? ?] ? ? ?]. reflexivity.
Qed.

Lemma remove_unknown_is_noop_witness :
  removeMemory "memory-9" oneVisit = oneVisit.
Proof.
refine (proj2 (remove_unknown_is_noop oneVisit "memory-9" oneVisit_reachable _) _).
- vm_compute. intuition discriminate.
- vm_compute. intros k edges edge [Hk | []]. injection Hk as <- <-. intros [].
Defined.

(** ** Search results *)

Lemma scanIndex_hits (q : Embedding) (threshold : float)
    (index : JsMap.t EmbeddingsTensor) (table : JsMap.t MemoryEntry)
    (hits : list SearchHit) :
  scanIndex q threshold index table = Ok hits ->
  forall hit, In hit hits ->
  (exists t u, In (hit_memoryId hit, t) index /\ unified t = Some u /\
               hit_similarity hit = similarity (Some q) (Some u)) /\
  (threshold <=? hit_similarity hit)%float = true /\
  JsMap.get (hit_memoryId hit) table = Some (hit_memory hit) /\
  hit_url hit = url (hit_memory hit) /\
  hit_timestamp hit = timestamp (hit_memory hit) /\
  hit_summary hit = generateMemorySummary (hit_memory hit) /\
  hit_relationships hit = None.
Proof.
revert hits. induction index as [|[k t] index IH]; intros hits; cbn [scanIndex].
- intros [= <-] hit [].
- assert (Hrest : forall hits', scanIndex q threshold index table = Ok hits' ->
            forall hit, In hit hits' ->
            (exists t0 u, In (hit_memoryId hit, t0) ((k, t) :: index) /\
                          unified t0 = Some u /\
                          hit_similarity hit = similarity (Some q) (Some u)) /\
            (threshold <=? hit_similarity hit)%float = true /\
            JsMap.get (hit_memoryId hit) table = Some (hit_memory hit) /\
            hit_url hit = url (hit_memory hit) /\
            hit_timestamp hit = timestamp (hit_memory hit) /\
            hit_summary hit = generateMemorySummary (hit_memory hit) /\
            hit_relationships hit = None).
  { intros hits' Hs hit Hin.
    destruct (IH hits' Hs hit Hin) as ((t0 & u & Hi & Hu & Hsim) & Hmore).
    split; [| exact Hmore]. exists t0, u. split; [now right | now split]. }
  destruct (unified t) as [u |] eqn:Hu; [| exact (Hrest hits)].
  destruct (threshold <=? similarity (Some q) (Some u))%float eqn:Hthr;
    [| exact (Hrest hits)].
  destruct (JsMap.get k table) as [memory |] eqn:Hg; [| intros [=]].
  destruct (scanIndex q threshold index table) as [rest | message]; [| intros [=]].
  intros Heq hit Hin. injection Heq as Heq. subst hits.
  destruct Hin as [<- | Hin]; [| exact (Hrest rest eq_refl hit Hin)].
  cbn. split; [exists t, u; repeat split; [now left | exact Hu] |].
  repeat split; assumption.
Qed.

Lemma scanIndex_ok (q : Embedding) (threshold : float)
    (index : JsMap.t EmbeddingsTensor) (table : JsMap.t MemoryEntry) :
  (exists hits, scanIndex q threshold index table = Ok hits) <->
  (forall k t u, In (k, t) index -> unified t = Some u ->
                 (threshold <=? similarity (Some q) (Some u))%float = true ->
                 JsMap.has k table = true).
Proof.
induction index as [|[k t] index IH]; cbn [scanIndex].
- split; [intros _ k t u [] | eauto].
- destruct (unified t) as [u |] eqn:Hu.
  + destruct (threshold <=? similarity (Some q) (Some u))%float eqn:Hthr.
    * unfold JsMap.has in *. destruct (JsMap.get k table) as [memory |] eqn:Hg.
      -- destruct (scanIndex q threshold index table) as [rest | message].
         ++ split; [| eauto]. intros _ k' t' u' [[= <- <-] | Hin] Hu' Hthr'.
            ** now rewrite Hg.
            ** destruct IH as [IH _]. apply (IH (ex_intro _ rest eq_refl) k' t' u'); auto.
         ++ split; [intros (hits & [=]) |]. intro Hall.
            destruct IH as [_ IH]. destruct IH as (hits & [=]).
            intros k' t' u' Hin. apply Hall. now right.
      -- split; [intros (hits & [=]) |]. intro Hall.
         specialize (Hall k t u (or_introl eq_refl) Hu Hthr). rewrite Hg in Hall.
         discriminate.
    * rewrite IH. split.
      -- intros Hall k' t' u' [[= <- <-] | Hin] Hu' Hthr'; [| eauto].
         rewrite Hu in Hu'. injection Hu' as <-. congruence.
      -- intros Hall k' t' u' Hin. apply Hall. now right.
  + rewrite IH. split.
    * intros Hall k' t' u' [[= <- <-] | Hin] Hu' Hthr'; [congruence | eauto].
    * intros Hall k' t' u' Hin. apply Hall. now right.
Qed.

(** X6.  [searchMemories] ends in its [catch] branch exactly when the
    query has an embedding and some indexed record that reaches the
    threshold is missing from the canonical table; the result then has no
    hits, no metrics and the [TypeError] message as [error].  In a store
    reached by inserts and removals this never happens. *)
Theorem search_throws_only_on_a_torn_index `{Platform}
    (query : string) (o : SearchOptions) (provider : FetchOutcome) (st : Store) :
  let r := searchMemories query o provider st in
  (error r = None <->
   forall q k t u,
     generateQueryEmbedding provider = Some q ->
     In (k, t) (embeddingIndex st) -> unified t = Some u ->
     (threshold o <=? similarity (Some q) (Some u))%float = true ->
     JsMap.has k (memoryStore st) = true) /\
  (error r <> None ->
   error r = Some missingMemoryMessage /\ results r = [] /\ totalFound r = 0 /\
   searchMetrics r = None) /\
  (Reachable st -> error r = None).
Proof.
cbv zeta.
assert (Hiff : error (searchMemories query o provider st) = None <->
               exists hits, findSimilarMemories (generateQueryEmbedding provider)
                              (threshold o) st = Ok hits).
{ unfold searchMemories.
  destruct (findSimilarMemories _ _ _) as [hits | message]; cbn [error].
  - split; eauto.
  - split; [discriminate | intros (hits & [=])]. }
assert (Hchar : error (searchMemories query o provider st) = None <->
         forall q k t u,
           generateQueryEmbedding provider = Some q ->
           In (k, t) (embeddingIndex st) -> unified t = Some u ->
           (threshold o <=? similarity (Some q) (Some u))%float = true ->
           JsMap.has k (memoryStore st) = true).
{ rewrite Hiff. unfold findSimilarMemories.
  destruct (generateQueryEmbedding provider) as [q |].
  - rewrite scanIndex_ok. split.
    + intros Hall q' k t u [= <-]. apply Hall.
    + intros Hall k t u. now apply Hall.
  - split; [intros _ q k t u [=] | eauto]. }
split; [exact Hchar |]. split.
- unfold searchMemories.
  destruct (findSimilarMemories _ _ _) as [hits | message] eqn:Hfind; cbn [error].
  + intro Hne. now elim Hne.
  + intros _. repeat split. f_equal.
    unfold findSimilarMemories in Hfind.
    destruct (generateQueryEmbedding provider) as [q |]; [| discriminate].
    clear Hiff Hchar. revert Hfind.
    induction (embeddingIndex st) as [|[k t] index IH]; cbn [scanIndex]; [discriminate |].
    destruct (unified t) as [u |]; [| exact IH].
    destruct (threshold o <=? similarity (Some q) (Some u))%float; [| exact IH].
    destruct (JsMap.get k (memoryStore st)); [| now intros [= <-]].
    destruct (scanIndex q (threshold o) index (memoryStore st)) as [rest | message'];
      [discriminate |].
    intros [= <-]. now apply IH.
- intro Hr. apply Hchar. intros q k t u _ Hin _ _.
  apply map_has_In, (embeddings_stored st (reachable_consistent st Hr)).
  apply (in_map fst) in Hin. exact Hin.
Qed.

Lemma search_throws_only_on_a_torn_index_witness :
  error (searchMemories "anything" defaultOptions (ResponseOk (Some [1; 0]%float))
           twoAlike) = None.
Proof.
apply (search_throws_only_on_a_torn_index "anything" defaultOptions
         (ResponseOk (Some [1; 0]%float)) twoAlike).
unfold twoAlike. repeat constructor.
Defined.

Lemma applyFilters_In (hits : list SearchHit) (o : SearchOptions) (hit : SearchHit) :
  In hit (applyFilters hits o) ->
  In hit hits /\
  (forall d, truthy (domainFilter o) = Some d -> domain (hit_memory hit) = d) /\
  (forall c, truthy (categoryFilter o) = Some c ->
             In c (sf_categories (semanticFeatures (hit_memory hit)))) /\
  (forall f, temporalFilter o = Some f ->
             tsGeb (timestamp (hit_memory hit)) (tf_start f) = true /\
             tsGeb (tf_end f) (timestamp (hit_memory hit)) = true).
Proof.
unfold applyFilters. intro Hin.
set (byDomain := match truthy (domainFilter o) with
                 | Some d => filter (fun r => String.eqb (domain (hit_memory r)) d) hits
                 | None => hits
                 end) in *.
set (byCategory := match truthy (categoryFilter o) with
                   | Some c => filter _ byDomain
                   | None => byDomain
                   end) in *.
assert (Htime : In hit byCategory /\
                forall f, temporalFilter o = Some f ->
                  tsGeb (timestamp (hit_memory hit)) (tf_start f) = true /\
                  tsGeb (tf_end f) (timestamp (hit_memory hit)) = true).
{ destruct (temporalFilter o) as [f |].
  - apply filter_In in Hin as [Hin Hf]. apply andb_true_iff in Hf.
    split; [exact Hin | now intros f' [= <-]].
  - split; [exact Hin | discriminate]. }
destruct Htime as [Hc Htime].
assert (Hcat : In hit byDomain /\
               forall c, truthy (categoryFilter o) = Some c ->
                 In c (sf_categories (semanticFeatures (hit_memory hit)))).
{ unfold byCategory in Hc. destruct (truthy (categoryFilter o)) as [c |].
  - apply filter_In in Hc as [Hc Hf]. apply set_has_In in Hf.
    split; [exact Hc | now intros c' [= <-]].
  - split; [exact Hc | discriminate]. }
destruct Hcat as [Hd Hcat].
assert (Hdom : In hit hits /\
               forall d, truthy (domainFilter o) = Some d -> domain (hit_memory hit) = d).
{ unfold byDomain in Hd. destruct (truthy (domainFilter o)) as [d |].
  - apply filter_In in Hd as [Hd Hf]. apply String.eqb_eq in Hf.
    split; [exact Hd | now intros d' [= <-]].
  - split; [exact Hd | discriminate]. }
destruct Hdom as [Hh Hdom]. repeat split; try assumption; now apply Htime.
Qed.

(** The hit before its relationships were attached. *)
Lemma results_origin (query : string) (o : SearchOptions) (provider : FetchOutcome)
    (st : Store) (hit : SearchHit) :
  In hit (results (searchMemories query o provider st)) ->
  exists q hits raw,
    generateQueryEmbedding provider = Some q /\
    scanIndex q (threshold o) (embeddingIndex st) (memoryStore st) = Ok hits /\
    In raw (applyFilters hits o) /\
    hit_memoryId hit = hit_memoryId raw /\ hit_similarity hit = hit_similarity raw /\
    hit_memory hit = hit_memory raw /\ hit_url hit = hit_url raw /\
    hit_timestamp hit = hit_timestamp raw /\ hit_summary hit = hit_summary raw /\
    (includeRelationships o = false -> hit = raw) /\
    (includeRelationships o = true ->
     In hit (enhanceWithRelationships [raw] st)).
Proof.
unfold searchMemories, findSimilarMemories.
destruct (generateQueryEmbedding provider) as [q |].
- destruct (scanIndex q (threshold o) (embeddingIndex st) (memoryStore st))
    as [hits | message] eqn:Hscan; cbn [results]; [| contradiction].
  destruct (includeRelationships o).
  + unfold enhanceWithRelationships at 1. intro Hin.
    apply in_map_iff in Hin as (raw & <- & Hraw).
    apply slice0_incl, stableSort_In in Hraw.
    exists q, hits, raw. repeat split; try assumption; try discriminate.
    intros _. cbn. now left.
  + intro Hraw. apply slice0_incl, stableSort_In in Hraw.
    exists q, hits, hit. repeat split; try assumption; discriminate.
- cbn [results]. assert (Hf : applyFilters [] o = []).
  { unfold applyFilters.
    destruct (truthy (domainFilter o)), (truthy (categoryFilter o)), (temporalFilter o);
      reflexivity. }
  rewrite Hf. cbn [stableSort fold_left]. rewrite slice0_nil.
  destruct (includeRelationships o); contradiction.
Qed.

(** X7.  Every hit of [searchMemories] is a record of the canonical table
    that the embedding index knows, carries the cosine similarity between
    the query embedding and that record's indexed embedding, reaches the
    threshold and passes each filter that was given; [totalFound] counts
    the hits, which are at most [limit] when the limit is not negative. *)
Theorem search_hits_are_sound
    (query : string) (o : SearchOptions) (provider : FetchOutcome) (st : Store) :
  let r := searchMemories query o provider st in
  totalFound r = List.length (results r) /\
  ((0 <= limit o)%Z -> (Z.of_nat (totalFound r) <= limit o)%Z) /\
  (forall hit, In hit (results r) ->
     JsMap.get (hit_memoryId hit) (memoryStore st) = Some (hit_memory hit) /\
     (exists q t u,
        generateQueryEmbedding provider = Some q /\
        In (hit_memoryId hit, t) (embeddingIndex st) /\ unified t = Some u /\
        hit_similarity hit = similarity (Some q) (Some u)) /\
     (threshold o <=? hit_similarity hit)%float = true /\
     hit_url hit = url (hit_memory hit) /\
     hit_timestamp hit = timestamp (hit_memory hit) /\
     (forall d, truthy (domainFilter o) = Some d -> domain (hit_memory hit) = d) /\
     (forall c, truthy (categoryFilter o) = Some c ->
                In c (sf_categories (semanticFeatures (hit_memory hit)))) /\
     (forall f, temporalFilter o = Some f ->
                tsGeb (timestamp (hit_memory hit)) (tf_start f) = true /\
                tsGeb (tf_end f) (timestamp (hit_memory hit)) = true)).
Proof.
cbv zeta. split; [| split].
- unfold searchMemories. now destruct (findSimilarMemories _ _ _).
- intro Hlimit. unfold searchMemories.
  destruct (findSimilarMemories _ _ _) as [hits | message]; cbn [totalFound]; [| lia].
  assert (Hlen : forall l : list SearchHit,
            (Z.of_nat (List.length (slice0 (limit o) l)) <= limit o)%Z).
  { intro l. unfold slice0. destruct (limit o <? 0)%Z eqn:Hneg;
      [apply Z.ltb_lt in Hneg; lia |].
    pose proof (firstn_le_length (Z.to_nat (limit o)) l). lia. }
  destruct (includeRelationships o); [| apply Hlen].
  unfold enhanceWithRelationships. rewrite length_map. apply Hlen.
- intros hit Hin.
  apply results_origin in Hin
    as (q & hits & raw & Hq & Hscan & Hraw & Hid & Hsim & Hmem & Hurl & Hts & _).
  apply applyFilters_In in Hraw as (Hraw & Hd & Hc & Ht).
  destruct (scanIndex_hits _ _ _ _ _ Hscan raw Hraw)
    as ((t & u & Hi & Hu & Hs) & Hthr & Hget & Hu' & Hts' & _).
  rewrite Hid, Hsim, Hmem, Hurl, Hts.
  repeat split; try assumption; try (now apply Ht).
  exists q, t, u. repeat split; assumption.
Qed.

Lemma search_hits_are_sound_witness :
  (Z.of_nat (totalFound (searchMemories "anything" defaultOptions
                           (ResponseOk (Some [1; 0]%float)) threeRecords)) <= 10)%Z.
Proof.
apply (search_hits_are_sound "anything" defaultOptions (ResponseOk (Some [1; 0]%float))
         threeRecords).
discriminate.
Defined.

(** X8.  With [includeRelationships] every hit carries the edges of its
    record, in order, except those whose target is no longer in the
    canonical table: each attached relationship repeats the kind and the
    strength of an edge and holds the stored record of its target.
    Without the option no hit carries relationships. *)
Theorem search_attaches_live_relationships
    (query : string) (o : SearchOptions) (provider : FetchOutcome) (st : Store)
    (hit : SearchHit) :
  In hit (results (searchMemories query o provider st)) ->
  (includeRelationships o = false -> hit_relationships hit = None) /\
  (includeRelationships o = true ->
   exists related,
     hit_relationships hit = Some related /\
     related =
       flat_map (fun rel =>
                   match JsMap.get (targetId rel) (memoryStore st) with
                   | Some memory => [{| rm_type := rel_type rel; rm_strength := strength rel;
                                        rm_memory := memory |}]
                   | None => []
                   end)
                (edgesOf (hit_memoryId hit) (relationshipGraph st)) /\
     List.length related <= List.length (edgesOf (hit_memoryId hit) (relationshipGraph st)) /\
     forall rm, In rm related ->
       exists edge,
         In edge (edgesOf (hit_memoryId hit) (relationshipGraph st)) /\
         rm_type rm = rel_type edge /\ rm_strength rm = strength edge /\
         JsMap.get (targetId edge) (memoryStore st) = Some (rm_memory rm)).
Proof.
intro Hin.
apply results_origin in Hin
  as (q & hits & raw & Hq & Hscan & Hraw & Hid & _ & _ & _ & _ & _ & Hplain & Hrich).
apply applyFilters_In in Hraw as (Hraw & _).
destruct (scanIndex_hits _ _ _ _ _ Hscan raw Hraw) as (_ & _ & _ & _ & _ & _ & Hnone).
split.
- intro Hoff. now rewrite (Hplain Hoff).
- intro Hon. destruct (Hrich Hon) as [<- | []].
  cbn [hit_relationships hit_memoryId]. eexists. split; [reflexivity |].
  split; [reflexivity |]. fold (edgesOf (hit_memoryId raw) (relationshipGraph st)).
  split.
  + induction (edgesOf (hit_memoryId raw) (relationshipGraph st)) as [|rel rels IH];
      simpl; [lia |].
    rewrite length_app. destruct (JsMap.get (targetId rel) (memoryStore st)); simpl; lia.
  + intros rm Hrm. apply in_flat_map in Hrm as (edge & Hedge & Hrm).
    exists edge. split; [exact Hedge |].
    destruct (JsMap.get (targetId edge) (memoryStore st)) as [memory |]; [| contradiction].
    destruct Hrm as [<- | []]. now repeat split.
Qed.

Lemma search_attaches_live_relationships_witness :
  match results (searchMemories "anything" defaultOptions
                   (ResponseOk (Some [1; 0]%float)) threeRecords) with
  | hit :: _ => hit_relationships hit <> None
  | [] => False
  end.
Proof.
destruct (results (searchMemories "anything" defaultOptions
                     (ResponseOk (Some [1; 0]%float)) threeRecords))
  as [| hit hits] eqn:Hresults; [vm_compute in Hresults; discriminate |].
assert (Hin : In hit (results (searchMemories "anything" defaultOptions
                                 (ResponseOk (Some [1; 0]%float)) threeRecords)))
  by (rewrite Hresults; now left).
destruct (search_attaches_live_relationships _ _ _ _ hit Hin) as [_ Hon].
destruct (Hon eq_refl) as (related & -> & _). discriminate.
Defined.

(** ** Eviction of records dated by strings *)

Lemma stableSort_unordered {A : Type} (after : A -> A -> bool) (l : list A) :
  (forall x y, In x l -> after y x = false) -> stableSort after l = l.
Proof.
intro Hnever. unfold stableSort.
assert (Hgen : forall acc, fold_left (fun acc x => sortInsert after x acc) l acc = acc ++ l).
{ induction l as [|x l IH]; intro acc; simpl; [now rewrite app_nil_r |].
  rewrite IH by (intros; apply Hnever; now right).
  assert (Hins : sortInsert after x acc = acc ++ [x]).
  { induction acc as [|y acc IHacc]; simpl; [reflexivity |].
    rewrite (Hnever x y) by now left. now rewrite IHacc. }
  rewrite Hins, <- app_assoc. reflexivity. }
apply Hgen.
Qed.

Lemma removeAll_memoryStore (l : list (string * MemoryEntry)) (st : Store) :
  memoryStore (fold_left (fun st kv => removeMemory (fst kv) st) l st) =
  fold_left (fun m kv => JsMap.delete (fst kv) m) l (memoryStore st).
Proof.
revert st. induction l as [|kv l IH]; intro st; simpl; [reflexivity |].
now rewrite IH.
Qed.

Lemma map_delete_prefix {V : Type} (p m : JsMap.t V) :
  NoDup (JsMap.keys (p ++ m)) ->
  fold_left (fun m kv => JsMap.delete (fst kv) m) p (p ++ m) = m.
Proof.
induction p as [|[k v] p IH]; simpl; intro Hnd; [reflexivity |].
inversion Hnd as [|? ? Hk Hnd']; subst.
unfold JsMap.delete at 2. simpl. rewrite String.eqb_refl. simpl.
fold (JsMap.delete k (p ++ m)). rewrite map_delete_absent by exact Hk.
now apply IH.
Qed.

(** X9.  When every timestamp of the table is a date-time string, as the
    background script stores them, the capacity check drops the records
    inserted first, whatever their dates: after an insert the canonical
    table is the written table without its first [size - maxMemories]
    entries, in insertion order. *)
Theorem string_timestamps_evict_in_insertion_order `{Platform}
    (st : Store) (id fresh : string) (now : Z) (e : MemoryEntry) :
  let table := JsMap.set id e (memoryStore st) in
  Reachable st ->
  Forall (fun kv => isNumeric kv = false) table ->
  memoryStore (insertEntry id fresh now e st) =
  skipn (List.length table - Z.to_nat (maxMemories st)) table.
Proof.
intros table Hr Hiso.
pose proof (fanOut_consistent id fresh now e st (reachable_consistent st Hr)) as Hc.
pose proof (table_keys_unique _ Hc) as Hnd.
unfold insertEntry, maintainMemoryLimits. rewrite removeAll_memoryStore.
unfold toRemove. rewrite fanOut_maxMemories.
rewrite fanOut_memoryStore in *. fold table in Hnd |- *.
rewrite stableSort_unordered.
2:{ intros x y Hx. rewrite Forall_forall in Hiso. specialize (Hiso x Hx).
    unfold isNumeric in Hiso. unfold timestampAfter.
    destruct (timestamp (snd y)); [| reflexivity].
    destruct (timestamp (snd x)); [discriminate | reflexivity]. }
set (k := List.length table - Z.to_nat (maxMemories st)).
assert (Hrem : (if (Z.of_nat (List.length table) <=? maxMemories st)%Z then []
                else slice0 (Z.of_nat (List.length table) - maxMemories st) table) =
               firstn k table).
{ destruct (_ <=? _)%Z eqn:Hle.
  - apply Z.leb_le in Hle. replace k with 0 by (unfold k; lia). reflexivity.
  - apply Z.leb_gt in Hle. unfold slice0.
    destruct (_ <? 0)%Z eqn:Hneg; [apply Z.ltb_lt in Hneg; lia |].
    destruct (Z_le_gt_dec 0 (maxMemories st)) as [Hmax | Hmax].
    + f_equal. unfold k. lia.
    + rewrite !firstn_all2; [reflexivity | unfold k; lia | lia]. }
rewrite Hrem. rewrite <- (firstn_skipn k table) at 2.
apply map_delete_prefix. now rewrite firstn_skipn.
Qed.

Lemma string_timestamps_evict_in_insertion_order_witness :
  JsMap.keys (memoryStore threeIsoVisits) = ["memory-2"; "memory-3"].
Proof.
unfold threeIsoVisits.
unfold storeMemory at 1.
cbn [createMemoryEntry isoVisit sampleResult or_agentResults or_qualityMetrics
     or_orchestratorSynthesis or_orchestrationMetadata fst].
rewrite string_timestamps_evict_in_insertion_order.
- vm_compute. reflexivity.
- unfold storeMemory.
  cbn [createMemoryEntry isoVisit sampleResult or_agentResults or_qualityMetrics
     or_orchestratorSynthesis or_orchestrationMetadata fst].
  repeat constructor.
- vm_compute. repeat constructor.
Defined.

(** ** Rankings *)

Lemma sortInsert_ordered {A : Type} (key : A -> Z) (x : A) (l : list A) :
  StronglySorted (fun a b => (key a <= key b)%Z) l ->
  StronglySorted (fun a b => (key a <= key b)%Z) (sortInsert (keyAfter key) x l).
Proof.
induction l as [|y l IH]; intro Hs; simpl.
- repeat constructor.
- apply StronglySorted_inv in Hs as [Hs Hy].
  unfold keyAfter at 1. destruct (key x <? key y)%Z eqn:Hk.
  + apply Z.ltb_lt in Hk. constructor; [constructor; assumption |].
    constructor; [lia |].
    rewrite Forall_forall in Hy |- *. intros z Hz. specialize (Hy z Hz). lia.
  + apply Z.ltb_ge in Hk. constructor; [now apply IH |].
    rewrite Forall_forall in Hy |- *. intros z Hz.
    apply (Permutation_in _ (sortInsert_perm _ x l)) in Hz as [<- | Hz]; [exact Hk | auto].
Qed.

Lemma stableSort_ordered {A : Type} (key : A -> Z) (l : list A) :
  StronglySorted (fun a b => (key a <= key b)%Z) (stableSort (keyAfter key) l).
Proof.
unfold stableSort.
assert (Hgen : forall acc,
          StronglySorted (fun a b => (key a <= key b)%Z) acc ->
          StronglySorted (fun a b => (key a <= key b)%Z)
            (fold_left (fun acc x => sortInsert (keyAfter key) x acc) l acc)).
{ induction l as [|x l IH]; intros acc Hacc; simpl; [exact Hacc |].
  apply IH. now apply sortInsert_ordered. }
apply Hgen. constructor.
Qed.

Lemma sorted_firstn {A : Type} (R : A -> A -> Prop) (n : nat) (l : list A) :
  StronglySorted R l -> StronglySorted R (firstn n l).
Proof.
revert l. induction n as [|n IH]; intros [|x l] Hs; simpl; try constructor.
- apply IH. now apply StronglySorted_inv in Hs.
- apply StronglySorted_inv in Hs as [_ Hx].
  rewrite Forall_forall in Hx |- *. intros y Hy. apply Hx. eapply firstn_In, Hy.
Qed.

Lemma slice0_firstn {A : Type} (n : Z) (l : list A) :
  exists k, slice0 n l = firstn k l.
Proof. unfold slice0. destruct (n <? 0)%Z; eexists; reflexivity. Qed.

(** The head of a sorted list against what the cut leaves out. *)
Lemma firstn_dominates {A : Type} (R : A -> A -> Prop) (k : nat) (l : list A) (x : A) :
  StronglySorted R l -> In x l -> ~ In x (firstn k l) ->
  List.length (firstn k l) = k /\ forall p, In p (firstn k l) -> R p x.
Proof.
intros Hs Hx Hout.
rewrite <- (firstn_skipn k l) in Hx, Hs.
apply in_app_or in Hx as [Hx | Hx]; [contradiction |].
split.
- rewrite length_firstn. destruct (Nat.le_gt_cases k (List.length l)) as [Hk | Hk]; [lia |].
  rewrite skipn_all2 in Hx by lia. contradiction.
- intros p Hp. now apply (sorted_app_pairs _ _ _ Hs).
Qed.

Lemma countMembers_entries (index : JsMap.t JsSet.t) :
  NoDup (JsMap.keys index) ->
  countMembers index = map (fun kv => (fst kv, List.length (snd kv))) index.
Proof.
unfold countMembers.
assert (Hgen : forall (done : JsMap.t JsSet.t),
          NoDup (JsMap.keys (done ++ index)) ->
          fold_left (fun count kv => JsMap.set (fst kv) (List.length (snd kv)) count) index
            (map (fun kv => (fst kv, List.length (snd kv))) done) =
          map (fun kv => (fst kv, List.length (snd kv))) (done ++ index)).
{ induction index as [|[k s] index IH]; intros done Hd; simpl.
  - now rewrite app_nil_r.
  - rewrite map_set_fresh.
    + replace (map (fun kv => (fst kv, List.length (snd kv))) done ++ [(k, List.length s)])
        with (map (fun kv => (fst kv, List.length (snd kv))) (done ++ [(k, s)]))
        by (rewrite map_app; reflexivity).
      rewrite IH; [now rewrite <- app_assoc |]. rewrite <- app_assoc. exact Hd.
    + apply map_has_false. unfold JsMap.keys in *. rewrite map_map. cbn [fst].
      rewrite map_app in Hd. apply NoDup_remove_2 in Hd.
      intro Hin. apply Hd. apply in_or_app. now left. }
apply (Hgen []).
Qed.

Lemma top_ten (index : JsMap.t JsSet.t) :
  NoDup (JsMap.keys index) ->
  TopTen index (slice0 10 (stableSort fewerThan (countMembers index))).
Proof.
intro Hnd. rewrite (slice0_nonneg 10) by lia. change (Z.to_nat 10) with 10.
rewrite (countMembers_entries index Hnd).
set (counts := map (fun kv => (fst kv, List.length (snd kv))) index).
set (key := fun p : string * nat => (- Z.of_nat (snd p))%Z).
rewrite (stableSort_ext fewerThan (keyAfter key) counts).
2:{ intros x y _ _. unfold fewerThan, keyAfter, key.
    destruct (Nat.ltb_spec (snd x) (snd y)); symmetry;
      [apply Z.ltb_lt | apply Z.ltb_ge]; lia. }
set (sorted := stableSort (keyAfter key) counts).
assert (Hkeys : map fst counts = JsMap.keys index).
{ unfold counts, JsMap.keys. rewrite map_map. reflexivity. }
assert (Hsorted : StronglySorted (fun a b => (key a <= key b)%Z) sorted)
  by apply stableSort_ordered.
assert (Hperm : Permutation sorted counts) by apply stableSort_perm.
assert (Hdistinct : NoDup (map fst sorted)).
{ apply (Permutation_NoDup (l := map fst counts)).
  - apply Permutation_map. now symmetry.
  - now rewrite Hkeys. }
assert (Hcounted : forall name count, In (name, count) counts <->
          exists s, JsMap.get name index = Some s /\ count = List.length s).
{ intros name count. unfold counts. rewrite in_map_iff. split.
  - intros ([k s] & [= <- <-] & Hin). exists s. split; [| reflexivity].
    now apply map_In_get.
  - intros (s & Hget & ->). exists (name, s). split; [reflexivity |].
    now apply map_get_In. }
unfold TopTen. split; [apply firstn_le_length |].
split.
{ rewrite <- firstn_map. now apply NoDup_firstn. }
split.
{ intros name count Hin. apply Hcounted. apply (Permutation_in _ Hperm).
  eapply firstn_In, Hin. }
split.
{ assert (Hs : StronglySorted (fun a b => (key a <= key b)%Z) (firstn 10 sorted))
    by now apply sorted_firstn.
  clear -Hs. induction Hs as [|p l Hs IH Hp]; constructor; [exact IH |].
  rewrite Forall_forall in Hp |- *. intros q Hq. specialize (Hp q Hq).
  unfold key in Hp. lia. }
intros name s Hget Hout.
assert (Hin : In (name, List.length s) sorted).
{ apply (Permutation_in _ (Permutation_sym Hperm)). apply Hcounted. now exists s. }
destruct (firstn_dominates _ 10 sorted (name, List.length s) Hsorted Hin) as [Hlen Hdom].
- intro Hhead. apply Hout. now apply (in_map fst) in Hhead.
- split; [exact Hlen |]. intros p Hp. specialize (Hdom p Hp). unfold key in Hdom.
  cbn [snd] in Hdom. lia.
Qed.

Lemma removeAll_index_keys (l : list (string * MemoryEntry)) (st : Store) :
  JsMap.keys (semanticCategories (fold_left (fun st kv => removeMemory (fst kv) st) l st)) =
  JsMap.keys (semanticCategories st) /\
  JsMap.keys (domainClusters (fold_left (fun st kv => removeMemory (fst kv) st) l st)) =
  JsMap.keys (domainClusters st).
Proof.
revert st. induction l as [|kv l IH]; intro st; simpl; [now split |].
destruct (IH (removeMemory (fst kv) st)) as [-> ->].
cbn [semanticCategories domainClusters removeMemory].
now rewrite !map_keys_mapValues.
Qed.

Lemma addToSetMap_NoDup (key id : string) (m : JsMap.t JsSet.t) :
  NoDup (JsMap.keys m) -> NoDup (JsMap.keys (addToSetMap key id m)).
Proof. intro Hnd. rewrite addToSetMap_set. now apply map_set_NoDup. Qed.

Lemma reachable_index_keys `{Platform} (st : Store) :
  Reachable st ->
  NoDup (JsMap.keys (semanticCategories st)) /\ NoDup (JsMap.keys (domainClusters st)).
Proof.
induction 1 as [max | st id fresh now e Hr [IHc IHd] | st id Hr [IHc IHd]].
- split; constructor.
- unfold insertEntry, maintainMemoryLimits.
  destruct (removeAll_index_keys (toRemove (fanOut id fresh now e st))
              (fanOut id fresh now e st)) as [-> ->].
  rewrite fanOut_categories, fanOut_domains, indexed_categories, indexed_domains.
  split; [| now apply addToSetMap_NoDup].
  clear -IHc. revert IHc. generalize (semanticCategories st).
  induction (sf_categories (semanticFeatures e)) as [|c cs IH]; intros m Hm; simpl;
    [exact Hm |].
  apply IH. now apply addToSetMap_NoDup.
- cbn [semanticCategories domainClusters removeMemory].
  now rewrite !map_keys_mapValues.
Qed.

(** X10.  On every store that inserts and removals build,
    [getTopCategories] and [getTopDomains] list at most ten distinct
    names of their index, each with the size of its set, in
    non-increasing order of size, and a name that is not listed has a
    set no larger than any listed one. *)
Theorem rankings_are_top_ten `{Platform} (st : Store) :
  Reachable st ->
  TopTen (semanticCategories st) (getTopCategories st) /\
  TopTen (domainClusters st) (getTopDomains st).
Proof.
intro Hr. destruct (reachable_index_keys st Hr) as [Hc Hd].
split; now apply top_ten.
Qed.

Lemma rankings_are_top_ten_witness :
  TopTen (semanticCategories twoVisits) (getTopCategories twoVisits) /\
  getTopDomains twoVisits = [("example.com", 1)].
Proof.
split.
- apply (rankings_are_top_ten twoVisits). exact twoVisits_reachable.
- vm_compute. reflexivity.
Defined.

Lemma slice0_upto {A : Type} (n : Z) (l : list A) :
  (0 <= n)%Z -> slice0 n l = firstn (Z.to_nat n) l.
Proof.
intro Hn. unfold slice0. destruct (n <? 0)%Z eqn:Hneg; [| reflexivity].
apply Z.ltb_lt in Hneg. lia.
Qed.

(** X11.  [getRecentMemories] returns records of the canonical table, at
    most [limit] of them for a limit that is not negative and all of
    them when the limit is at least the size of the table.  When every
    stored timestamp is a valid date the records come newest first, and
    a stored record that is left out is no newer than any returned one. *)
Theorem recent_memories_are_the_newest `{Platform} (limit : Z) (st : Store) :
  let recent := getRecentMemories limit st in
  let table := map snd (memoryStore st) in
  ((0 <= limit)%Z -> (Z.of_nat (List.length recent) <= limit)%Z) /\
  (forall e, In e recent -> In e table) /\
  ((Z.of_nat (List.length table) <= limit)%Z -> Permutation recent table) /\
  (Forall (fun e => newDate (timestamp e) <> None) table ->
   NewestFirst recent /\
   forall e r te tr,
     In e table -> ~ In e recent -> In r recent ->
     newDate (timestamp e) = Some te -> newDate (timestamp r) = Some tr ->
     (te <= tr)%Z).
Proof.
intros recent table. unfold recent, getRecentMemories. fold table.
split.
{ intro Hlimit. rewrite slice0_upto by exact Hlimit.
  pose proof (firstn_le_length (Z.to_nat limit) (stableSort datedBefore table)). lia. }
split.
{ intros e He. apply slice0_incl in He. now apply stableSort_In in He. }
split.
{ intro Hall. rewrite slice0_upto by lia. rewrite firstn_all2.
  - apply stableSort_perm.
  - rewrite (Permutation_length (stableSort_perm datedBefore table)). lia. }
intro Hvalid. rewrite Forall_forall in Hvalid.
set (key := fun e : MemoryEntry =>
              match newDate (timestamp e) with Some t => (- t)%Z | None => 0%Z end).
rewrite (stableSort_ext datedBefore (keyAfter key) table).
2:{ intros y x Hy Hx. unfold datedBefore, keyAfter, key.
    pose proof (Hvalid _ Hy) as Hdy. pose proof (Hvalid _ Hx) as Hdx.
    destruct (newDate (timestamp x)) as [tx |]; [| contradiction].
    destruct (newDate (timestamp y)) as [ty |]; [| contradiction].
    destruct (Z.ltb_spec 0 (tx - ty)); symmetry; [apply Z.ltb_lt | apply Z.ltb_ge]; lia. }
set (sorted := stableSort (keyAfter key) table).
assert (Hsorted : StronglySorted (fun a b => (key a <= key b)%Z) sorted)
  by apply stableSort_ordered.
destruct (slice0_firstn limit sorted) as [k ->].
split.
- assert (Hs : StronglySorted (fun a b => (key a <= key b)%Z) (firstn k sorted))
    by now apply sorted_firstn.
  unfold NewestFirst. clear -Hs.
  induction Hs as [|p l Hs IH Hp]; constructor; [exact IH |].
  rewrite Forall_forall in Hp |- *. intros q Hq ta tb Ha Hb. specialize (Hp q Hq).
  unfold key in Hp. rewrite Ha, Hb in Hp. lia.
- intros e r te tr He Hout Hr Hte Htr.
  assert (Hin : In e sorted) by now apply stableSort_In.
  destruct (firstn_dominates _ k sorted e Hsorted Hin Hout) as [_ Hdom].
  specialize (Hdom r Hr). unfold key in Hdom. rewrite Hte, Htr in Hdom. lia.
Qed.

Lemma recent_memories_are_the_newest_witness :
  NewestFirst (getRecentMemories 2 threeRecords) /\
  List.length (getRecentMemories 2 threeRecords) = 2.
Proof.
split; [| vm_compute; reflexivity].
apply (recent_memories_are_the_newest 2 threeRecords).
apply Forall_forall. intros e He. vm_compute in He.
repeat destruct He as [<- | He]; try discriminate; destruct He.
Defined.

(** ** The fan-out as an invariant *)

Lemma fanOut_keeps_fanned `{Platform} (id fresh : string) (now : Z) (e : MemoryEntry)
    (st : Store) (x : string) (e' : MemoryEntry) :
  x <> id -> FannedOut st x e' -> FannedOut (fanOut id fresh now e st) x e'.
Proof.
intros Hx (Hemb & Hbuckets & Hdomain & Hcategories).
unfold FannedOut.
rewrite fanOut_embeddingIndex, fanOut_domains, fanOut_categories.
rewrite indexed_embeddingIndex, indexed_domains, indexed_categories.
split; [| split; [| split]].
- intro Hu. specialize (Hemb Hu).
  destruct (unified (embeddingsTensor e)); [| exact Hemb].
  apply map_keys_set_In. now right.
- intro g. destruct (Hbuckets g) as [Hown Honly].
  unfold inOwnBucketOnly. rewrite fanOut_buckets, indexed_bucket. split.
  + now apply addToSetMap_get_mono.
  + intros key s Hin Hs.
    destruct (addToSetMap_In _ _ _ _ _ Hin x Hs) as [[Heq _] | (s0 & Hin0 & Hs0)];
      [contradiction |].
    now apply (Honly key s0).
- now apply addToSetMap_get_mono.
- intros category Hc. apply categories_get_mono. now apply Hcategories.
Qed.

Lemma built_reachable `{Platform} (st : Store) : Built st -> Reachable st.
Proof. induction 1; now constructor. Qed.

Lemma built_fanned_out `{Platform} (st : Store) :
  Built st -> AllFannedOut st.
Proof.
induction 1 as [max | st id fresh now e Hb IH Hfresh | st id Hb IH]; intros x e' Hin.
- destruct Hin.
- unfold insertEntry, maintainMemoryLimits in *.
  apply removeAll_In in Hin as [Hin Hkept]. cbn [fst] in Hkept.
  apply removeAll_fanned; [exact Hkept |].
  rewrite fanOut_memoryStore in Hin.
  apply map_set_In in Hin as [[-> ->] | Hin].
  + apply fanOut_fanned; [| exact Hfresh].
    now apply reachable_consistent, built_reachable.
  + apply fanOut_keeps_fanned; [| now apply IH].
    intros ->. apply Hfresh. unfold stored, JsMap.keys.
    now apply (in_map fst) in Hin.
- cbn [memoryStore removeMemory] in Hin. apply map_delete_In in Hin as [Hin Hx].
  apply removeMemory_fanned; [exact Hx | now apply IH].
Qed.

(** ** Rebuilding the derived indices *)

Lemma addToSetMap_holds (key id : string) (m : JsMap.t JsSet.t) (k x : string) :
  NoDup (JsMap.keys m) ->
  indexHolds (addToSetMap key id m) k x <-> (x = id /\ k = key) \/ indexHolds m k x.
Proof.
intro Hnd. unfold indexHolds. split.
- intros (s & Hget & Hx). apply map_get_In in Hget.
  destruct (addToSetMap_In key id m k s Hget x Hx) as [Hnew | (s0 & Hin0 & Hx0)];
    [now left | right].
  exists s0. split; [now apply map_In_get | exact Hx0].
- intros [[-> ->] | Hold].
  + apply addToSetMap_get_same.
  + now apply addToSetMap_get_mono.
Qed.

Lemma addUnder_holds (keysOf : MemoryEntry -> list string) (m : JsMap.t JsSet.t)
    (kv : string * MemoryEntry) (k x : string) :
  NoDup (JsMap.keys m) ->
  NoDup (JsMap.keys (addUnder keysOf m kv)) /\
  (indexHolds (addUnder keysOf m kv) k x <->
   (x = fst kv /\ In k (keysOf (snd kv))) \/ indexHolds m k x).
Proof.
unfold addUnder. revert m.
induction (keysOf (snd kv)) as [|key keys IH]; intros m Hnd; simpl.
- split; [exact Hnd | tauto].
- destruct (IH (addToSetMap key (fst kv) m) (addToSetMap_NoDup _ _ _ Hnd)) as [Hnd' Hiff].
  split; [exact Hnd' |]. rewrite Hiff, (addToSetMap_holds _ _ _ _ _ Hnd).
  intuition (subst; auto).
Qed.

Lemma rebuilt_holds (keysOf : MemoryEntry -> list string)
    (l : list (string * MemoryEntry)) (m : JsMap.t JsSet.t) (k x : string) :
  NoDup (JsMap.keys m) ->
  indexHolds (fold_left (addUnder keysOf) l m) k x <->
  (exists e, In (x, e) l /\ In k (keysOf e)) \/ indexHolds m k x.
Proof.
revert m. induction l as [|[y e] l IH]; intros m Hnd; simpl.
- split; [auto | intros [(e & [] & _) | Hm]; exact Hm].
- destruct (addUnder_holds keysOf m (y, e) k x Hnd) as [Hnd' Hiff].
  rewrite (IH _ Hnd'), Hiff. cbn [fst snd]. split.
  + intros [(e' & Hin & Hk) | [[-> Hk] | Hm]].
    * left. exists e'. split; [now right | exact Hk].
    * left. exists e. split; [now left | exact Hk].
    * now right.
  + intros [(e' & [[= <- <-] | Hin] & Hk) | Hm].
    * right. left. now split.
    * left. now exists e'.
    * right. now right.
Qed.

Section Rebuild.
Context `{Platform}.

Lemma reindex_fields (st : Store) (kv : string * MemoryEntry) :
  memoryStore (reindex st kv) = memoryStore st /\
  embeddingIndex (reindex st kv) = embeddingIndex st /\
  conceptClusters (reindex st kv) = conceptClusters st /\
  relationshipGraph (reindex st kv) = relationshipGraph st /\
  maxMemories (reindex st kv) = maxMemories st /\
  embeddingBuckets (reindex st kv) = embeddingBuckets st /\
  (forall g, bucketOf g (temporalBuckets (reindex st kv)) =
             addUnder (fun e => [temporalKey g (timestamp e)])
               (bucketOf g (temporalBuckets st)) kv) /\
  domainClusters (reindex st kv) =
    addUnder (fun e => [domain e]) (domainClusters st) kv /\
  semanticCategories (reindex st kv) =
    addUnder (fun e => sf_categories (semanticFeatures e)) (semanticCategories st) kv.
Proof.
destruct kv as [x e]. unfold reindex, addUnder.
cbn -[temporalKey addToSetMap].
repeat (split; [reflexivity |]).
split; [intros []; reflexivity |]. split; reflexivity.
Qed.

Lemma reindexAll_fields (l : list (string * MemoryEntry)) (st : Store) :
  memoryStore (fold_left reindex l st) = memoryStore st /\
  embeddingIndex (fold_left reindex l st) = embeddingIndex st /\
  conceptClusters (fold_left reindex l st) = conceptClusters st /\
  relationshipGraph (fold_left reindex l st) = relationshipGraph st /\
  maxMemories (fold_left reindex l st) = maxMemories st /\
  embeddingBuckets (fold_left reindex l st) = embeddingBuckets st /\
  (forall g, bucketOf g (temporalBuckets (fold_left reindex l st)) =
             fold_left (addUnder (fun e => [temporalKey g (timestamp e)])) l
               (bucketOf g (temporalBuckets st))) /\
  domainClusters (fold_left reindex l st) =
    fold_left (addUnder (fun e => [domain e])) l (domainClusters st) /\
  semanticCategories (fold_left reindex l st) =
    fold_left (addUnder (fun e => sf_categories (semanticFeatures e))) l
      (semanticCategories st).
Proof.
revert st. induction l as [|kv l IH]; intro st; simpl.
- repeat split; reflexivity.
- destruct (IH (reindex st kv)) as (-> & -> & -> & -> & -> & -> & Hb & -> & ->).
  destruct (reindex_fields st kv) as (-> & -> & -> & -> & -> & -> & Hb' & -> & ->).
  repeat (split; [reflexivity |]).
  split; [| split; reflexivity].
  intro g. now rewrite Hb, Hb'.
Qed.

Lemma indexHolds_nil (key x : string) : ~ indexHolds [] key x.
Proof. intros (s & Hget & _). discriminate. Qed.

Lemma rebuildIndices_exact (st : Store) :
  memoryStore (rebuildIndices st) = memoryStore st /\
  embeddingIndex (rebuildIndices st) = embeddingIndex st /\
  conceptClusters (rebuildIndices st) = conceptClusters st /\
  relationshipGraph (rebuildIndices st) = relationshipGraph st /\
  maxMemories (rebuildIndices st) = maxMemories st /\
  embeddingBuckets (rebuildIndices st) = embeddingBuckets st /\
  DerivedExactly (rebuildIndices st).
Proof.
unfold rebuildIndices.
cbn [memoryStore withDomainClusters withSemanticCategories withTemporalBuckets].
set (cleared := withDomainClusters [] _).
destruct (reindexAll_fields (memoryStore st) cleared)
  as (Hm & He & Hc & Hg & Hx & Hk & Hb & Hd & Hs).
repeat (split; [assumption |]).
unfold DerivedExactly. rewrite Hm, Hd, Hs. cbn [memoryStore cleared withDomainClusters
  withSemanticCategories withTemporalBuckets domainClusters semanticCategories].
split; [| split].
- intros g key x. rewrite Hb.
  replace (bucketOf g (temporalBuckets cleared)) with (@nil (string * JsSet.t))
    by (destruct g; reflexivity).
  rewrite rebuilt_holds by constructor. split.
  + intros [(e & Hin & [<- | []]) | Hnil]; [now exists e |].
    now apply indexHolds_nil in Hnil.
  + intros (e & Hin & ->). left. exists e. split; [exact Hin | now left].
- intros key x. rewrite rebuilt_holds by constructor. split.
  + intros [(e & Hin & [<- | []]) | Hnil]; [now exists e |].
    now apply indexHolds_nil in Hnil.
  + intros (e & Hin & ->). left. exists e. split; [exact Hin | now left].
- intros key x. rewrite rebuilt_holds by constructor. split.
  + intros [Hsome | Hnil]; [exact Hsome |]. now apply indexHolds_nil in Hnil.
  + intro Hsome. now left.
Qed.

Lemma importMemoryState_exact (state : MemoryState) (st : Store) :
  let st' := importMemoryState state st in
  memoryStore st' = mapOfEntries (memories state) /\
  embeddingIndex st' = mapOfEntries (embeddings state) /\
  conceptClusters st' = mapOfEntries (clusters state) /\
  relationshipGraph st' = mapOfEntries (relationships state) /\
  maxMemories st' = maxMemories st /\
  embeddingBuckets st' = embeddingBuckets st /\
  DerivedExactly st'.
Proof.
cbv zeta. unfold importMemoryState.
set (loaded := withRelationshipGraph _ _).
destruct (rebuildIndices_exact loaded) as (-> & -> & -> & -> & -> & -> & Hexact).
repeat (split; [reflexivity |]). exact Hexact.
Qed.

(** X12.  [importMemoryState] takes the four maps of the state as
    [new Map] reads them, keeps the capacity and the embedding buckets of
    the receiving store, and rebuilds the temporal, domain and category
    indices from the imported table alone: afterwards they hold each
    imported record under its own keys and nothing else, whatever the
    receiving store held before. *)
Theorem import_rebuilds_the_derived_indices (state : MemoryState) (st : Store) :
  let st' := importMemoryState state st in
  memoryStore st' = mapOfEntries (memories state) /\
  embeddingIndex st' = mapOfEntries (embeddings state) /\
  conceptClusters st' = mapOfEntries (clusters state) /\
  relationshipGraph st' = mapOfEntries (relationships state) /\
  maxMemories st' = maxMemories st /\
  embeddingBuckets st' = embeddingBuckets st /\
  DerivedExactly st'.
Proof. apply importMemoryState_exact. Qed.
End Rebuild.

(** ** The derived indices as an invariant *)

Lemma forget_holds (y : string) (m : JsMap.t JsSet.t) (k x : string) :
  indexHolds (JsMap.mapValues (JsSet.delete y) m) k x <-> indexHolds m k x /\ x <> y.
Proof.
unfold indexHolds. rewrite map_get_mapValues. split.
- intros (s & Hget & Hx). destruct (JsMap.get k m) as [s0 |]; [| discriminate].
  injection Hget as <-. apply set_delete_In in Hx as [Hx Hne].
  split; [now exists s0 | exact Hne].
- intros [(s & Hget & Hx) Hne]. rewrite Hget. exists (JsSet.delete y s).
  split; [reflexivity |]. apply set_delete_In. now split.
Qed.

Lemma map_set_fresh_In {V : Type} (k : string) (v : V) (m : JsMap.t V) (k' : string) (v' : V) :
  ~ In k (JsMap.keys m) ->
  In (k', v') (JsMap.set k v m) <-> (k' = k /\ v' = v) \/ In (k', v') m.
Proof.
intro Hk. rewrite map_set_fresh by now apply map_has_false.
rewrite in_app_iff. simpl. split.
- intros [Hin | [[= <- <-] | []]]; auto.
- intros [[-> ->] | Hin]; auto.
Qed.

Section Exactness.
Context `{Platform}.

(** The keys of each derived index are distinct. *)
Lemma removeMemory_index_keys (y : string) (st : Store) :
  (forall g, JsMap.keys (bucketOf g (temporalBuckets (removeMemory y st))) =
             JsMap.keys (bucketOf g (temporalBuckets st))) /\
  JsMap.keys (domainClusters (removeMemory y st)) = JsMap.keys (domainClusters st) /\
  JsMap.keys (semanticCategories (removeMemory y st)) =
  JsMap.keys (semanticCategories st).
Proof.
split; [| split].
- intro g. rewrite bucketOf_removeMemory. apply map_keys_mapValues.
- cbn [domainClusters removeMemory]. apply map_keys_mapValues.
- cbn [semanticCategories removeMemory]. apply map_keys_mapValues.
Qed.

Lemma removeMemory_exact (y : string) (st : Store) :
  DerivedExactly st -> DerivedExactly (removeMemory y st).
Proof.
intros (Hb & Hd & Hc). unfold DerivedExactly. split; [| split].
- intros g key x. rewrite bucketOf_removeMemory, forget_holds, Hb.
  cbn [memoryStore removeMemory]. split.
  + intros [(e & Hin & Hk) Hne]. exists e. split; [| exact Hk].
    apply map_delete_In. now split.
  + intros (e & Hin & Hk). apply map_delete_In in Hin as [Hin Hne].
    split; [now exists e | exact Hne].
- intros key x. cbn [domainClusters memoryStore removeMemory].
  rewrite forget_holds, Hd. split.
  + intros [(e & Hin & Hk) Hne]. exists e. split; [| exact Hk].
    apply map_delete_In. now split.
  + intros (e & Hin & Hk). apply map_delete_In in Hin as [Hin Hne].
    split; [now exists e | exact Hne].
- intros key x. cbn [semanticCategories memoryStore removeMemory].
  rewrite forget_holds, Hc. split.
  + intros [(e & Hin & Hk) Hne]. exists e. split; [| exact Hk].
    apply map_delete_In. now split.
  + intros (e & Hin & Hk). apply map_delete_In in Hin as [Hin Hne].
    split; [now exists e | exact Hne].
Qed.

Lemma fanOut_exact (id fresh : string) (now : Z) (e : MemoryEntry) (st : Store) :
  ~ stored st id ->
  (forall g, NoDup (JsMap.keys (bucketOf g (temporalBuckets st)))) ->
  NoDup (JsMap.keys (domainClusters st)) ->
  NoDup (JsMap.keys (semanticCategories st)) ->
  DerivedExactly st ->
  DerivedExactly (fanOut id fresh now e st) /\
  (forall g, NoDup (JsMap.keys (bucketOf g (temporalBuckets (fanOut id fresh now e st))))) /\
  NoDup (JsMap.keys (domainClusters (fanOut id fresh now e st))) /\
  NoDup (JsMap.keys (semanticCategories (fanOut id fresh now e st))).
Proof.
intros Hfresh Hnb Hnd Hnc (Hb & Hd & Hc).
assert (Hbucket : forall g, bucketOf g (temporalBuckets (fanOut id fresh now e st)) =
          addUnder (fun e => [temporalKey g (timestamp e)])
            (bucketOf g (temporalBuckets st)) (id, e))
  by (intro g; rewrite fanOut_buckets, indexed_bucket; reflexivity).
assert (Hdomain : domainClusters (fanOut id fresh now e st) =
          addUnder (fun e => [domain e]) (domainClusters st) (id, e))
  by (rewrite fanOut_domains, indexed_domains; reflexivity).
assert (Hcategory : semanticCategories (fanOut id fresh now e st) =
          addUnder (fun e => sf_categories (semanticFeatures e))
            (semanticCategories st) (id, e))
  by (rewrite fanOut_categories, indexed_categories; reflexivity).
assert (Hwritten : forall (keysOf : MemoryEntry -> list string) key x,
          ((x = id /\ In key (keysOf e)) \/
           exists e', In (x, e') (memoryStore st) /\ In key (keysOf e')) <->
          exists e', In (x, e') (memoryStore (fanOut id fresh now e st)) /\
                     In key (keysOf e')).
{ intros keysOf key x. rewrite fanOut_memoryStore. split.
  - intros [[-> Hk] | (e' & Hin & Hk)].
    + exists e. split; [| exact Hk].
      apply (proj2 (map_set_fresh_In id e _ id e Hfresh)). now left.
    + exists e'. split; [| exact Hk].
      apply (proj2 (map_set_fresh_In id e _ x e' Hfresh)). now right.
  - intros (e' & Hin & Hk).
    apply (proj1 (map_set_fresh_In id e _ x e' Hfresh)) in Hin as [[-> ->] | Hin];
      [now left |].
    right. now exists e'. }
split; [| split; [| split]].
- unfold DerivedExactly. split; [| split].
  + intros g key x. rewrite Hbucket.
    rewrite (proj2 (addUnder_holds _ _ (id, e) key x (Hnb g))). cbn [fst snd].
    rewrite Hb.
    pose proof (Hwritten (fun e => [temporalKey g (timestamp e)]) key x) as Hw.
    cbn [In] in Hw. split.
    * intros [[-> [<- | []]] | (e' & Hin & ->)].
      -- destruct (proj1 Hw) as (e' & Hin & [<- | []]); [left; auto |]. now exists e'.
      -- destruct (proj1 Hw) as (e'' & Hin' & [<- | []]);
           [right; exists e'; auto |]. now exists e''.
    * intros (e' & Hin & ->).
      destruct (proj2 Hw) as [[-> [Hk | []]] | (e'' & Hin' & [Hk | []])];
        [exists e'; auto | left; split; [reflexivity | left; exact Hk] |].
      right. exists e''. split; [exact Hin' | now symmetry].
  + intros key x. rewrite Hdomain.
    rewrite (proj2 (addUnder_holds _ _ (id, e) key x Hnd)). cbn [fst snd].
    rewrite Hd.
    pose proof (Hwritten (fun e => [domain e]) key x) as Hw.
    cbn [In] in Hw. split.
    * intros [[-> [<- | []]] | (e' & Hin & ->)].
      -- destruct (proj1 Hw) as (e' & Hin & [<- | []]); [left; auto |]. now exists e'.
      -- destruct (proj1 Hw) as (e'' & Hin' & [<- | []]);
           [right; exists e'; auto |]. now exists e''.
    * intros (e' & Hin & ->).
      destruct (proj2 Hw) as [[-> [Hk | []]] | (e'' & Hin' & [Hk | []])];
        [exists e'; auto | left; split; [reflexivity | left; exact Hk] |].
      right. exists e''. split; [exact Hin' | now symmetry].
  + intros key x. rewrite Hcategory.
    rewrite (proj2 (addUnder_holds _ _ (id, e) key x Hnc)). cbn [fst snd].
    rewrite Hc. apply (Hwritten (fun e => sf_categories (semanticFeatures e))).
- intro g. rewrite Hbucket. now apply addUnder_holds.
- rewrite Hdomain. now apply addUnder_holds.
- rewrite Hcategory. now apply addUnder_holds.
Qed.

Lemma removeAll_exact (l : list (string * MemoryEntry)) (st : Store) :
  DerivedExactly st ->
  (forall g, NoDup (JsMap.keys (bucketOf g (temporalBuckets st)))) ->
  DerivedExactly (fold_left (fun st kv => removeMemory (fst kv) st) l st) /\
  (forall g, NoDup (JsMap.keys (bucketOf g (temporalBuckets
     (fold_left (fun st kv => removeMemory (fst kv) st) l st))))).
Proof.
revert st. induction l as [|kv l IH]; intros st Hexact Hnb; simpl; [now split |].
apply IH; [now apply removeMemory_exact |].
intro g. destruct (removeMemory_index_keys (fst kv) st) as (-> & _). apply Hnb.
Qed.

Lemma built_exact (st : Store) :
  Built st ->
  DerivedExactly st /\
  (forall g, NoDup (JsMap.keys (bucketOf g (temporalBuckets st)))).
Proof.
induction 1 as [max | st id fresh now e Hb [IH IHn] Hfresh | st id Hb [IH IHn]].
- split; [| intros []; constructor].
  unfold DerivedExactly. cbn [newStore memoryStore domainClusters semanticCategories].
  split; [| split].
  + intros g key x. split.
    * intro Hh. exfalso. destruct g; now apply indexHolds_nil in Hh.
    * intros (e & [] & _).
  + intros key x. split; [intro Hh; now apply indexHolds_nil in Hh | intros (e & [] & _)].
  + intros key x. split; [intro Hh; now apply indexHolds_nil in Hh | intros (e & [] & _)].
- destruct (reachable_index_keys st (built_reachable st Hb)) as [Hnc Hnd].
  destruct (fanOut_exact id fresh now e st Hfresh IHn Hnd Hnc IH) as (Hexact & Hnb & _).
  unfold insertEntry, maintainMemoryLimits. now apply removeAll_exact.
- split; [now apply removeMemory_exact |].
  intro g. destruct (removeMemory_index_keys id st) as (-> & _). apply IHn.
Qed.

(** X13.  In a store built by inserts under fresh identifiers and by
    removals, every record of the canonical table is fanned out at all
    times: it is in the embedding index when it has a unified embedding,
    in the bucket of its own timestamp and no other at each of the four
    granularities, in the set of its domain and in the set of each of its
    categories.  And the temporal, domain and category indices hold
    nothing else: an identifier under a key is a stored record to which
    the key belongs. *)
Theorem stored_records_stay_fanned_out (st : Store) :
  Built st -> AllFannedOut st /\ DerivedExactly st.
Proof.
intro Hb. split; [now apply built_fanned_out | now apply built_exact].
Qed.

End Exactness.

Lemma threeRecords_built : Built threeRecords.
Proof.
unfold threeRecords, twoAlike.
repeat (apply built_insert; [| vm_compute; intuition discriminate]).
apply built_new.
Qed.

Lemma stored_records_stay_fanned_out_witness :
  AllFannedOut threeRecords /\ DerivedExactly threeRecords.
Proof.
apply stored_records_stay_fanned_out.
exact threeRecords_built.
Defined.

(** ** Export and import *)

Lemma mapOfEntries_id {V : Type} (m : JsMap.t V) :
  NoDup (JsMap.keys m) -> mapOfEntries m = m.
Proof.
unfold mapOfEntries.
assert (Hgen : forall done : JsMap.t V,
          NoDup (JsMap.keys (done ++ m)) ->
          fold_left (fun m kv => JsMap.set (fst kv) (snd kv) m) m done = done ++ m).
{ induction m as [|[k v] m IH]; intros done Hnd; simpl; [now rewrite app_nil_r |].
  rewrite map_set_fresh.
  - rewrite IH; rewrite <- app_assoc; [reflexivity | exact Hnd].
  - apply map_has_false. unfold JsMap.keys in *. rewrite map_app in Hnd.
    apply NoDup_remove_2 in Hnd. intro Hin. apply Hnd. apply in_or_app. now left. }
apply (Hgen []).
Qed.

Lemma pushReverse_NoDup (id : string) (rels : list Relationship)
    (graph : JsMap.t (list Relationship)) :
  NoDup (JsMap.keys graph) -> NoDup (JsMap.keys (fold_left (pushReverse id) rels graph)).
Proof.
revert graph. induction rels as [|rel rels IH]; intros graph Hnd; simpl; [exact Hnd |].
apply IH. rewrite pushReverse_set. now apply map_set_NoDup.
Qed.

Lemma removeAll_map_keys (l : list (string * MemoryEntry)) (st : Store) :
  NoDup (JsMap.keys (embeddingIndex st)) ->
  NoDup (JsMap.keys (relationshipGraph st)) ->
  NoDup (JsMap.keys (embeddingIndex
           (fold_left (fun st kv => removeMemory (fst kv) st) l st))) /\
  NoDup (JsMap.keys (relationshipGraph
           (fold_left (fun st kv => removeMemory (fst kv) st) l st))).
Proof.
revert st. induction l as [|kv l IH]; intros st He Hg; simpl; [now split |].
apply IH; cbn [embeddingIndex relationshipGraph removeMemory].
- now apply map_delete_NoDup.
- rewrite map_keys_mapValues. now apply map_delete_NoDup.
Qed.

Lemma reachable_map_keys `{Platform} (st : Store) :
  Reachable st ->
  NoDup (JsMap.keys (embeddingIndex st)) /\ NoDup (JsMap.keys (relationshipGraph st)).
Proof.
induction 1 as [max | st id fresh now e Hr [IHe IHg] | st id Hr [IHe IHg]].
- split; constructor.
- unfold insertEntry, maintainMemoryLimits. apply removeAll_map_keys.
  + rewrite fanOut_embeddingIndex, indexed_embeddingIndex.
    destruct (unified (embeddingsTensor e)); [now apply map_set_NoDup | exact IHe].
  + rewrite fanOut_graph. unfold discoverRelationships.
    cbn [relationshipGraph withRelationshipGraph].
    apply pushReverse_NoDup, map_set_NoDup. now rewrite indexed_graph.
- cbn [embeddingIndex relationshipGraph removeMemory]. split.
  + now apply map_delete_NoDup.
  + rewrite map_keys_mapValues. now apply map_delete_NoDup.
Qed.

(** X14.  Exporting a store that was built under fresh identifiers and
    importing the state into any store gives back the canonical table,
    the embedding index, the concept clusters and the relationship graph
    as they were, and temporal, domain and category indices with the same
    members under the same keys.  The capacity and the embedding buckets
    are those of the receiving store: the export does not carry them. *)
Theorem export_then_import_restores_the_store `{Platform}
    (systemId : string) (now : Z) (st receiver : Store) :
  let st' := importMemoryState (exportMemoryState systemId now st) receiver in
  Built st ->
  memoryStore st' = memoryStore st /\
  embeddingIndex st' = embeddingIndex st /\
  conceptClusters st' = conceptClusters st /\
  relationshipGraph st' = relationshipGraph st /\
  (forall g, sameMembers (bucketOf g (temporalBuckets st'))
                         (bucketOf g (temporalBuckets st))) /\
  sameMembers (domainClusters st') (domainClusters st) /\
  sameMembers (semanticCategories st') (semanticCategories st) /\
  maxMemories st' = maxMemories receiver /\
  embeddingBuckets st' = embeddingBuckets receiver.
Proof.
intros st' Hb.
pose proof (built_reachable st Hb) as Hr.
pose proof (reachable_consistent st Hr) as Hc.
destruct (reachable_map_keys st Hr) as [Hne Hng].
destruct (built_exact st Hb) as [(Hbuckets & Hdomains & Hcategories) _].
destruct (importMemoryState_exact (exportMemoryState systemId now st) receiver)
  as (Hm & He & Hcl & Hg & Hmax & Hk & (Hb' & Hd' & Hc')).
fold st' in Hm, He, Hcl, Hg, Hmax, Hk, Hb', Hd', Hc'.
cbn [exportMemoryState memories embeddings clusters relationships] in Hm, He, Hcl, Hg.
rewrite mapOfEntries_id in Hm by apply (table_keys_unique _ Hc).
rewrite mapOfEntries_id in He by exact Hne.
rewrite mapOfEntries_id in Hcl by apply (cluster_keys_unique _ Hc).
rewrite mapOfEntries_id in Hg by exact Hng.
repeat (split; [assumption |]).
split; [| split; [| split; [| split; assumption]]].
- intros g key x. rewrite Hb', Hbuckets, Hm. reflexivity.
- intros key x. rewrite Hd', Hdomains, Hm. reflexivity.
- intros key x. rewrite Hc', Hcategories, Hm. reflexivity.
Qed.

Lemma export_then_import_restores_the_store_witness :
  memoryStore (importMemoryState (exportMemoryState "system-1" noon threeRecords)
                 (newStore 5)) = memoryStore threeRecords.
Proof.
apply (export_then_import_restores_the_store "system-1" noon threeRecords (newStore 5)).
exact threeRecords_built.
Defined.

(** ** Concept clusters as a partition *)

Section Partition.
Context `{Platform}.

Lemma fanOut_members (id fresh : string) (now : Z) (e : MemoryEntry) (st : Store)
    (k x : string) :
  In x (membersOf k (conceptClusters (fanOut id fresh now e st))) <->
  (x = id /\ exists emb, unified (embeddingsTensor e) = Some emb /\
                         k = findOrCreateConceptCluster emb (conceptClusters st) fresh) \/
  In x (membersOf k (conceptClusters st)).
Proof.
rewrite fanOut_indexed.
set (s := discoverRelationships id e (indexed id e st)).
assert (Hclusters : conceptClusters s = conceptClusters st)
  by (unfold s, discoverRelationships; cbn [conceptClusters withRelationshipGraph];
      apply indexed_clusters).
destruct (unified (embeddingsTensor e)) as [emb |] eqn:Hu.
- assert (Hidx : JsMap.get id (embeddingIndex s) = Some (embeddingsTensor e)).
  { unfold s, discoverRelationships. cbn [embeddingIndex withRelationshipGraph].
    rewrite indexed_embeddingIndex, Hu. apply map_get_set_same. }
  destruct (updateConceptClusters_effect id fresh now e emb s Hu Hidx)
    as ((c' & Hget & Hmembers & _) & Hother).
  rewrite Hclusters in Hget, Hmembers, Hother.
  set (cid := findOrCreateConceptCluster emb (conceptClusters st) fresh) in *.
  destruct (String.eqb k cid) eqn:Hk.
  + apply String.eqb_eq in Hk. subst k.
    unfold membersOf at 1. rewrite Hget, Hmembers, set_add_In. split.
    * intros [-> | Hold]; [left | now right]. split; [reflexivity |]. now exists emb.
    * intros [[-> _] | Hold]; [now left | now right].
  + apply String.eqb_neq in Hk.
    unfold membersOf at 1. rewrite (Hother k Hk). fold (membersOf k (conceptClusters st)).
    split; [now right |].
    intros [[_ (emb' & [= <-] & Hcid)] | Hold]; [contradiction | exact Hold].
- unfold updateConceptClusters. rewrite Hu, Hclusters. split; [now right |].
  intros [[_ (emb & [=] & _)] | Hold]. exact Hold.
Qed.

Lemma removeMemory_members (y : string) (st : Store) (k x : string) :
  In x (membersOf k (conceptClusters (removeMemory y st))) <->
  In x (membersOf k (conceptClusters st)) /\ x <> y.
Proof.
cbn [conceptClusters removeMemory]. unfold membersOf. rewrite map_get_mapValues.
destruct (JsMap.get k (conceptClusters st)) as [c |]; cbn [option_map dropMember members].
- apply set_delete_In.
- tauto.
Qed.

Lemma removeAll_members (l : list (string * MemoryEntry)) (st : Store) (k x : string) :
  In x (membersOf k (conceptClusters
          (fold_left (fun st kv => removeMemory (fst kv) st) l st))) <->
  In x (membersOf k (conceptClusters st)) /\ ~ In x (map fst l).
Proof.
revert st. induction l as [|kv l IH]; intro st; simpl; [tauto |].
rewrite IH, removeMemory_members. intuition congruence.
Qed.

Lemma members_stored (st : Store) (k x : string) :
  Consistent st -> In x (membersOf k (conceptClusters st)) -> stored st x.
Proof.
intros Hc Hx. unfold membersOf in Hx.
destruct (JsMap.get k (conceptClusters st)) as [c |] eqn:Hget; [| contradiction].
apply (embeddings_stored _ Hc), (members_indexed _ Hc k c); [| exact Hx].
now apply map_get_In.
Qed.

Lemma built_clusters (st : Store) :
  Built st ->
  (forall k1 k2 x, In x (membersOf k1 (conceptClusters st)) ->
                   In x (membersOf k2 (conceptClusters st)) -> k1 = k2) /\
  (forall x e, In (x, e) (memoryStore st) -> unified (embeddingsTensor e) <> None ->
               exists k, In x (membersOf k (conceptClusters st))).
Proof.
induction 1 as [max | st id fresh now e Hb [IHd IHc] Hfresh | st id Hb [IHd IHc]].
- split; [intros k1 k2 x [] | intros x e []].
- pose proof (reachable_consistent st (built_reachable st Hb)) as Hcons.
  unfold insertEntry, maintainMemoryLimits. split.
  + intros k1 k2 x H1 H2.
    apply removeAll_members in H1 as [H1 _]. apply removeAll_members in H2 as [H2 _].
    apply fanOut_members in H1. apply fanOut_members in H2.
    destruct H1 as [[-> (emb1 & Hu1 & ->)] | H1], H2 as [[Hx (emb2 & Hu2 & ->)] | H2].
    * rewrite Hu1 in Hu2. now injection Hu2 as <-.
    * exfalso. apply Hfresh. now apply (members_stored st k2).
    * exfalso. apply Hfresh. subst x. now apply (members_stored st k1).
    * now apply (IHd k1 k2 x).
  + intros x e' Hin Hu. apply removeAll_In in Hin as [Hin Hkept]. cbn [fst] in Hkept.
    rewrite fanOut_memoryStore in Hin.
    apply (proj1 (map_set_fresh_In id e _ x e' Hfresh)) in Hin as [[-> ->] | Hin].
    * destruct (unified (embeddingsTensor e)) as [emb |] eqn:Hemb; [| contradiction].
      exists (findOrCreateConceptCluster emb (conceptClusters st) fresh).
      apply removeAll_members. split; [| exact Hkept].
      apply fanOut_members. left. split; [reflexivity |]. now exists emb.
    * destruct (IHc x e' Hin Hu) as (k & Hk). exists k.
      apply removeAll_members. split; [| exact Hkept].
      apply fanOut_members. now right.
- split.
  + intros k1 k2 x H1 H2.
    apply removeMemory_members in H1 as [H1 _]. apply removeMemory_members in H2 as [H2 _].
    now apply (IHd k1 k2 x).
  + intros x e Hin Hu. cbn [memoryStore removeMemory] in Hin.
    apply map_delete_In in Hin as [Hin Hne].
    destruct (IHc x e Hin Hu) as (k & Hk). exists k.
    apply removeMemory_members. now split.
Qed.

Lemma filter_one_key {A : Type} (p : string * A -> bool) (l : list (string * A)) :
  NoDup (map fst l) ->
  (forall a b, In a (filter p l) -> In b (filter p l) -> fst a = fst b) ->
  List.length (filter p l) <= 1.
Proof.
intros Hnd Hsame.
assert (Hnd' : NoDup (map fst (filter p l))).
{ clear Hsame. induction l as [|a l IH]; simpl; [constructor |].
  inversion Hnd as [|? ? Ha Hl]; subst.
  destruct (p a); simpl; [| now apply IH].
  constructor; [| now apply IH]. intro Hin. apply Ha.
  apply in_map_iff in Hin as (b & Hb & Hin). apply filter_In in Hin as [Hin _].
  rewrite <- Hb. now apply in_map. }
destruct (filter p l) as [|a [|b rest]]; simpl; [lia | lia |].
exfalso. inversion Hnd' as [|? ? Ha _]; subst. apply Ha.
rewrite (Hsame a b); [now left | now left | right; now left].
Qed.

(** X15.  In a store built under fresh identifiers the concept clusters
    partition the records that have a unified embedding: no record is a
    member of two clusters, and every stored record with a unified
    embedding is a member of exactly one, which is what
    [getMemoryClusters] returns for it. *)
Theorem clusters_partition_the_embedded_records (st : Store) :
  Built st ->
  (forall x, List.length (getMemoryClusters x st) <= 1) /\
  (forall x e, In (x, e) (memoryStore st) -> unified (embeddingsTensor e) <> None ->
     exists k c, getMemoryClusters x st = [(k, c)] /\ In x (members c)).
Proof.
intro Hb. destruct (built_clusters st Hb) as [Hdisjoint Hcover].
pose proof (cluster_keys_unique _ (reachable_consistent st (built_reachable st Hb)))
  as Hnd.
assert (Hmember : forall x k c, In (k, c) (getMemoryClusters x st) ->
          In x (membersOf k (conceptClusters st)) /\ In x (members c)).
{ intros x k c Hin. apply filter_In in Hin as [Hin Hx]. cbn [snd] in Hx.
  apply set_has_In in Hx. split; [| exact Hx].
  unfold membersOf. now rewrite (map_In_get _ _ _ Hnd Hin). }
assert (Hone : forall x, List.length (getMemoryClusters x st) <= 1).
{ intro x. apply filter_one_key; [exact Hnd |].
  intros [k1 c1] [k2 c2] H1 H2. cbn [fst].
  apply (Hdisjoint k1 k2 x); [now apply (Hmember x k1 c1) | now apply (Hmember x k2 c2)]. }
split; [exact Hone |].
intros x e Hin Hu. destruct (Hcover x e Hin Hu) as (k & Hk).
unfold membersOf in Hk.
destruct (JsMap.get k (conceptClusters st)) as [c |] eqn:Hget; [| contradiction].
assert (Hfound : In (k, c) (getMemoryClusters x st)).
{ apply filter_In. split; [now apply map_get_In |]. now apply set_has_In. }
specialize (Hone x).
destruct (getMemoryClusters x st) as [|[k' c'] [|other rest]] eqn:Hlist;
  [contradiction | | simpl in Hone; lia].
destruct Hfound as [[= -> ->] | []]. now exists k, c.
Qed.
End Partition.

Lemma clusters_partition_the_embedded_records_witness :
  List.length (getMemoryClusters "memory-2" threeRecords) <= 1.
Proof.
apply (clusters_partition_the_embedded_records threeRecords).
exact threeRecords_built.
Defined.

(** ** The summary of a stored record *)

Lemma substring_whole (n : nat) (s : string) :
  String.length s <= n -> String.substring 0 n s = s.
Proof.
revert n. induction s as [|c s IH]; intros [|n] Hn; simpl in *; try reflexivity; try lia.
rewrite IH by lia. reflexivity.
Qed.

Lemma substring_append (n : nat) (s t : string) :
  String.length s <= n ->
  String.substring 0 n (s +++ t) = s +++ String.substring 0 (n - String.length s) t.
Proof.
revert n. induction s as [|c s IH]; intros n Hn; simpl in *.
- now rewrite Nat.sub_0_r.
- destruct n as [|n]; [lia |]. simpl. rewrite IH by lia. reflexivity.
Qed.

Lemma substring_length (n : nat) (s : string) :
  String.length (String.substring 0 n s) = Nat.min n (String.length s).
Proof.
revert n. induction s as [|c s IH]; intros [|n]; simpl; try reflexivity.
now rewrite IH.
Qed.

Lemma append_empty (s : string) : s +++ "" = s.
Proof. induction s as [|c s IH]; simpl; [reflexivity | now rewrite IH]. Qed.

Lemma append_associative (s t u : string) : (s +++ t) +++ u = s +++ t +++ u.
Proof. induction s as [|c s IH]; simpl; [reflexivity | now rewrite IH]. Qed.

Lemma append_length (s t : string) :
  String.length (s +++ t) = String.length s + String.length t.
Proof. induction s as [|c s IH]; simpl; [reflexivity | now rewrite IH]. Qed.

Lemma truthy_nonempty (s : string) : s <> "" -> truthy (Some s) = Some s.
Proof. destruct s; [congruence | reflexivity]. Qed.

(** X16.  The summary that a search hit shows for a record built by
    [createMemoryEntry] comes from the orchestrator's unified analysis
    alone: without an analysis it is the text "No summary available"; an
    analysis of at most 197 characters is shown whole and followed by six
    dots, because the record builder and [generateMemorySummary] each add
    an ellipsis; an analysis of 200 characters or more is cut to 200 and
    followed by three. *)
Theorem summary_of_a_built_record `{Platform}
    (id : string) (r : OrchestrationResult) (e : MemoryEntry) :
  createMemoryEntry id r = Ok e ->
  let analysis :=
    match or_orchestratorSynthesis r with
    | Some synthesis =>
        match os_unifiedAnalysis synthesis with Some a => a | None => "" end
    | None => ""
    end in
  (analysis = "" -> generateMemorySummary e = "No summary available") /\
  (analysis <> "" -> String.length analysis <= 197 ->
   generateMemorySummary e = analysis +++ "......") /\
  (200 <= String.length analysis ->
   generateMemorySummary e = String.substring 0 200 analysis +++ "...").
Proof.
unfold createMemoryEntry.
destruct (or_agentResults r) as [agentResults |]; [| discriminate].
destruct (or_qualityMetrics r) as [quality |]; [| discriminate].
destruct (or_orchestratorSynthesis r) as [synthesis |]; [| discriminate].
destruct (or_orchestrationMetadata r) as [metadata |]; [| discriminate].
intros [= <-]. cbv zeta. unfold generateMemorySummary.
cbn [agentOutputs out_orchestrator ao_text]. unfold withEllipsis.
destruct (os_unifiedAnalysis synthesis) as [a |]; cbn [option_map].
- split; [| split].
  + intros ->. reflexivity.
  + intros Hne Hlen.
    rewrite (substring_whole 200 a) by lia. rewrite (truthy_nonempty a Hne).
    rewrite (substring_whole 200 (a +++ "...")).
    * rewrite truthy_nonempty by (destruct a; [congruence | discriminate]).
      rewrite append_associative. reflexivity.
    * rewrite append_length. simpl. lia.
  + intro Hlen.
    assert (Hcut : String.length (String.substring 0 200 a) = 200)
      by (rewrite substring_length; lia).
    assert (Hne : String.substring 0 200 a <> "")
      by (intro He; rewrite He in Hcut; discriminate).
    rewrite (truthy_nonempty _ Hne).
    rewrite substring_append by lia. rewrite Hcut, Nat.sub_diag.
    change (String.substring 0 0 "...") with "". rewrite append_empty.
    now rewrite (truthy_nonempty _ Hne).
- split; [reflexivity | split; [congruence | simpl; lia]].
Qed.

Lemma summary_of_a_built_record_witness :
  exists e, createMemoryEntry "memory-1" (visit noon "a") = Ok e /\
            generateMemorySummary e = "No summary available".
Proof.
eexists. split; [reflexivity |].
apply (summary_of_a_built_record "memory-1" (visit noon "a") _ eq_refl).
reflexivity.
Defined.

(** ** What the analytics count *)

Lemma addToSetMap_distinct (key id : string) (m : JsMap.t JsSet.t) :
  Forall (fun kv => NoDup (snd kv)) m ->
  Forall (fun kv => NoDup (snd kv)) (addToSetMap key id m).
Proof.
intro Hm. rewrite Forall_forall in Hm. rewrite addToSetMap_set.
apply Forall_forall. intros [k s] Hin.
apply map_set_In in Hin as [[-> ->] | Hin]; [| now apply (Hm (k, s))].
cbn [snd]. apply set_add_NoDup. unfold getSet.
destruct (JsMap.get key m) as [s0 |] eqn:Hget; [| constructor].
apply map_get_In in Hget. now apply (Hm (key, s0)).
Qed.

Lemma addUnder_distinct (keysOf : MemoryEntry -> list string) (m : JsMap.t JsSet.t)
    (kv : string * MemoryEntry) :
  Forall (fun kv => NoDup (snd kv)) m ->
  Forall (fun kv => NoDup (snd kv)) (addUnder keysOf m kv).
Proof.
unfold addUnder. revert m.
induction (keysOf (snd kv)) as [|key keys IH]; intros m Hm; simpl; [exact Hm |].
now apply IH, addToSetMap_distinct.
Qed.

Lemma forget_distinct (y : string) (m : JsMap.t JsSet.t) :
  Forall (fun kv => NoDup (snd kv)) m ->
  Forall (fun kv => NoDup (snd kv)) (JsMap.mapValues (JsSet.delete y) m).
Proof.
intro Hm. rewrite Forall_forall in Hm. apply Forall_forall. intros [k s] Hin.
apply map_mapValues_In in Hin as (s0 & -> & Hin). cbn [snd].
apply NoDup_filter. now apply (Hm (k, s0)).
Qed.

Section Counts.
Context `{Platform}.

(** The rankings list names of the index with the sizes of their sets. *)
Lemma rankings_sound (st : Store) :
  Reachable st ->
  (forall name count, In (name, count) (getTopCategories st) ->
     exists s, JsMap.get name (semanticCategories st) = Some s /\
               count = List.length s) /\
  (forall name count, In (name, count) (getTopDomains st) ->
     exists s, JsMap.get name (domainClusters st) = Some s /\ count = List.length s).
Proof.
intro Hr. destruct (reachable_index_keys st Hr) as [Hc Hd].
split; intros name count; [apply (top_ten _ Hc) | apply (top_ten _ Hd)].
Qed.

(** The three derived indices of a store, by the keys they file a
    record under. *)
Lemma fanOut_index (id fresh : string) (now : Z) (e : MemoryEntry) (st : Store) :
  (forall g, bucketOf g (temporalBuckets (fanOut id fresh now e st)) =
             addUnder (fun e => [temporalKey g (timestamp e)])
               (bucketOf g (temporalBuckets st)) (id, e)) /\
  domainClusters (fanOut id fresh now e st) =
    addUnder (fun e => [domain e]) (domainClusters st) (id, e) /\
  semanticCategories (fanOut id fresh now e st) =
    addUnder (fun e => sf_categories (semanticFeatures e)) (semanticCategories st) (id, e).
Proof.
split; [| split].
- intro g. rewrite fanOut_buckets, indexed_bucket. reflexivity.
- rewrite fanOut_domains, indexed_domains. reflexivity.
- rewrite fanOut_categories, indexed_categories. reflexivity.
Qed.

Lemma removeMemory_distinct (y : string) (st : Store) :
  (forall g, Forall (fun kv => NoDup (snd kv)) (bucketOf g (temporalBuckets st))) /\
  Forall (fun kv => NoDup (snd kv)) (domainClusters st) /\
  Forall (fun kv => NoDup (snd kv)) (semanticCategories st) ->
  (forall g, Forall (fun kv => NoDup (snd kv))
               (bucketOf g (temporalBuckets (removeMemory y st)))) /\
  Forall (fun kv => NoDup (snd kv)) (domainClusters (removeMemory y st)) /\
  Forall (fun kv => NoDup (snd kv)) (semanticCategories (removeMemory y st)).
Proof.
intros (Hb & Hd & Hc). split; [| split].
- intro g. rewrite bucketOf_removeMemory. now apply forget_distinct.
- cbn [domainClusters removeMemory]. now apply forget_distinct.
- cbn [semanticCategories removeMemory]. now apply forget_distinct.
Qed.

Lemma reachable_distinct (st : Store) :
  Reachable st ->
  (forall g, Forall (fun kv => NoDup (snd kv)) (bucketOf g (temporalBuckets st))) /\
  Forall (fun kv => NoDup (snd kv)) (domainClusters st) /\
  Forall (fun kv => NoDup (snd kv)) (semanticCategories st).
Proof.
induction 1 as [max | st id fresh now e Hr IH | st id Hr IH].
- split; [intros []; constructor | split; constructor].
- unfold insertEntry, maintainMemoryLimits.
  assert (Hwritten :
            (forall g, Forall (fun kv => NoDup (snd kv))
                         (bucketOf g (temporalBuckets (fanOut id fresh now e st)))) /\
            Forall (fun kv => NoDup (snd kv)) (domainClusters (fanOut id fresh now e st)) /\
            Forall (fun kv => NoDup (snd kv))
              (semanticCategories (fanOut id fresh now e st))).
  { destruct IH as (Hb & Hd & Hc).
    destruct (fanOut_index id fresh now e st) as (Eb & -> & ->).
    split; [| split]; [| now apply addUnder_distinct ..].
    intro g. rewrite Eb. now apply addUnder_distinct. }
  revert Hwritten. generalize (toRemove (fanOut id fresh now e st)) as l.
  generalize (fanOut id fresh now e st) as s. intros s l. revert s.
  induction l as [|kv l IHl]; intros s Hs; simpl; [exact Hs |].
  now apply IHl, removeMemory_distinct.
- now apply removeMemory_distinct.
Qed.

(** The size of a set of an index that files the records of the table
    under [keysOf]. *)
Lemma index_counts (keysOf : MemoryEntry -> list string) (index : JsMap.t JsSet.t)
    (table : JsMap.t MemoryEntry) (key : string) :
  NoDup (JsMap.keys table) ->
  Forall (fun kv => NoDup (snd kv)) index ->
  (forall x, indexHolds index key x <->
             exists e, In (x, e) table /\ In key (keysOf e)) ->
  List.length (getSet key index) =
  List.length (filter (fun kv => existsb (String.eqb key) (keysOf (snd kv))) table).
Proof.
intros Hnd Hsets Hexact.
set (filed := filter (fun kv => existsb (String.eqb key) (keysOf (snd kv))) table).
rewrite <- (length_map fst filed).
apply Permutation_length, NoDup_Permutation.
- unfold getSet. destruct (JsMap.get key index) as [s |] eqn:Hget; [| constructor].
  rewrite Forall_forall in Hsets. apply map_get_In in Hget. now apply (Hsets (key, s)).
- unfold filed. clear -Hnd. unfold JsMap.keys in Hnd.
  induction table as [|a table IH]; simpl; [constructor |].
  inversion Hnd as [|? ? Ha Hl]; subst.
  destruct (existsb _ _); simpl; [| now apply IH].
  constructor; [| now apply IH]. intro Hin. apply Ha.
  apply in_map_iff in Hin as (b & Hb & Hin). apply filter_In in Hin as [Hin _].
  rewrite <- Hb. now apply in_map.
- intro x. transitivity (indexHolds index key x).
  + unfold indexHolds, getSet. destruct (JsMap.get key index) as [s |].
    * split; [intro Hx; now exists s | now intros (s' & [= <-] & Hx)].
    * split; [contradiction | now intros (s' & [=] & _)].
  + rewrite Hexact. unfold filed. rewrite in_map_iff. split.
    * intros (e & Hin & Hk). exists (x, e). split; [reflexivity |].
      apply filter_In. split; [exact Hin |]. cbn [snd].
      apply existsb_exists. exists key. split; [exact Hk | apply String.eqb_refl].
    * intros ([x' e] & Hx & Hin). cbn [fst] in Hx. subst x'.
      apply filter_In in Hin as [Hin Hk]. cbn [snd] in Hk.
      apply existsb_exists in Hk as (k' & Hk' & Heq). apply String.eqb_eq in Heq.
      subst k'. now exists e.
Qed.

(** X17.  In a store built under fresh identifiers the analytics count
    stored records: [getMemoriesInTimeRange] gives the number of records
    of the canonical table whose timestamp falls in the hour, day, week
    or month of the clock, and each count that [getTopCategories] or
    [getTopDomains] reports is the number of stored records with that
    category or that domain. *)
Theorem analytics_count_stored_records (st : Store) :
  Built st ->
  (forall g now,
     getMemoriesInTimeRange g now st =
     List.length
       (filter (fun kv => String.eqb (temporalKey g (TsNumber now))
                            (temporalKey g (timestamp (snd kv))))
               (memoryStore st))) /\
  (forall name count, In (name, count) (getTopCategories st) ->
     count =
     List.length
       (filter (fun kv => existsb (String.eqb name)
                            (sf_categories (semanticFeatures (snd kv))))
               (memoryStore st))) /\
  (forall name count, In (name, count) (getTopDomains st) ->
     count =
     List.length
       (filter (fun kv => String.eqb name (domain (snd kv))) (memoryStore st))).
Proof.
intro Hb. pose proof (built_reachable st Hb) as Hr.
pose proof (table_keys_unique _ (reachable_consistent st Hr)) as Hnd.
destruct (built_exact st Hb) as [(Hbuckets & Hdomains & Hcategories) _].
destruct (reachable_distinct st Hr) as (Hsb & Hsd & Hsc).
destruct (rankings_sound st Hr) as [Htc Htd].
split; [| split].
- intros g now.
  transitivity (List.length (getSet (temporalKey g (TsNumber now))
                               (bucketOf g (temporalBuckets st)))).
  { unfold getMemoriesInTimeRange, getSet. now destruct (JsMap.get _ _). }
  rewrite (index_counts (fun e => [temporalKey g (timestamp e)]) _ (memoryStore st));
    [| exact Hnd | apply Hsb |].
  + f_equal. apply filter_ext. intro kv. cbn [existsb]. apply orb_false_r.
  + intro x. rewrite Hbuckets. cbn [In]. split.
    * intros (e & Hin & ->). exists e. auto.
    * intros (e & Hin & [<- | []]). now exists e.
- intros name count Hin. destruct (Htc name count Hin) as (s & Hget & ->).
  rewrite <- (index_counts (fun e => sf_categories (semanticFeatures e))
                (semanticCategories st) (memoryStore st) name Hnd Hsc (Hcategories name)).
  unfold getSet. now rewrite Hget.
- intros name count Hin. destruct (Htd name count Hin) as (s & Hget & ->).
  transitivity (List.length (getSet name (domainClusters st)));
    [unfold getSet; now rewrite Hget |].
  rewrite (index_counts (fun e => [domain e]) _ (memoryStore st)); [| exact Hnd | exact Hsd |].
  + f_equal. apply filter_ext. intro kv. cbn [existsb]. apply orb_false_r.
  + intro x. rewrite Hdomains. cbn [In]. split.
    * intros (e & Hin' & ->). exists e. auto.
    * intros (e & Hin' & [<- | []]). now exists e.
Qed.
End Counts.

Lemma analytics_count_stored_records_witness :
  getMemoriesInTimeRange Day (noon + 5) threeRecords = 3.
Proof.
rewrite (proj1 (analytics_count_stored_records threeRecords threeRecords_built)).
vm_compute. reflexivity.
Defined.

(** ** What is never pruned *)

Lemma keepsKeys_refl (st : Store) : KeepsKeys st st.
Proof. unfold KeepsKeys. repeat split; try apply incl_refl; auto using incl_refl. Qed.

Lemma keepsKeys_trans (st1 st2 st3 : Store) :
  KeepsKeys st1 st2 -> KeepsKeys st2 st3 -> KeepsKeys st1 st3.
Proof.
intros (Hc & Hb & Hd & Hs & He) (Hc' & Hb' & Hd' & Hs' & He').
unfold KeepsKeys. split; [| split; [| split; [| split]]].
- eapply incl_tran; eassumption.
- intro g. eapply incl_tran; [apply Hb | apply Hb'].
- eapply incl_tran; eassumption.
- eapply incl_tran; eassumption.
- intros key x Hx. now apply He', He.
Qed.

Lemma addUnder_keys (keysOf : MemoryEntry -> list string) (m : JsMap.t JsSet.t)
    (kv : string * MemoryEntry) :
  incl (JsMap.keys m) (JsMap.keys (addUnder keysOf m kv)).
Proof.
unfold addUnder. revert m.
induction (keysOf (snd kv)) as [|key keys IH]; intro m; simpl; [apply incl_refl |].
eapply incl_tran; [| apply IH].
intros k Hk. rewrite addToSetMap_set. apply map_keys_set_In. now right.
Qed.

Section Growth.
Context `{Platform}.

Lemma removeMemory_keeps (y : string) (st : Store) : KeepsKeys st (removeMemory y st).
Proof.
destruct (removeMemory_index_keys y st) as (Hb & Hd & Hc).
unfold KeepsKeys. rewrite Hd, Hc. split; [| split; [| split; [| split]]].
- cbn [conceptClusters removeMemory]. rewrite map_keys_mapValues. apply incl_refl.
- intro g. rewrite Hb. apply incl_refl.
- apply incl_refl.
- apply incl_refl.
- intros key x Hx. exact Hx.
Qed.

Lemma removeAll_keeps (l : list (string * MemoryEntry)) (st : Store) :
  KeepsKeys st (fold_left (fun st kv => removeMemory (fst kv) st) l st).
Proof.
revert st. induction l as [|kv l IH]; intro st; simpl; [apply keepsKeys_refl |].
eapply keepsKeys_trans; [apply removeMemory_keeps | apply IH].
Qed.

Lemma fanOut_embeddingBuckets (id fresh : string) (now : Z) (e : MemoryEntry)
    (st : Store) :
  embeddingBuckets (fanOut id fresh now e st) =
  Some (addToSetMap (calculateEmbeddingBucket (unified (embeddingsTensor e))) id
          (match embeddingBuckets st with Some b => b | None => [] end)).
Proof.
rewrite fanOut_indexed, updateConceptClusters_shape.
unfold discoverRelationships, indexed.
cbn -[addToSetMap calculateEmbeddingBucket temporalKey discoveredRelationships pushReverse].
destruct (unified (embeddingsTensor e)); reflexivity.
Qed.

Lemma updateConceptClusters_keeps (id fresh : string) (now : Z) (e : MemoryEntry)
    (st : Store) :
  incl (JsMap.keys (conceptClusters st))
       (JsMap.keys (conceptClusters (updateConceptClusters id fresh now e st))).
Proof.
unfold updateConceptClusters.
destruct (unified (embeddingsTensor e)) as [emb |]; [| apply incl_refl].
set (cid := findOrCreateConceptCluster emb (conceptClusters st) fresh).
set (clusters := if JsMap.has cid (conceptClusters st) then conceptClusters st else _).
assert (Hgrow : incl (JsMap.keys (conceptClusters st)) (JsMap.keys clusters)).
{ unfold clusters. destruct (JsMap.has cid (conceptClusters st)); [apply incl_refl |].
  intros k Hk. apply map_keys_set_In. now right. }
destruct (JsMap.get cid clusters) as [c |]; [| apply incl_refl].
rewrite updateClusterCentroid_keys. cbn [conceptClusters withConceptClusters].
intros k Hk. apply map_keys_set_In. right. now apply Hgrow.
Qed.

Lemma fanOut_keeps (id fresh : string) (now : Z) (e : MemoryEntry) (st : Store) :
  KeepsKeys st (fanOut id fresh now e st).
Proof.
destruct (fanOut_index id fresh now e st) as (Hb & Hd & Hc).
unfold KeepsKeys. rewrite Hd, Hc, fanOut_embeddingBuckets.
split; [| split; [| split; [| split]]].
- rewrite fanOut_indexed.
  eapply incl_tran; [| apply updateConceptClusters_keeps].
  unfold discoverRelationships. cbn [conceptClusters withRelationshipGraph].
  rewrite indexed_clusters. apply incl_refl.
- intro g. rewrite Hb. apply addUnder_keys.
- apply addUnder_keys.
- apply addUnder_keys.
- intros key x Hx. now apply addToSetMap_get_mono.
Qed.

(** X18.  Neither an insert, with the eviction it may cause, nor a
    removal ever drops a key: a concept cluster, a temporal bucket, a
    domain and a category stay once they exist, even when their set has
    become empty, and the embedding buckets keep every identifier they
    were given, also that of a record that is no longer stored. *)
Theorem keys_are_never_dropped (st : Store) (id fresh : string) (now : Z)
    (e : MemoryEntry) :
  KeepsKeys st (insertEntry id fresh now e st) /\
  KeepsKeys st (removeMemory id st) /\
  embeddingBuckets (removeMemory id st) = embeddingBuckets st.
Proof.
split; [| split; [apply removeMemory_keeps | reflexivity]].
unfold insertEntry, maintainMemoryLimits.
eapply keepsKeys_trans; [apply fanOut_keeps | apply removeAll_keeps].
Qed.
End Growth.

(** ** The embedding buckets over a session *)

Section Sessions.
Context `{Platform}.

Lemma storeMemory_keeps (id fresh : string) (now : Z) (r : OrchestrationResult)
    (st : Store) :
  KeepsKeys st (fst (storeMemory id fresh now r st)).
Proof.
unfold storeMemory. destruct (createMemoryEntry id r) as [e | message]; cbn [fst].
- unfold insertEntry, maintainMemoryLimits.
  eapply keepsKeys_trans; [apply fanOut_keeps | apply removeAll_keeps].
- apply keepsKeys_refl.
Qed.

Lemma storeAll_keeps (calls : list StoreCall) (st : Store) :
  KeepsKeys st (storeAll calls st).
Proof.
unfold storeAll. revert st.
induction calls as [|call calls IH]; intro st; simpl; [apply keepsKeys_refl |].
eapply keepsKeys_trans; [apply storeMemory_keeps | apply IH].
Qed.

Lemma storeMemory_default_bucket (id fresh : string) (now : Z) (r : OrchestrationResult)
    (st : Store) :
  complete r ->
  indexHolds
    (match embeddingBuckets (fst (storeMemory id fresh now r st)) with
     | Some b => b
     | None => []
     end) "default" id.
Proof.
intro Hs. unfold storeMemory.
destruct (createMemoryEntry id r) as [e | message] eqn:He; cbn [fst].
- destruct (createMemoryEntry_no_embedding id r e He) as (Hu & _).
  unfold insertEntry, maintainMemoryLimits.
  apply (removeAll_keeps (toRemove (fanOut id fresh now e st))).
  rewrite fanOut_embeddingBuckets, Hu. apply addToSetMap_get_same.
- apply (createMemoryEntry_complete id) in Hs as (e & Hbuilt). congruence.
Qed.

Lemma storeAll_reachable (calls : list StoreCall) (st : Store) :
  Reachable st ->
  Reachable (storeAll calls st) /\ maxMemories (storeAll calls st) = maxMemories st.
Proof.
unfold storeAll. revert st.
induction calls as [|call calls IH]; intros st Hst; simpl; [now split |].
unfold storeMemory at 2 4.
destruct (createMemoryEntry (call_memoryId call) (call_result call)) as [e | message];
  cbn [fst]; [| now apply IH].
destruct (IH (insertEntry (call_memoryId call) (call_clusterId call) (call_now call) e st))
  as [Hr Hmax]; [now constructor |].
split; [exact Hr |]. rewrite Hmax. apply insertEntry_maxMemories.
Qed.

Lemma reachable_size (st : Store) :
  Reachable st ->
  (Z.of_nat (List.length (memoryStore st)) <= Z.max 0 (maxMemories st))%Z.
Proof.
induction 1 as [maxMemories | st id fresh now e Hr IH | st id Hr IH].
- cbn. lia.
- rewrite insertEntry_maxMemories. unfold insertEntry.
  rewrite <- (fanOut_maxMemories id fresh now e st).
  apply maintainMemoryLimits_size, table_keys_unique, fanOut_consistent.
  now apply reachable_consistent.
- cbn [maxMemories removeMemory memoryStore].
  pose proof (filter_length_le
                (fun kv : string * MemoryEntry => negb (String.eqb id (fst kv)))
                (memoryStore st)) as Hf.
  unfold JsMap.delete. lia.
Qed.

Lemma removeAll_embeddingBuckets (l : list (string * MemoryEntry)) (st : Store) :
  embeddingBuckets (fold_left (fun st kv => removeMemory (fst kv) st) l st) =
  embeddingBuckets st.
Proof.
revert st. induction l as [|kv l IH]; intro st; simpl; [reflexivity |].
now rewrite IH.
Qed.

Lemma storeAll_listed (calls : list StoreCall) (st : Store) (call : StoreCall) :
  In call calls -> complete (call_result call) ->
  indexHolds (match embeddingBuckets (storeAll calls st) with Some b => b | None => [] end)
    "default" (call_memoryId call).
Proof.
revert st. induction calls as [|first calls IH]; intros st Hin Hs; [destruct Hin |].
destruct Hin as [-> | Hin].
- change (storeAll (call :: calls) st)
    with (storeAll calls (fst (storeMemory (call_memoryId call) (call_clusterId call)
                                 (call_now call) (call_result call) st))).
  apply (storeAll_keeps calls). now apply storeMemory_default_bucket.
- now apply (IH _ Hin Hs).
Qed.

Lemma storeAll_origin (calls : list StoreCall) (st : Store) (key x : string) :
  NoDup (JsMap.keys (match embeddingBuckets st with Some b => b | None => [] end)) ->
  indexHolds (match embeddingBuckets (storeAll calls st) with Some b => b | None => [] end)
    key x ->
  indexHolds (match embeddingBuckets st with Some b => b | None => [] end) key x \/
  (key = "default" /\ exists call, In call calls /\ x = call_memoryId call).
Proof.
revert st. induction calls as [|call calls IH]; intros st Hnd Hx; [now left |].
change (storeAll (call :: calls) st)
  with (storeAll calls (fst (storeMemory (call_memoryId call) (call_clusterId call)
                               (call_now call) (call_result call) st))) in Hx.
unfold storeMemory in Hx.
destruct (createMemoryEntry (call_memoryId call) (call_result call)) as [e | message]
  eqn:He; cbn [fst] in Hx.
- assert (Hbuckets :
            embeddingBuckets (insertEntry (call_memoryId call) (call_clusterId call)
                                (call_now call) e st) =
            Some (addToSetMap "default" (call_memoryId call)
                    (match embeddingBuckets st with Some b => b | None => [] end))).
  { unfold insertEntry, maintainMemoryLimits.
    rewrite removeAll_embeddingBuckets, fanOut_embeddingBuckets.
    destruct (createMemoryEntry_no_embedding _ _ _ He) as (-> & _). reflexivity. }
  apply IH in Hx.
  + destruct Hx as [Hx | (-> & other & Hin & ->)].
    * rewrite Hbuckets in Hx. apply addToSetMap_holds in Hx; [| exact Hnd].
      destruct Hx as [[-> ->] | Hx]; [right | now left].
      split; [reflexivity |]. exists call. split; [now left | reflexivity].
    * right. split; [reflexivity |]. exists other. split; [now right | reflexivity].
  + rewrite Hbuckets. now apply addToSetMap_NoDup.
- apply IH in Hx; [| exact Hnd].
  destruct Hx as [Hx | (-> & other & Hin & ->)]; [now left | right].
  split; [reflexivity |]. exists other. split; [now right | reflexivity].
Qed.

(** X19.  Over a session of [storeMemory] calls the canonical table stays
    within the capacity, but the embedding buckets do not: every record
    that was stored, evicted or not, is still listed in the bucket
    "default" at the end, and the buckets hold nothing else, because no
    record gets an embedding and the eviction leaves the buckets alone. *)
Theorem embedding_buckets_outgrow_the_capacity (calls : list StoreCall) (maxMemories : Z) :
  let st := storeAll calls (newStore maxMemories) in
  (Z.of_nat (List.length (memoryStore st)) <= Z.max 0 maxMemories)%Z /\
  (forall call, In call calls -> complete (call_result call) ->
     indexHolds (match embeddingBuckets st with Some b => b | None => [] end)
       "default" (call_memoryId call)) /\
  (forall key x,
     indexHolds (match embeddingBuckets st with Some b => b | None => [] end) key x ->
     key = "default" /\ exists call, In call calls /\ x = call_memoryId call).
Proof.
cbv zeta. split; [| split].
- destruct (storeAll_reachable calls (newStore maxMemories) (reach_new maxMemories))
    as [Hr Hmax].
  pose proof (reachable_size _ Hr) as Hsize. rewrite Hmax in Hsize. exact Hsize.
- intros call Hin Hs. now apply storeAll_listed.
- intros key x Hx. apply storeAll_origin in Hx; [| constructor].
  destruct Hx as [Hx | Hx]; [| exact Hx]. now apply indexHolds_nil in Hx.
Qed.
End Sessions.

(** ** What a search finds *)

Lemma scanIndex_complete (q : Embedding) (threshold : float)
    (index : JsMap.t EmbeddingsTensor) (table : JsMap.t MemoryEntry)
    (hits : list SearchHit) :
  scanIndex q threshold index table = Ok hits ->
  List.length hits <= List.length index /\
  forall k t u, In (k, t) index -> unified t = Some u ->
    (threshold <=? similarity (Some q) (Some u))%float = true ->
    exists memory,
      JsMap.get k table = Some memory /\
      In {| hit_memoryId := k; hit_similarity := similarity (Some q) (Some u);
            hit_memory := memory; hit_url := url memory;
            hit_timestamp := timestamp memory;
            hit_summary := generateMemorySummary memory;
            hit_relationships := None |} hits.
Proof.
revert hits. induction index as [|[k0 t0] index IH]; intros hits; cbn [scanIndex].
- intros [= <-]. split; [simpl; lia | intros k t u []].
- destruct (unified t0) as [u0 |] eqn:Hu0.
  + destruct (threshold <=? similarity (Some q) (Some u0))%float eqn:Hthr.
    * destruct (JsMap.get k0 table) as [memory |] eqn:Hg; [| intros [=]].
      destruct (scanIndex q threshold index table) as [rest | message]; [| intros [=]].
      intros [= <-]. destruct (IH rest eq_refl) as [Hlen Hall].
      split; [simpl; lia |].
      intros k t u [[= <- <-] | Hin] Hu Hs.
      -- rewrite Hu0 in Hu. injection Hu as <-. exists memory.
         split; [exact Hg | now left].
      -- destruct (Hall k t u Hin Hu Hs) as (m & Hm & Hhit). exists m.
         split; [exact Hm | now right].
    * intro Hscan. destruct (IH hits Hscan) as [Hlen Hall].
      split; [simpl; lia |].
      intros k t u [[= <- <-] | Hin] Hu Hs; [| now apply (Hall k t u)].
      rewrite Hu0 in Hu. injection Hu as <-. rewrite Hthr in Hs. discriminate.
  + intro Hscan. destruct (IH hits Hscan) as [Hlen Hall].
    split; [simpl; lia |].
    intros k t u [[= <- <-] | Hin] Hu Hs; [| now apply (Hall k t u)].
    rewrite Hu0 in Hu. discriminate.
Qed.

Lemma applyFilters_keeps (hits : list SearchHit) (o : SearchOptions) (hit : SearchHit) :
  In hit hits ->
  (forall d, truthy (domainFilter o) = Some d -> domain (hit_memory hit) = d) ->
  (forall c, truthy (categoryFilter o) = Some c ->
             In c (sf_categories (semanticFeatures (hit_memory hit)))) ->
  (forall f, temporalFilter o = Some f ->
             tsGeb (timestamp (hit_memory hit)) (tf_start f) = true /\
             tsGeb (tf_end f) (timestamp (hit_memory hit)) = true) ->
  In hit (applyFilters hits o) /\
  List.length (applyFilters hits o) <= List.length hits.
Proof.
intros Hin Hd Hc Ht. unfold applyFilters.
set (byDomain := match truthy (domainFilter o) with
                 | Some d => filter (fun r => String.eqb (domain (hit_memory r)) d) hits
                 | None => hits
                 end).
assert (H1 : In hit byDomain /\ List.length byDomain <= List.length hits).
{ unfold byDomain. destruct (truthy (domainFilter o)) as [d |]; [| split; [exact Hin | lia]].
  split; [| apply filter_length_le].
  apply filter_In. split; [exact Hin |]. apply String.eqb_eq. now apply Hd. }
set (byCategory := match truthy (categoryFilter o) with
                   | Some c => filter _ byDomain
                   | None => byDomain
                   end).
assert (H2 : In hit byCategory /\ List.length byCategory <= List.length hits).
{ unfold byCategory. destruct (truthy (categoryFilter o)) as [c |]; [| exact H1].
  split.
  - apply filter_In. split; [apply H1 |]. apply set_has_In. now apply Hc.
  - etransitivity; [apply filter_length_le | apply H1]. }
destruct (temporalFilter o) as [f |]; [| exact H2].
split.
- apply filter_In. split; [apply H2 |]. destruct (Ht f eq_refl) as [-> ->]. reflexivity.
- etransitivity; [apply filter_length_le | apply H2].
Qed.

(** X20.  A search that does not fail and whose limit is at least the
    size of the embedding index misses nothing: every indexed record
    whose similarity to the query reaches the threshold and that passes
    the filters is among the results, with that similarity and with its
    stored record. *)
Theorem search_misses_nothing
    (query : string) (o : SearchOptions) (provider : FetchOutcome) (st : Store)
    (q u : Embedding) (k : string) (t : EmbeddingsTensor) (memory : MemoryEntry) :
  let r := searchMemories query o provider st in
  error r = None ->
  (Z.of_nat (List.length (embeddingIndex st)) <= limit o)%Z ->
  generateQueryEmbedding provider = Some q ->
  In (k, t) (embeddingIndex st) -> unified t = Some u ->
  (threshold o <=? similarity (Some q) (Some u))%float = true ->
  JsMap.get k (memoryStore st) = Some memory ->
  (forall d, truthy (domainFilter o) = Some d -> domain memory = d) ->
  (forall c, truthy (categoryFilter o) = Some c ->
             In c (sf_categories (semanticFeatures memory))) ->
  (forall f, temporalFilter o = Some f ->
             tsGeb (timestamp memory) (tf_start f) = true /\
             tsGeb (tf_end f) (timestamp memory) = true) ->
  exists hit,
    In hit (results r) /\ hit_memoryId hit = k /\
    hit_similarity hit = similarity (Some q) (Some u) /\ hit_memory hit = memory.
Proof.
cbv zeta. unfold searchMemories, findSimilarMemories.
intros Herr Hlimit Hq Hin Hu Hthr Hget Hd Hc Ht. rewrite Hq in *.
destruct (scanIndex q (threshold o) (embeddingIndex st) (memoryStore st))
  as [hits | message] eqn:Hscan; [| discriminate].
cbn [results]. destruct (scanIndex_complete _ _ _ _ _ Hscan) as [Hlen Hall].
destruct (Hall k t u Hin Hu Hthr) as (memory' & Hget' & Hhit).
rewrite Hget in Hget'. injection Hget' as <-.
set (hit := {| hit_memoryId := k; hit_similarity := similarity (Some q) (Some u);
               hit_memory := memory; hit_url := url memory;
               hit_timestamp := timestamp memory;
               hit_summary := generateMemorySummary memory;
               hit_relationships := None |}) in *.
destruct (applyFilters_keeps hits o hit Hhit Hd Hc Ht) as [Hkept Hfewer].
assert (Hcut : In hit (slice0 (limit o) (stableSort lessSimilar (applyFilters hits o)))).
{ rewrite slice0_upto by lia. rewrite firstn_all2.
  - now apply stableSort_In.
  - rewrite (Permutation_length (stableSort_perm lessSimilar _)). lia. }
destruct (includeRelationships o).
- eexists. split; [apply in_map_iff; exists hit; split; [reflexivity | exact Hcut] |].
  cbn. repeat split.
- exists hit. repeat split. exact Hcut.
Qed.

Lemma search_misses_nothing_witness :
  exists hit,
    In hit (results (searchMemories "anything" defaultOptions
                       (ResponseOk (Some [1; 0]%float)) twoAlike)) /\
    hit_memoryId hit = "memory-2".
Proof.
destruct (search_misses_nothing "anything" defaultOptions (ResponseOk (Some [1; 0]%float))
            twoAlike [1; 0]%float [0.9; 0.1]%float "memory-2"
            (embeddingsTensor (embedded "memory-2" (noon + 1) [0.9; 0.1]%float))
            (embedded "memory-2" (noon + 1) [0.9; 0.1]%float))
  as (hit & Hin & Hid & _).
- vm_compute. reflexivity.
- vm_compute. discriminate.
- reflexivity.
- vm_compute. right. left. reflexivity.
- reflexivity.
- vm_compute. reflexivity.
- vm_compute. reflexivity.
- discriminate.
- discriminate.
- discriminate.
- exists hit. split; [exact Hin | exact Hid].
Defined.
